(** * The validator app's event loop and its chain-submission loop

    A shallow embedding of [service/event_loop.go]: the goroutines
    [jurySigSubmissionLoop], [eventLoop] and [handleSentToBabylonLoop], the
    channels between them, the validator store they write and the chain
    client they call.  ([validatorSubmissionLoop] only produces requests; it
    is one of the callers here.)

    Go's [uint64] is a [Z] with the wrap-around written out, [[]byte] is a
    [list byte], a channel is the list of the values sent and not yet
    received (oldest first), and one iteration of a [select] loop is a
    function of the case that fires: [select] takes any case that is ready,
    so a run of the process is a list of such choices.  A send on a reply
    channel is taken to complete, its caller waiting for it.  Everything
    observable (submissions, chain calls, store calls, replies, log lines) is
    appended to one trace. *)

From Stdlib Require Import ZArith List Lia.
From Stdlib.Strings Require Import Byte.
From stdpp Require Import base option list gmap strings.

Local Open Scope Z_scope.

(** ** Machine integers and byte strings *)

Abbreviation Bytes := (list byte).
Abbreviation uint64 := Z (only parsing).
Abbreviation error := string (only parsing).

#[global] Instance byte_eq_dec : EqDecision byte := Byte.byte_eq_dec.
#[global] Instance byte_countable : Countable byte :=
  inj_countable Byte.to_N Byte.of_N Byte.of_to_N.

Definition u64_modulus : Z := 2 ^ 64.

(** Conversion [uint64(x)] of a signed [int]. *)
Definition to_uint64 (x : Z) : uint64 := x mod u64_modulus.

(** [a + b] on [uint64]. *)
Definition u64_add (a b : uint64) : uint64 := (a + b) mod u64_modulus.

(** ** Validators and the validator store *)

Inductive ValidatorStatus :=
| ValidatorStatus_CREATED
| ValidatorStatus_REGISTERED
| ValidatorStatus_ACTIVE.

(** Modelled from the spec: [proto.StoreValidator], declared outside
    [event_loop.go]; the attributes are those of the spec's data model
    (consensus-chain public key, Bitcoin public key, status, the two
    heights). *)
Record StoreValidator := mkStoreValidator {
  BabylonPk : Bytes;
  BtcPk : Bytes;
  Status : ValidatorStatus;
  LastVotedHeight : uint64;
  LastCommittedHeight : uint64
}.

Definition with_Status (s : ValidatorStatus) (v : StoreValidator) : StoreValidator :=
  mkStoreValidator (BabylonPk v) (BtcPk v) s (LastVotedHeight v) (LastCommittedHeight v).

Definition with_LastVotedHeight (h : uint64) (v : StoreValidator) : StoreValidator :=
  mkStoreValidator (BabylonPk v) (BtcPk v) (Status v) h (LastCommittedHeight v).

Definition with_LastCommittedHeight (h : uint64) (v : StoreValidator) : StoreValidator :=
  mkStoreValidator (BabylonPk v) (BtcPk v) (Status v) (LastVotedHeight v) h.

(** [proto.SchnorrRandPair], as the event loop builds it. *)
Record SchnorrRandPair := mkSchnorrRandPair {
  SecRand : Bytes;
  PubRand : Bytes
}.

(** Modelled from the spec: the validator store behind [app.vs].  Validator
    records are keyed by identity and randomness records by (identity,
    height).  [faults] is the disk: the outcome of each durable write still
    to come, [true] for a write that fails with a storage error; when it
    runs out every later write succeeds. *)
Record ValidatorStore := mkValidatorStore {
  validators : gmap Bytes StoreValidator;
  randPairs : gmap (Bytes * Z) SchnorrRandPair;
  faults : list bool
}.

Definition durably (f : ValidatorStore -> ValidatorStore) (s : ValidatorStore)
  : option error * ValidatorStore :=
  match faults s with
  | true :: fs => (Some "storage error"%string, mkValidatorStore (validators s) (randPairs s) fs)
  | false :: fs =>
      let s' := f s in (None, mkValidatorStore (validators s') (randPairs s') fs)
  | [] => (None, f s)
  end.

(** Modelled from the spec: [Get(identity) -> Validator | NotFound]. *)
Definition GetValidator (pk : Bytes) (s : ValidatorStore) : option StoreValidator :=
  validators s !! pk.

(** Modelled from the spec: [Save(Validator) -> ok | StorageError], keyed by
    the validator's identity. *)
Definition SaveValidator (val : StoreValidator) : ValidatorStore -> option error * ValidatorStore :=
  durably (fun s => mkValidatorStore (<[BabylonPk val := val]> (validators s)) (randPairs s) (faults s)).

(** Modelled from the spec: the status update persists the validator with
    its new status. *)
Definition SetValidatorStatus (val : StoreValidator) (st : ValidatorStatus)
  : ValidatorStore -> option error * ValidatorStore :=
  SaveValidator (with_Status st val).

(** Modelled from the spec: [SetValidatorLastVotedHeight] is defined outside
    [event_loop.go].  The spec has it set [LastVotedHeight] to the signed
    height if that is greater than the current value, and persist. *)
Definition SetValidatorLastVotedHeight (val : StoreValidator) (height : uint64)
  : ValidatorStore -> option error * ValidatorStore :=
  SaveValidator (if decide (LastVotedHeight val < height)
                 then with_LastVotedHeight height val else val).

(** Modelled from the spec: [SaveRandPair(identity, height, secret, public)
    -> ok | StorageError].  A record is written once: saving at a height
    that already has one leaves the stored record as it is. *)
Definition SaveRandPair (pk : Bytes) (height : uint64) (rp : SchnorrRandPair)
  : ValidatorStore -> option error * ValidatorStore :=
  durably (fun s =>
    match randPairs s !! (pk, height) with
    | Some _ => s
    | None => mkValidatorStore (validators s) (<[(pk, height) := rp]> (randPairs s)) (faults s)
    end).

(** The calls of the event loop that write the store. *)
Inductive StoreOp :=
| OpSaveValidator (val : StoreValidator)
| OpSetValidatorStatus (val : StoreValidator) (st : ValidatorStatus)
| OpSetValidatorLastVotedHeight (val : StoreValidator) (height : uint64)
| OpSaveRandPair (pk : Bytes) (height : uint64) (rp : SchnorrRandPair).

Definition runStoreOp (op : StoreOp) : ValidatorStore -> option error * ValidatorStore :=
  match op with
  | OpSaveValidator val => SaveValidator val
  | OpSetValidatorStatus val st => SetValidatorStatus val st
  | OpSetValidatorLastVotedHeight val h => SetValidatorLastVotedHeight val h
  | OpSaveRandPair pk h rp => SaveRandPair pk h rp
  end.

(** Every record sits under its own identity. *)
Definition store_wf (s : ValidatorStore) : Prop :=
  forall pk val, validators s !! pk = Some val -> BabylonPk val = pk.

(** ** Requests, completion events and replies

    Each request carries the two reply channels [errResponse] and
    [successResponse] its caller made for it.  The pair is one reply slot,
    named by a number; which of the two channels a reply goes to is the
    constructor of the [Response] written.  A completion event carries the
    slot of the request it completes as its [successResponse]. *)

Abbreviation Slot := nat (only parsing).

Record createValidatorRequest := mkCreateValidatorRequest {
  cvr_payload : Bytes;
  cvr_slot : Slot
}.

Record addFinalitySigRequest := mkAddFinalitySigRequest {
  afs_bbnPubKey : Bytes;
  afs_valBtcPk : Bytes;
  afs_blockHeight : uint64;
  afs_blockLastCommitHash : Bytes;
  afs_sig : Bytes;
  afs_slot : Slot
}.

Record registerValidatorRequest := mkRegisterValidatorRequest {
  rvr_bbnPubKey : Bytes;
  rvr_btcPubKey : Bytes;
  rvr_pop : Bytes;
  rvr_slot : Slot
}.

(** The secret and the public randomness are held by their serialisations
    ([pr.Bytes()] and [MustMarshal()] in the event loop). *)
Record commitPubRandRequest := mkCommitPubRandRequest {
  cpr_startingHeight : uint64;
  cpr_bbnPubKey : Bytes;
  cpr_valBtcPk : Bytes;
  cpr_privRandList : list Bytes;
  cpr_pubRandList : list Bytes;
  cpr_sig : Bytes;
  cpr_slot : Slot
}.

Record addJurySigRequest := mkAddJurySigRequest {
  ajs_bbnPubKey : Bytes;
  ajs_valBtcPk : Bytes;
  ajs_delBtcPk : Bytes;
  ajs_sig : Bytes;
  ajs_slot : Slot
}.

Inductive Request :=
| ReqCreateValidator (req : createValidatorRequest)
| ReqAddFinalitySig (req : addFinalitySigRequest)
| ReqRegisterValidator (req : registerValidatorRequest)
| ReqCommitPubRand (req : commitPubRandRequest)
| ReqAddJurySig (req : addJurySigRequest).

Definition requestSlot (r : Request) : Slot :=
  match r with
  | ReqCreateValidator req => cvr_slot req
  | ReqAddFinalitySig req => afs_slot req
  | ReqRegisterValidator req => rvr_slot req
  | ReqCommitPubRand req => cpr_slot req
  | ReqAddJurySig req => ajs_slot req
  end.

Record finalitySigAddedEvent := mkFinalitySigAddedEvent {
  fsa_bbnPubKey : Bytes;
  fsa_height : uint64;
  fsa_txHash : Bytes;
  fsa_successResponse : Slot
}.

Record validatorRegisteredEvent := mkValidatorRegisteredEvent {
  vre_bbnPubKey : Bytes;
  vre_txHash : Bytes;
  vre_successResponse : Slot
}.

Record pubRandCommittedEvent := mkPubRandCommittedEvent {
  prc_startingHeight : uint64;
  prc_bbnPubKey : Bytes;
  prc_valBtcPk : Bytes;
  prc_privRandList : list Bytes;
  prc_pubRandList : list Bytes;
  prc_txHash : Bytes;
  prc_successResponse : Slot
}.

Record jurySigAddedEvent := mkJurySigAddedEvent {
  jsa_bbnPubKey : Bytes;
  jsa_txHash : Bytes;
  jsa_successResponse : Slot
}.

Inductive Event :=
| EvFinalitySigAdded (ev : finalitySigAddedEvent)
| EvValidatorRegistered (ev : validatorRegisteredEvent)
| EvPubRandCommitted (ev : pubRandCommittedEvent)
| EvJurySigAdded (ev : jurySigAddedEvent).

Definition eventSlot (e : Event) : Slot :=
  match e with
  | EvFinalitySigAdded ev => fsa_successResponse ev
  | EvValidatorRegistered ev => vre_successResponse ev
  | EvPubRandCommitted ev => prc_successResponse ev
  | EvJurySigAdded ev => jsa_successResponse ev
  end.

(** What is written to a reply slot: an error on [errResponse], or the
    response of the request's kind on [successResponse]. *)
Inductive Response :=
| errResponse (err : error)
| createValidatorResponse (resp : Bytes)
| addFinalitySigResponse (txHash : Bytes)
| registerValidatorResponse (txHash : Bytes)
| commitPubRandResponse (txHash : Bytes)
| addJurySigResponse (txHash : Bytes).

(** ** The chain client [app.bc] *)

(** A chain call returns [(txHash, err)]. *)
Inductive TxResult :=
| TxOk (txHash : Bytes)
| TxErr (err : error).

Inductive ChainCall :=
| CallSubmitFinalitySig (valBtcPk : Bytes) (blockHeight : uint64)
    (blockLastCommitHash : Bytes) (sig : Bytes)
| CallRegisterValidator (bbnPubKey : Bytes) (btcPubKey : Bytes) (pop : Bytes)
| CallCommitPubRandList (valBtcPk : Bytes) (startingHeight : uint64)
    (pubRandList : list Bytes) (sig : Bytes)
| CallSubmitJurySig (valBtcPk : Bytes) (delBtcPk : Bytes) (sig : Bytes).

(** The client is external: its four methods are parameters, functions of
    the arguments and of the state [C] of the chain and the connection. *)
Record BabylonClient (C : Type) := mkBabylonClient {
  SubmitFinalitySig : Bytes -> uint64 -> Bytes -> Bytes -> C -> TxResult * C;
  RegisterValidator : Bytes -> Bytes -> Bytes -> C -> TxResult * C;
  CommitPubRandList : Bytes -> uint64 -> list Bytes -> Bytes -> C -> TxResult * C;
  SubmitJurySig : Bytes -> Bytes -> Bytes -> C -> TxResult * C
}.
Arguments SubmitFinalitySig {C} _ _ _ _ _ _.
Arguments RegisterValidator {C} _ _ _ _ _.
Arguments CommitPubRandList {C} _ _ _ _ _ _.
Arguments SubmitJurySig {C} _ _ _ _ _.

Definition performCall {C} (bc : BabylonClient C) (c : ChainCall) : C -> TxResult * C :=
  match c with
  | CallSubmitFinalitySig pk h hash sig => SubmitFinalitySig bc pk h hash sig
  | CallRegisterValidator bbn btc pop => RegisterValidator bc bbn btc pop
  | CallCommitPubRandList pk h prl sig => CommitPubRandList bc pk h prl sig
  | CallSubmitJurySig v d sig => SubmitJurySig bc v d sig
  end.

(** The chain call the submission loop makes for a request; the
    create-validator request goes to the event loop and makes none. *)
Definition callOf (r : Request) : option ChainCall :=
  match r with
  | ReqCreateValidator _ => None
  | ReqAddFinalitySig req =>
      Some (CallSubmitFinalitySig (afs_valBtcPk req) (afs_blockHeight req)
              (afs_blockLastCommitHash req) (afs_sig req))
  | ReqRegisterValidator req =>
      Some (CallRegisterValidator (rvr_bbnPubKey req) (rvr_btcPubKey req) (rvr_pop req))
  | ReqCommitPubRand req =>
      Some (CallCommitPubRandList (cpr_valBtcPk req) (cpr_startingHeight req)
              (cpr_pubRandList req) (cpr_sig req))
  | ReqAddJurySig req =>
      Some (CallSubmitJurySig (ajs_valBtcPk req) (ajs_delBtcPk req) (ajs_sig req))
  end.

(** ** The trace and the state of the process *)

Inductive Level := ErrorLevel | InfoLevel | FatalLevel.

Inductive Action :=
| Submitted (r : Request)
| Called (c : ChainCall) (res : TxResult)
| Stored (op : StoreOp) (ok : bool)
| Replied (slot : Slot) (resp : Response)
| Logged (lvl : Level) (msg : string).

(** [logrus]'s [Fatal] logs and exits the process; indexing a slice out of
    range panics, which ends the process too.  Both remember the event the
    event loop was handling. *)
Inductive ProcStatus :=
| Running
| Fatal (msg : string) (during : Event)
| Panic (msg : string) (during : Event).

(** The [ValidatorApp]: its channels, the store, the state behind the chain
    client, the trace so far, and whether the process and its two loops
    still run.  [quit] is the closed-or-not state of [app.quit]. *)
Record App (C : Type) := mkApp {
  createValidatorRequestChan : list createValidatorRequest;
  addFinalitySigRequestChan : list addFinalitySigRequest;
  registerValidatorRequestChan : list registerValidatorRequest;
  commitPubRandRequestChan : list commitPubRandRequest;
  addJurySigRequestChan : list addJurySigRequest;
  finalitySigAddedEventChan : list finalitySigAddedEvent;
  validatorRegisteredEventChan : list validatorRegisteredEvent;
  pubRandCommittedEventChan : list pubRandCommittedEvent;
  jurySigAddedEventChan : list jurySigAddedEvent;
  quit : bool;
  vs : ValidatorStore;
  bcState : C;
  trace : list Action;
  status : ProcStatus;
  sendLoopDone : bool;
  eventLoopDone : bool
}.
Arguments createValidatorRequestChan {C} _.
Arguments addFinalitySigRequestChan {C} _.
Arguments registerValidatorRequestChan {C} _.
Arguments commitPubRandRequestChan {C} _.
Arguments addJurySigRequestChan {C} _.
Arguments finalitySigAddedEventChan {C} _.
Arguments validatorRegisteredEventChan {C} _.
Arguments pubRandCommittedEventChan {C} _.
Arguments jurySigAddedEventChan {C} _.
Arguments quit {C} _.
Arguments vs {C} _.
Arguments bcState {C} _.
Arguments trace {C} _.
Arguments status {C} _.
Arguments sendLoopDone {C} _.
Arguments eventLoopDone {C} _.
Arguments mkApp {C} _ _ _ _ _ _ _ _ _ _ _ _ _ _ _ _.

Section Setters.
  Context {C : Type}.

Definition set_createValidatorRequestChan (x : list createValidatorRequest) (a : App C) : App C :=
  mkApp x (addFinalitySigRequestChan a) (registerValidatorRequestChan a)
    (commitPubRandRequestChan a) (addJurySigRequestChan a) (finalitySigAddedEventChan a)
    (validatorRegisteredEventChan a) (pubRandCommittedEventChan a)
    (jurySigAddedEventChan a) (quit a) (vs a) (bcState a) (trace a) (status a)
    (sendLoopDone a) (eventLoopDone a).

Definition set_addFinalitySigRequestChan (x : list addFinalitySigRequest) (a : App C) : App C :=
  mkApp (createValidatorRequestChan a) x (registerValidatorRequestChan a)
    (commitPubRandRequestChan a) (addJurySigRequestChan a) (finalitySigAddedEventChan a)
    (validatorRegisteredEventChan a) (pubRandCommittedEventChan a)
    (jurySigAddedEventChan a) (quit a) (vs a) (bcState a) (trace a) (status a)
    (sendLoopDone a) (eventLoopDone a).

Definition set_registerValidatorRequestChan (x : list registerValidatorRequest) (a : App C) : App C :=
  mkApp (createValidatorRequestChan a) (addFinalitySigRequestChan a) x
    (commitPubRandRequestChan a) (addJurySigRequestChan a) (finalitySigAddedEventChan a)
    (validatorRegisteredEventChan a) (pubRandCommittedEventChan a)
    (jurySigAddedEventChan a) (quit a) (vs a) (bcState a) (trace a) (status a)
    (sendLoopDone a) (eventLoopDone a).

Definition set_commitPubRandRequestChan (x : list commitPubRandRequest) (a : App C) : App C :=
  mkApp (createValidatorRequestChan a) (addFinalitySigRequestChan a)
    (registerValidatorRequestChan a) x (addJurySigRequestChan a)
    (finalitySigAddedEventChan a) (validatorRegisteredEventChan a)
    (pubRandCommittedEventChan a) (jurySigAddedEventChan a) (quit a) (vs a) (bcState a)
    (trace a) (status a) (sendLoopDone a) (eventLoopDone a).

Definition set_addJurySigRequestChan (x : list addJurySigRequest) (a : App C) : App C :=
  mkApp (createValidatorRequestChan a) (addFinalitySigRequestChan a)
    (registerValidatorRequestChan a) (commitPubRandRequestChan a) x
    (finalitySigAddedEventChan a) (validatorRegisteredEventChan a)
    (pubRandCommittedEventChan a) (jurySigAddedEventChan a) (quit a) (vs a) (bcState a)
    (trace a) (status a) (sendLoopDone a) (eventLoopDone a).

Definition set_finalitySigAddedEventChan (x : list finalitySigAddedEvent) (a : App C) : App C :=
  mkApp (createValidatorRequestChan a) (addFinalitySigRequestChan a)
    (registerValidatorRequestChan a) (commitPubRandRequestChan a)
    (addJurySigRequestChan a) x (validatorRegisteredEventChan a)
    (pubRandCommittedEventChan a) (jurySigAddedEventChan a) (quit a) (vs a) (bcState a)
    (trace a) (status a) (sendLoopDone a) (eventLoopDone a).

Definition set_validatorRegisteredEventChan (x : list validatorRegisteredEvent) (a : App C) : App C :=
  mkApp (createValidatorRequestChan a) (addFinalitySigRequestChan a)
    (registerValidatorRequestChan a) (commitPubRandRequestChan a)
    (addJurySigRequestChan a) (finalitySigAddedEventChan a) x
    (pubRandCommittedEventChan a) (jurySigAddedEventChan a) (quit a) (vs a) (bcState a)
    (trace a) (status a) (sendLoopDone a) (eventLoopDone a).

Definition set_pubRandCommittedEventChan (x : list pubRandCommittedEvent) (a : App C) : App C :=
  mkApp (createValidatorRequestChan a) (addFinalitySigRequestChan a)
    (registerValidatorRequestChan a) (commitPubRandRequestChan a)
    (addJurySigRequestChan a) (finalitySigAddedEventChan a)
    (validatorRegisteredEventChan a) x (jurySigAddedEventChan a) (quit a) (vs a)
    (bcState a) (trace a) (status a) (sendLoopDone a) (eventLoopDone a).

Definition set_jurySigAddedEventChan (x : list jurySigAddedEvent) (a : App C) : App C :=
  mkApp (createValidatorRequestChan a) (addFinalitySigRequestChan a)
    (registerValidatorRequestChan a) (commitPubRandRequestChan a)
    (addJurySigRequestChan a) (finalitySigAddedEventChan a)
    (validatorRegisteredEventChan a) (pubRandCommittedEventChan a) x (quit a) (vs a)
    (bcState a) (trace a) (status a) (sendLoopDone a) (eventLoopDone a).

Definition set_quit (x : bool) (a : App C) : App C :=
  mkApp (createValidatorRequestChan a) (addFinalitySigRequestChan a)
    (registerValidatorRequestChan a) (commitPubRandRequestChan a)
    (addJurySigRequestChan a) (finalitySigAddedEventChan a)
    (validatorRegisteredEventChan a) (pubRandCommittedEventChan a)
    (jurySigAddedEventChan a) x (vs a) (bcState a) (trace a) (status a) (sendLoopDone a)
    (eventLoopDone a).

Definition set_vs (x : ValidatorStore) (a : App C) : App C :=
  mkApp (createValidatorRequestChan a) (addFinalitySigRequestChan a)
    (registerValidatorRequestChan a) (commitPubRandRequestChan a)
    (addJurySigRequestChan a) (finalitySigAddedEventChan a)
    (validatorRegisteredEventChan a) (pubRandCommittedEventChan a)
    (jurySigAddedEventChan a) (quit a) x (bcState a) (trace a) (status a)
    (sendLoopDone a) (eventLoopDone a).

Definition set_bcState (x : C) (a : App C) : App C :=
  mkApp (createValidatorRequestChan a) (addFinalitySigRequestChan a)
    (registerValidatorRequestChan a) (commitPubRandRequestChan a)
    (addJurySigRequestChan a) (finalitySigAddedEventChan a)
    (validatorRegisteredEventChan a) (pubRandCommittedEventChan a)
    (jurySigAddedEventChan a) (quit a) (vs a) x (trace a) (status a) (sendLoopDone a)
    (eventLoopDone a).

Definition set_trace (x : list Action) (a : App C) : App C :=
  mkApp (createValidatorRequestChan a) (addFinalitySigRequestChan a)
    (registerValidatorRequestChan a) (commitPubRandRequestChan a)
    (addJurySigRequestChan a) (finalitySigAddedEventChan a)
    (validatorRegisteredEventChan a) (pubRandCommittedEventChan a)
    (jurySigAddedEventChan a) (quit a) (vs a) (bcState a) x (status a) (sendLoopDone a)
    (eventLoopDone a).

Definition set_status (x : ProcStatus) (a : App C) : App C :=
  mkApp (createValidatorRequestChan a) (addFinalitySigRequestChan a)
    (registerValidatorRequestChan a) (commitPubRandRequestChan a)
    (addJurySigRequestChan a) (finalitySigAddedEventChan a)
    (validatorRegisteredEventChan a) (pubRandCommittedEventChan a)
    (jurySigAddedEventChan a) (quit a) (vs a) (bcState a) (trace a) x (sendLoopDone a)
    (eventLoopDone a).

Definition set_sendLoopDone (x : bool) (a : App C) : App C :=
  mkApp (createValidatorRequestChan a) (addFinalitySigRequestChan a)
    (registerValidatorRequestChan a) (commitPubRandRequestChan a)
    (addJurySigRequestChan a) (finalitySigAddedEventChan a)
    (validatorRegisteredEventChan a) (pubRandCommittedEventChan a)
    (jurySigAddedEventChan a) (quit a) (vs a) (bcState a) (trace a) (status a) x
    (eventLoopDone a).

Definition set_eventLoopDone (x : bool) (a : App C) : App C :=
  mkApp (createValidatorRequestChan a) (addFinalitySigRequestChan a)
    (registerValidatorRequestChan a) (commitPubRandRequestChan a)
    (addJurySigRequestChan a) (finalitySigAddedEventChan a)
    (validatorRegisteredEventChan a) (pubRandCommittedEventChan a)
    (jurySigAddedEventChan a) (quit a) (vs a) (bcState a) (trace a) (status a)
    (sendLoopDone a) x.

End Setters.

(** ** Effects of a loop body

    A loop body runs on the [App] and either goes on with a value or ends
    the process ([None]); the [status] left behind says how. *)

Definition Eff (C A : Type) : Type := App C -> option A * App C.

#[global] Instance eff_ret {C} : MRet (Eff C) :=
  fun A (x : A) app => (Some x, app).

#[global] Instance eff_bind {C} : MBind (Eff C) :=
  fun A B (k : A -> Eff C B) (m : Eff C A) app =>
    match m app with
    | (Some x, app') => k x app'
    | (None, app') => (None, app')
    end.

Section Effects.
  Context {C : Type}.

Definition record (a : Action) : Eff C unit :=
  fun app => (Some tt, set_trace (trace app ++ [a]) app).

(** [app.logger ... .Error(msg)] and [.Info(msg)]. *)
Definition logError (msg : string) : Eff C unit := record (Logged ErrorLevel msg).
Definition logInfo (msg : string) : Eff C unit := record (Logged InfoLevel msg).

(** [app.logger ... .Fatal(msg)]: the line is logged and the process exits. *)
Definition logFatal {A} (during : Event) (msg : string) : Eff C A :=
  fun app =>
    (None, set_status (Fatal msg during) (set_trace (trace app ++ [Logged FatalLevel msg]) app)).

(** A run-time panic. *)
Definition panic {A} (during : Event) (msg : string) : Eff C A :=
  fun app => (None, set_status (Panic msg during) app).

(** A send on one of the two reply channels of a slot. *)
Definition reply (slot : Slot) (resp : Response) : Eff C unit :=
  record (Replied slot resp).

(** [app.vs.GetValidator(pk)]. *)
Definition vsGet (pk : Bytes) : Eff C (option StoreValidator) :=
  fun app => (Some (GetValidator pk (vs app)), app).

(** A writing call on [app.vs]; the result is the [err] it returns. *)
Definition vsCall (op : StoreOp) : Eff C (option error) :=
  fun app =>
    let '(err, s') := runStoreOp op (vs app) in
    (Some err, set_trace (trace app ++ [Stored op (bool_decide (err = None))]) (set_vs s' app)).

End Effects.

Local Open Scope string_scope.
Local Open Scope list_scope.

(** ** [eventLoop] *)

Section EventLoop.
  Context {C : Type}.

  (** [handleCreateValidatorRequest] is defined outside [event_loop.go]: it
      is a parameter, a function of the request and the store. *)
  Variable handleCreateValidatorRequest :
    createValidatorRequest -> ValidatorStore -> (Bytes + error) * ValidatorStore.

(** [case req := <-app.createValidatorRequestChan] *)
Definition onCreateValidatorRequest (req : createValidatorRequest) : Eff C unit :=
  fun app =>
    let '(res, s') := handleCreateValidatorRequest req (vs app) in
    match res with
    | inr err => reply (cvr_slot req) (errResponse err) (set_vs s' app)
    | inl resp => reply (cvr_slot req) (createValidatorResponse resp) (set_vs s' app)
    end.

(** [case ev := <-app.finalitySigAddedEventChan] *)
Definition onFinalitySigAdded (ev : finalitySigAddedEvent) : Eff C unit :=
  r ← vsGet (fsa_bbnPubKey ev);
  match r with
  | None => logFatal (EvFinalitySigAdded ev) "finality signature added validator not found in DB"
  | Some val =>
      err ← vsCall (OpSetValidatorLastVotedHeight val (fsa_height ev));
      match err with
      | Some _ =>
          logFatal (EvFinalitySigAdded ev)
            "err while updating the validator last voted height to DB"
      | None => reply (fsa_successResponse ev) (addFinalitySigResponse (fsa_txHash ev))
      end
  end.

(** [case ev := <-app.validatorRegisteredEventChan] *)
Definition onValidatorRegistered (ev : validatorRegisteredEvent) : Eff C unit :=
  r ← vsGet (vre_bbnPubKey ev);
  match r with
  | None => logFatal (EvValidatorRegistered ev) "Registred validator not found in DB"
  | Some val =>
      err ← vsCall (OpSetValidatorStatus val ValidatorStatus_REGISTERED);
      match err with
      | Some _ => logFatal (EvValidatorRegistered ev) "err while saving validator to DB"
      | None => reply (vre_successResponse ev) (registerValidatorResponse (vre_txHash ev))
      end
  end.

(** [for i, pr := range ev.privRandList], from index [i] on. *)
Fixpoint saveRandPairs (ev : pubRandCommittedEvent) (i : nat) (privs : list Bytes)
  : Eff C unit :=
  match privs with
  | [] => mret tt
  | pr :: rest =>
      let height := u64_add (prc_startingHeight ev) (to_uint64 (Z.of_nat i)) in
      match prc_pubRandList ev !! i with
      | None => panic (EvPubRandCommitted ev) "index out of range"
      | Some pub =>
          err ← vsCall (OpSaveRandPair (prc_bbnPubKey ev) height (mkSchnorrRandPair pr pub));
          match err with
          | Some _ =>
              logFatal (EvPubRandCommitted ev) "err while saving committed random pair to DB"
          | None => saveRandPairs ev (S i) rest
          end
      end
  end.

(** [ev.startingHeight + uint64(len(ev.pubRandList)-1)] *)
Definition committedHeight (ev : pubRandCommittedEvent) : uint64 :=
  u64_add (prc_startingHeight ev) (to_uint64 (Z.of_nat (length (prc_pubRandList ev)) - 1)).

(** [case ev := <-app.pubRandCommittedEventChan] *)
Definition onPubRandCommitted (ev : pubRandCommittedEvent) : Eff C unit :=
  r ← vsGet (prc_bbnPubKey ev);
  match r with
  | None =>
      logFatal (EvPubRandCommitted ev) "Public randomness committed validator not found in DB"
  | Some val =>
      let val := with_LastCommittedHeight (committedHeight ev) val in
      err ← vsCall (OpSaveValidator val);
      match err with
      | Some _ => logFatal (EvPubRandCommitted ev) "err while saving validator to DB"
      | None =>
          saveRandPairs ev 0 (prc_privRandList ev) ;;
          reply (prc_successResponse ev) (commitPubRandResponse (prc_txHash ev))
      end
  end.

(** [case ev := <-app.jurySigAddedEventChan] *)
Definition onJurySigAdded (ev : jurySigAddedEvent) : Eff C unit :=
  reply (jsa_successResponse ev) (addJurySigResponse (jsa_txHash ev)).

(** The handler of a completion event. *)
Definition onEvent (e : Event) : Eff C unit :=
  match e with
  | EvFinalitySigAdded ev => onFinalitySigAdded ev
  | EvValidatorRegistered ev => onValidatorRegistered ev
  | EvPubRandCommitted ev => onPubRandCommitted ev
  | EvJurySigAdded ev => onJurySigAdded ev
  end.

(** The cases of the [select] of [eventLoop]. *)
Inductive EventLoopCase :=
| CaseCreateValidatorRequest
| CaseFinalitySigAdded
| CaseValidatorRegistered
| CasePubRandCommitted
| CaseJurySigAdded
| CaseEventLoopQuit.

(** One iteration of [eventLoop] in which case [c] fires; [None] when the
    case is not ready, or the loop or the process is gone. *)
Definition eventLoopStep (c : EventLoopCase) (app : App C) : option (App C) :=
  match status app, eventLoopDone app with
  | Running, false =>
      match c with
      | CaseCreateValidatorRequest =>
          match createValidatorRequestChan app with
          | [] => None
          | req :: rest =>
              Some (snd (onCreateValidatorRequest req (set_createValidatorRequestChan rest app)))
          end
      | CaseFinalitySigAdded =>
          match finalitySigAddedEventChan app with
          | [] => None
          | ev :: rest =>
              Some (snd (onFinalitySigAdded ev (set_finalitySigAddedEventChan rest app)))
          end
      | CaseValidatorRegistered =>
          match validatorRegisteredEventChan app with
          | [] => None
          | ev :: rest =>
              Some (snd (onValidatorRegistered ev (set_validatorRegisteredEventChan rest app)))
          end
      | CasePubRandCommitted =>
          match pubRandCommittedEventChan app with
          | [] => None
          | ev :: rest =>
              Some (snd (onPubRandCommitted ev (set_pubRandCommittedEventChan rest app)))
          end
      | CaseJurySigAdded =>
          match jurySigAddedEventChan app with
          | [] => None
          | ev :: rest =>
              Some (snd (onJurySigAdded ev (set_jurySigAddedEventChan rest app)))
          end
      | CaseEventLoopQuit =>
          if quit app then Some (set_eventLoopDone true app) else None
      end
  | _, _ => None
  end.

(** [eventLoop]: its iterations, one for each case that fires, in turn. *)
Fixpoint eventLoop (cases : list EventLoopCase) (app : App C) : option (App C) :=
  match cases with
  | [] => Some app
  | c :: rest =>
      match eventLoopStep c app with
      | Some app' => eventLoop rest app'
      | None => None
      end
  end.

End EventLoop.

(** ** [handleSentToBabylonLoop] *)

Section SendLoop.
  Context {C : Type}.
  Variable bc : BabylonClient C.

(** A call on [app.bc]. *)
Definition call (c : ChainCall) : Eff C TxResult :=
  fun app =>
    let '(res, st') := performCall bc c (bcState app) in
    (Some res, set_trace (trace app ++ [Called c res]) (set_bcState st' app)).

(** The sends of the completion events to the event loop. *)
Definition sendFinalitySigAdded (ev : finalitySigAddedEvent) : Eff C unit :=
  fun app =>
    (Some tt, set_finalitySigAddedEventChan (finalitySigAddedEventChan app ++ [ev]) app).

Definition sendValidatorRegistered (ev : validatorRegisteredEvent) : Eff C unit :=
  fun app =>
    (Some tt, set_validatorRegisteredEventChan (validatorRegisteredEventChan app ++ [ev]) app).

Definition sendPubRandCommitted (ev : pubRandCommittedEvent) : Eff C unit :=
  fun app =>
    (Some tt, set_pubRandCommittedEventChan (pubRandCommittedEventChan app ++ [ev]) app).

Definition sendJurySigAdded (ev : jurySigAddedEvent) : Eff C unit :=
  fun app =>
    (Some tt, set_jurySigAddedEventChan (jurySigAddedEventChan app ++ [ev]) app).

(** [case req := <-app.addFinalitySigRequestChan] *)
Definition onAddFinalitySigRequest (req : addFinalitySigRequest) : Eff C unit :=
  res ← call (CallSubmitFinalitySig (afs_valBtcPk req) (afs_blockHeight req)
                (afs_blockLastCommitHash req) (afs_sig req));
  match res with
  | TxErr err =>
      logError "failed to submit finality signature" ;;
      reply (afs_slot req) (errResponse err)
  | TxOk txHash =>
      logInfo "successfully submitted a finality signature to babylon" ;;
      sendFinalitySigAdded
        (mkFinalitySigAddedEvent (afs_bbnPubKey req) (afs_blockHeight req) txHash
           (afs_slot req))
  end.

(** [case req := <-app.registerValidatorRequestChan] *)
Definition onRegisterValidatorRequest (req : registerValidatorRequest) : Eff C unit :=
  res ← call (CallRegisterValidator (rvr_bbnPubKey req) (rvr_btcPubKey req) (rvr_pop req));
  match res with
  | TxErr err =>
      logError "failed to register validator" ;;
      reply (rvr_slot req) (errResponse err)
  | TxOk txHash =>
      logInfo "successfully registered validator on babylon" ;;
      sendValidatorRegistered
        (mkValidatorRegisteredEvent (rvr_bbnPubKey req) txHash (rvr_slot req))
  end.

(** [case req := <-app.commitPubRandRequestChan] *)
Definition onCommitPubRandRequest (req : commitPubRandRequest) : Eff C unit :=
  res ← call (CallCommitPubRandList (cpr_valBtcPk req) (cpr_startingHeight req)
                (cpr_pubRandList req) (cpr_sig req));
  match res with
  | TxErr err =>
      logError "failed to commit public randomness" ;;
      reply (cpr_slot req) (errResponse err)
  | TxOk txHash =>
      logInfo "successfully committed public rand list on babylon" ;;
      sendPubRandCommitted
        (mkPubRandCommittedEvent (cpr_startingHeight req) (cpr_bbnPubKey req)
           (cpr_valBtcPk req) (cpr_privRandList req) (cpr_pubRandList req) txHash
           (cpr_slot req))
  end.

(** [case req := <-app.addJurySigRequestChan] *)
Definition onAddJurySigRequest (req : addJurySigRequest) : Eff C unit :=
  res ← call (CallSubmitJurySig (ajs_valBtcPk req) (ajs_delBtcPk req) (ajs_sig req));
  match res with
  | TxErr err =>
      logError "failed to submit Jury signature" ;;
      reply (ajs_slot req) (errResponse err)
  | TxOk txHash =>
      logInfo "successfully submit Jury sig over Bitcoin delegation to Babylon" ;;
      sendJurySigAdded (mkJurySigAddedEvent (ajs_bbnPubKey req) txHash (ajs_slot req))
  end.

(** The cases of the [select] of [handleSentToBabylonLoop]. *)
Inductive SendCase :=
| CaseAddFinalitySigRequest
| CaseRegisterValidatorRequest
| CaseCommitPubRandRequest
| CaseAddJurySigRequest
| CaseSendLoopQuit.

(** One iteration of [handleSentToBabylonLoop] in which case [c] fires. *)
Definition handleSentToBabylonStep (c : SendCase) (app : App C) : option (App C) :=
  match status app, sendLoopDone app with
  | Running, false =>
      match c with
      | CaseAddFinalitySigRequest =>
          match addFinalitySigRequestChan app with
          | [] => None
          | req :: rest =>
              Some (snd (onAddFinalitySigRequest req (set_addFinalitySigRequestChan rest app)))
          end
      | CaseRegisterValidatorRequest =>
          match registerValidatorRequestChan app with
          | [] => None
          | req :: rest =>
              Some (snd (onRegisterValidatorRequest req
                           (set_registerValidatorRequestChan rest app)))
          end
      | CaseCommitPubRandRequest =>
          match commitPubRandRequestChan app with
          | [] => None
          | req :: rest =>
              Some (snd (onCommitPubRandRequest req (set_commitPubRandRequestChan rest app)))
          end
      | CaseAddJurySigRequest =>
          match addJurySigRequestChan app with
          | [] => None
          | req :: rest =>
              Some (snd (onAddJurySigRequest req (set_addJurySigRequestChan rest app)))
          end
      | CaseSendLoopQuit =>
          if quit app then Some (set_sendLoopDone true app) else None
      end
  | _, _ => None
  end.

(** [handleSentToBabylonLoop]: its iterations, one for each case that fires,
    in turn. *)
Fixpoint handleSentToBabylonLoop (cases : list SendCase) (app : App C) : option (App C) :=
  match cases with
  | [] => Some app
  | c :: rest =>
      match handleSentToBabylonStep c app with
      | Some app' => handleSentToBabylonLoop rest app'
      | None => None
      end
  end.

(** The request at the head of the channel of a case. *)
Definition nextRequest (c : SendCase) (app : App C) : option Request :=
  match c with
  | CaseAddFinalitySigRequest => ReqAddFinalitySig <$> head (addFinalitySigRequestChan app)
  | CaseRegisterValidatorRequest =>
      ReqRegisterValidator <$> head (registerValidatorRequestChan app)
  | CaseCommitPubRandRequest => ReqCommitPubRand <$> head (commitPubRandRequestChan app)
  | CaseAddJurySigRequest => ReqAddJurySig <$> head (addJurySigRequestChan app)
  | CaseSendLoopQuit => None
  end.

End SendLoop.

(** ** The process: callers, the two loops, shutdown *)

Section Process.
  Context {C : Type}.
  Variable bc : BabylonClient C.
  Variable handleCreateValidatorRequest :
    createValidatorRequest -> ValidatorStore -> (Bytes + error) * ValidatorStore.

(** The app as it starts: nothing sent on any channel yet. *)
Definition initApp (s : ValidatorStore) (c : C) : App C :=
  mkApp [] [] [] [] [] [] [] [] [] false s c [] Running false false.

(** A caller sends a request on the channel of its kind. *)
Definition enqueue (r : Request) (app : App C) : App C :=
  match r with
  | ReqCreateValidator req =>
      set_createValidatorRequestChan (createValidatorRequestChan app ++ [req]) app
  | ReqAddFinalitySig req =>
      set_addFinalitySigRequestChan (addFinalitySigRequestChan app ++ [req]) app
  | ReqRegisterValidator req =>
      set_registerValidatorRequestChan (registerValidatorRequestChan app ++ [req]) app
  | ReqCommitPubRand req =>
      set_commitPubRandRequestChan (commitPubRandRequestChan app ++ [req]) app
  | ReqAddJurySig req =>
      set_addJurySigRequestChan (addJurySigRequestChan app ++ [req]) app
  end.

Inductive SysStep :=
| Submit (r : Request)
| CloseQuit
| SendLoop (c : SendCase)
| EventLoop (c : EventLoopCase).

Definition sysStep (s : SysStep) (app : App C) : option (App C) :=
  match s with
  | Submit r =>
      match status app with
      | Running => Some (set_trace (trace app ++ [Submitted r]) (enqueue r app))
      | _ => None
      end
  | CloseQuit =>
      match status app with
      | Running => Some (set_quit true app)
      | _ => None
      end
  | SendLoop c => handleSentToBabylonStep bc c app
  | EventLoop c => eventLoopStep handleCreateValidatorRequest c app
  end.

(** A schedule is run step by step; it is feasible when every step of it
    is ready at its turn. *)
Fixpoint run (sched : list SysStep) (app : App C) : option (App C) :=
  match sched with
  | [] => Some app
  | s :: rest =>
      match sysStep s app with
      | Some app' => run rest app'
      | None => None
      end
  end.

End Process.

(** ** Reading the trace *)

Definition chainCalls (t : list Action) : list ChainCall :=
  omap (fun a => match a with Called c _ => Some c | _ => None end) t.

Definition submittedRequests (t : list Action) : list Request :=
  omap (fun a => match a with Submitted r => Some r | _ => None end) t.

Definition submittedCalls (t : list Action) : list ChainCall :=
  omap callOf (submittedRequests t).

Definition repliedSlots (t : list Action) : list Slot :=
  omap (fun a => match a with Replied slot _ => Some slot | _ => None end) t.

Definition repliesTo (slot : Slot) (t : list Action) : list Response :=
  omap (fun a => match a with
                 | Replied slot' resp => if decide (slot' = slot) then Some resp else None
                 | _ => None
                 end) t.

Definition storeCalls (t : list Action) : list (StoreOp * bool) :=
  omap (fun a => match a with Stored op ok => Some (op, ok) | _ => None end) t.

(** What [app'] added to the trace of [app]. *)
Definition emitted {C} (app app' : App C) : list Action :=
  drop (length (trace app)) (trace app').

(** ** [jurySigSubmissionLoop] *)

(** A pending Bitcoin delegation; the loop reads its [BtcPk] for the log. *)
Record Delegation := mkDelegation {
  del_BtcPk : Bytes;
  del_payload : Bytes
}.

Inductive JuryAction :=
| Fetched (res : list Delegation + error)
| Attempted (d : Delegation) (res : Bytes + error)
| JuryLogged (lvl : Level) (msg : string) (del_btc_pk : option Bytes).

(** The reactor: the rest of the app as it sees it, [E], what it did so
    far, and whether it returned. *)
Record Reactor (E : Type) := mkReactor {
  env : E;
  jtrace : list JuryAction;
  reactorDone : bool
}.
Arguments env {E} _.
Arguments jtrace {E} _.
Arguments reactorDone {E} _.
Arguments mkReactor {E} _ _ _.

Section JuryLoop.
  Context {E : Type}.

  (** [getPendingDelegationsForAll] and [AddJurySignature] are defined
      outside [event_loop.go]: they are parameters, functions of the state
      of the rest of the app. *)
  Variable getPendingDelegationsForAll : E -> (list Delegation + error) * E.
  Variable AddJurySignature : Delegation -> E -> (Bytes + error) * E.

(** [for _, d := range dels] *)
Fixpoint addJurySignatures (dels : list Delegation) (r : Reactor E) : Reactor E :=
  match dels with
  | [] => r
  | d :: rest =>
      let '(res, e') := AddJurySignature d (env r) in
      let t := jtrace r ++ [Attempted d res] in
      let t' :=
        match res with
        | inr err =>
            t ++ [JuryLogged ErrorLevel "failed to submit Jury sig to the Bitcoin delegation"
                    (Some (del_BtcPk d))]
        | inl _ => t
        end in
      addJurySignatures rest (mkReactor e' t' (reactorDone r))
  end.

(** [case <-jurySigTicker.C] *)
Definition onJurySigTick (r : Reactor E) : Reactor E :=
  let '(res, e') := getPendingDelegationsForAll (env r) in
  let r' := mkReactor e' (jtrace r ++ [Fetched res]) (reactorDone r) in
  match res with
  | inr err =>
      mkReactor e'
        (jtrace r' ++ [JuryLogged ErrorLevel "failed to get pending delegations" None])
        (reactorDone r)
  | inl dels => addJurySignatures dels r'
  end.

Inductive JuryCase := CaseJurySigTick | CaseJuryQuit.

(** One iteration of [jurySigSubmissionLoop]; the quit case is ready once
    [app.quit] is closed. *)
Definition jurySigSubmissionStep (quitClosed : bool) (c : JuryCase) (r : Reactor E)
  : option (Reactor E) :=
  if reactorDone r then None
  else match c with
       | CaseJurySigTick => Some (onJurySigTick r)
       | CaseJuryQuit => if quitClosed then Some (mkReactor (env r) (jtrace r) true) else None
       end.

(** [jurySigSubmissionLoop]: its iterations, one for each case that fires,
    in turn. *)
Fixpoint jurySigSubmissionLoop (quitClosed : bool) (cases : list JuryCase) (r : Reactor E)
  : option (Reactor E) :=
  match cases with
  | [] => Some r
  | c :: rest =>
      match jurySigSubmissionStep quitClosed c r with
      | Some r' => jurySigSubmissionLoop quitClosed rest r'
      | None => None
      end
  end.

End JuryLoop.

(** The delegations the reactor tried to sign, and the delegations whose
    failure it logged. *)
Definition attempted (t : list JuryAction) : list Delegation :=
  omap (fun a => match a with Attempted d _ => Some d | _ => None end) t.

Definition failedAttempts (t : list JuryAction) : list Bytes :=
  omap (fun a => match a with
                 | Attempted d (inr _) => Some (del_BtcPk d)
                 | _ => None
                 end) t.

Definition loggedFailures (t : list JuryAction) : list Bytes :=
  omap (fun a => match a with JuryLogged ErrorLevel _ (Some pk) => Some pk | _ => None end) t.

(** ** Reading the state *)

(** The channels, the flags and the chain state: what a completion handler
    leaves alone. *)
Definition wiring {C} (app : App C) :=
  (createValidatorRequestChan app, addFinalitySigRequestChan app,
   registerValidatorRequestChan app, commitPubRandRequestChan app,
   addJurySigRequestChan app, finalitySigAddedEventChan app,
   validatorRegisteredEventChan app, pubRandCommittedEventChan app,
   jurySigAddedEventChan app, quit app, bcState app, sendLoopDone app, eventLoopDone app).

(** The four channels of completion events. *)
Definition eventChans {C} (app : App C) :=
  (finalitySigAddedEventChan app, validatorRegisteredEventChan app,
   pubRandCommittedEventChan app, jurySigAddedEventChan app).

(** The completion event at the head of the channel of a case. *)
Definition nextEvent {C} (c : EventLoopCase) (app : App C) : option Event :=
  match c with
  | CaseFinalitySigAdded => EvFinalitySigAdded <$> head (finalitySigAddedEventChan app)
  | CaseValidatorRegistered => EvValidatorRegistered <$> head (validatorRegisteredEventChan app)
  | CasePubRandCommitted => EvPubRandCommitted <$> head (pubRandCommittedEventChan app)
  | CaseJurySigAdded => EvJurySigAdded <$> head (jurySigAddedEventChan app)
  | CaseCreateValidatorRequest | CaseEventLoopQuit => None
  end.

(** The identity a completion event names. *)
Definition eventKey (e : Event) : Bytes :=
  match e with
  | EvFinalitySigAdded ev => fsa_bbnPubKey ev
  | EvValidatorRegistered ev => vre_bbnPubKey ev
  | EvPubRandCommitted ev => prc_bbnPubKey ev
  | EvJurySigAdded ev => jsa_bbnPubKey ev
  end.

(** The receive of a case of the submission loop. *)
Definition dequeue {C} (c : SendCase) (app : App C) : App C :=
  match c with
  | CaseAddFinalitySigRequest =>
      set_addFinalitySigRequestChan (tail (addFinalitySigRequestChan app)) app
  | CaseRegisterValidatorRequest =>
      set_registerValidatorRequestChan (tail (registerValidatorRequestChan app)) app
  | CaseCommitPubRandRequest =>
      set_commitPubRandRequestChan (tail (commitPubRandRequestChan app)) app
  | CaseAddJurySigRequest =>
      set_addJurySigRequestChan (tail (addJurySigRequestChan app)) app
  | CaseSendLoopQuit => app
  end.

(** The receive of a case of the event loop. *)
Definition receive {C} (c : EventLoopCase) (app : App C) : App C :=
  match c with
  | CaseCreateValidatorRequest =>
      set_createValidatorRequestChan (tail (createValidatorRequestChan app)) app
  | CaseFinalitySigAdded =>
      set_finalitySigAddedEventChan (tail (finalitySigAddedEventChan app)) app
  | CaseValidatorRegistered =>
      set_validatorRegisteredEventChan (tail (validatorRegisteredEventChan app)) app
  | CasePubRandCommitted =>
      set_pubRandCommittedEventChan (tail (pubRandCommittedEventChan app)) app
  | CaseJurySigAdded =>
      set_jurySigAddedEventChan (tail (jurySigAddedEventChan app)) app
  | CaseEventLoopQuit => app
  end.

(** A completion event arrives on the channel of its kind. *)
Definition deliver {C} (e : Event) (app : App C) : App C :=
  match e with
  | EvFinalitySigAdded ev =>
      set_finalitySigAddedEventChan (finalitySigAddedEventChan app ++ [ev]) app
  | EvValidatorRegistered ev =>
      set_validatorRegisteredEventChan (validatorRegisteredEventChan app ++ [ev]) app
  | EvPubRandCommitted ev =>
      set_pubRandCommittedEventChan (pubRandCommittedEventChan app ++ [ev]) app
  | EvJurySigAdded ev =>
      set_jurySigAddedEventChan (jurySigAddedEventChan app ++ [ev]) app
  end.

(** The slots of the requests waiting in the channels. *)
Definition requestSlots {C} (app : App C) : list Slot :=
  (cvr_slot <$> createValidatorRequestChan app) ++
  (afs_slot <$> addFinalitySigRequestChan app) ++
  (rvr_slot <$> registerValidatorRequestChan app) ++
  (cpr_slot <$> commitPubRandRequestChan app) ++
  (ajs_slot <$> addJurySigRequestChan app).

(** The slots of the completion events waiting in the channels. *)
Definition eventSlots {C} (app : App C) : list Slot :=
  (fsa_successResponse <$> finalitySigAddedEventChan app) ++
  (vre_successResponse <$> validatorRegisteredEventChan app) ++
  (prc_successResponse <$> pubRandCommittedEventChan app) ++
  (jsa_successResponse <$> jurySigAddedEventChan app).

(** The slots that wait for a loop. *)
Definition pendingSlots {C} (app : App C) : list Slot :=
  requestSlots app ++ eventSlots app.

(** The slot of the event the process was handling when it exited. *)
Definition casualty (st : ProcStatus) : list Slot :=
  match st with
  | Running => []
  | Fatal _ e | Panic _ e => [eventSlot e]
  end.

(** The work left in the channels: a request counts twice, once for its
    chain call and once for its completion, an event once. *)
Definition work {C} (app : App C) : nat :=
  (length (requestSlots app) + length (pendingSlots app))%nat.

(** The case of the submission loop that makes a chain call. *)
Definition callCase (c : ChainCall) : SendCase :=
  match c with
  | CallSubmitFinalitySig _ _ _ _ => CaseAddFinalitySigRequest
  | CallRegisterValidator _ _ _ => CaseRegisterValidatorRequest
  | CallCommitPubRandList _ _ _ _ => CaseCommitPubRandRequest
  | CallSubmitJurySig _ _ _ => CaseAddJurySigRequest
  end.

#[global] Instance SendCase_eq_dec : EqDecision SendCase.
Proof. solve_decision. Defined.

(** The calls of a list that a case makes. *)
Definition ofCase (c : SendCase) (l : list ChainCall) : list ChainCall :=
  filter (fun x => callCase x = c) l.

(** The chain calls waiting in the channel of a case, oldest first. *)
Definition pendingCallsOf {C} (c : SendCase) (app : App C) : list ChainCall :=
  match c with
  | CaseAddFinalitySigRequest =>
      omap callOf (ReqAddFinalitySig <$> addFinalitySigRequestChan app)
  | CaseRegisterValidatorRequest =>
      omap callOf (ReqRegisterValidator <$> registerValidatorRequestChan app)
  | CaseCommitPubRandRequest =>
      omap callOf (ReqCommitPubRand <$> commitPubRandRequestChan app)
  | CaseAddJurySigRequest =>
      omap callOf (ReqAddJurySig <$> addJurySigRequestChan app)
  | CaseSendLoopQuit => []
  end.

(** The heights of the randomness pairs a trace stores. *)
Definition storedHeights (t : list Action) : list Z :=
  omap (fun a => match a with
                 | Stored (OpSaveRandPair _ h _) _ => Some h
                 | _ => None
                 end) t.

(** The store calls of the loop of [onPubRandCommitted]: one per secret
    value that has a public value at its index. *)
Definition randPairCalls (ev : pubRandCommittedEvent) (i : nat)
    (W : list (Bytes * Bytes)) : list Action :=
  imap (fun j p =>
          Stored (OpSaveRandPair (prc_bbnPubKey ev)
                    (u64_add (prc_startingHeight ev) (to_uint64 (Z.of_nat (i + j))))
                    (mkSchnorrRandPair p.1 p.2)) true) W.

(** ** Properties of a state *)

(** The first [n] durable writes to come succeed. *)
Definition writesOk (n : nat) (s : ValidatorStore) : Prop :=
  Forall (fun b => b = false) (take n (faults s)).

(** How a handler that was handling [e] left the app: it only added [X] to
    the trace, no chain call and no submission among it; if it went on, the
    process runs as before, every store call succeeded and exactly the slots
    [rs] were replied to; if it did not, nothing was replied and the
    process exited, fatally or (every store call having succeeded) by a
    panic. *)
Definition outcome {C} (e : Event) (rs : list Slot) (app : App C)
    (res : option unit * App C) : Prop :=
  wiring res.2 = wiring app /\
  exists X, trace res.2 = trace app ++ X /\
    chainCalls X = [] /\ submittedRequests X = [] /\
    match res.1 with
    | Some _ =>
        status res.2 = status app /\ repliedSlots X = rs /\
        Forall (fun c => c.2 = true) (storeCalls X)
    | None =>
        repliedSlots X = [] /\
        ((exists msg, status res.2 = Fatal msg e) \/
         ((exists msg, status res.2 = Panic msg e) /\
          Forall (fun c => c.2 = true) (storeCalls X)))
    end.

(** No validator is lost and no [LastVotedHeight] is lower in [s'] than in
    [s]. *)
Definition voted_le (s s' : ValidatorStore) : Prop :=
  forall pk v, validators s !! pk = Some v ->
    exists v', validators s' !! pk = Some v' /\ LastVotedHeight v <= LastVotedHeight v'.

(** What the spec asks of the create-validator handler: records stay under
    their own identity, and an existing validator is not replaced. *)
Definition create_contract
    (h : createValidatorRequest -> ValidatorStore -> (Bytes + error) * ValidatorStore) : Prop :=
  forall req s, store_wf s -> store_wf (h req s).2 /\ voted_le s (h req s).2.

(** The number of times a slot occurs in a list. *)
Abbreviation cnt := (count_occ Nat.eq_dec).

(** Every slot is in exactly one place: waiting in a channel, replied to,
    or lost with the process; the three together are the slots of the
    requests submitted so far. *)
Definition slot_balance {C} (app : App C) : Prop :=
  forall s, (cnt (pendingSlots app) s + cnt (repliedSlots (trace app)) s +
             cnt (casualty (status app)) s)%nat
            = cnt (requestSlot <$> submittedRequests (trace app)) s.

(** The calls submitted for a case are those made for it, in the same
    order, followed by those still waiting in its channel. *)
Definition fifo_per_case {C} (app : App C) : Prop :=
  forall c, ofCase c (submittedCalls (trace app)) =
            ofCase c (chainCalls (trace app)) ++ pendingCallsOf c app.

(** ** Fixtures: a chain, a create handler, a store and requests to run on *)

(** A chain client that accepts every call but the jury signatures; the
    transaction hash of an accepted call is a fixed byte. *)
Definition pickyClient : BabylonClient unit :=
  mkBabylonClient unit
    (fun _ _ _ _ c => (TxOk ["7"%byte], c))
    (fun _ _ _ c => (TxOk ["8"%byte], c))
    (fun _ _ _ _ c => (TxOk ["9"%byte], c))
    (fun _ _ _ c => (TxErr "jury signature rejected", c)).

(** Modelled from the spec: [handleCreateValidatorRequest] constructs a new
    validator with status CREATED and persists it, or replies with a
    validation error when the identity is taken.  The identity is the
    request's payload. *)
Definition createValidator (req : createValidatorRequest) (s : ValidatorStore)
  : (Bytes + error) * ValidatorStore :=
  match validators s !! cvr_payload req with
  | Some _ => (inr "duplicate identity", s)
  | None =>
      match SaveValidator
              (mkStoreValidator (cvr_payload req) [] ValidatorStatus_CREATED 0 0) s with
      | (Some err, s') => (inr err, s')
      | (None, s') => (inl (cvr_payload req), s')
      end
  end.

Definition pk1 : Bytes := ["P"%byte; "K"%byte; "1"%byte].

Definition val1 : StoreValidator :=
  mkStoreValidator pk1 ["b"%byte] ValidatorStatus_REGISTERED 0 0.

Definition store1 : ValidatorStore := mkValidatorStore {[ pk1 := val1 ]} ∅ [].

Definition app1 : App unit := initApp store1 tt.

(** A store whose next write fails. *)
Definition storeFailing : ValidatorStore := mkValidatorStore {[ pk1 := val1 ]} ∅ [true].

(** A vote at height 101. *)
Definition evVote : finalitySigAddedEvent :=
  mkFinalitySigAddedEvent pk1 101 ["7"%byte] 1%nat.

(** The scenario of the spec: five values committed from height 100. *)
Definition evFive : pubRandCommittedEvent :=
  mkPubRandCommittedEvent 100 pk1 ["b"%byte]
    [["0"%byte]; ["1"%byte]; ["2"%byte]; ["3"%byte]; ["4"%byte]]
    [["a"%byte]; ["b"%byte]; ["c"%byte]; ["d"%byte]; ["e"%byte]]
    ["9"%byte] 5%nat.


(** No public value, one secret value. *)
Definition evNoPub : pubRandCommittedEvent :=
  mkPubRandCommittedEvent 100 pk1 ["b"%byte] [["0"%byte]] [] ["9"%byte] 5%nat.

(** Nothing committed, from height 0. *)
Definition evNone : pubRandCommittedEvent :=
  mkPubRandCommittedEvent 0 pk1 ["b"%byte] [] [] ["9"%byte] 5%nat.

(** A registration completion for an identity that was never created. *)
Definition evGhost : validatorRegisteredEvent :=
  mkValidatorRegisteredEvent ["G"%byte] ["8"%byte] 3%nat.

(** A jury-signature completion. *)
Definition evJury : jurySigAddedEvent :=
  mkJurySigAddedEvent pk1 ["6"%byte] 4%nat.

(** A finality-signature request for [pk1]. *)
Definition reqVote (height : Z) (slot : nat) : Request :=
  ReqAddFinalitySig (mkAddFinalitySigRequest pk1 ["b"%byte] height [] [] slot).


Definition reqRegister : Request :=
  ReqRegisterValidator (mkRegisterValidatorRequest pk1 ["b"%byte] [] 2%nat).

Definition reqJury : Request :=
  ReqAddJurySig (mkAddJurySigRequest pk1 ["b"%byte] ["d"%byte] [] 4%nat).

(** A reactor environment for the examples: the pending delegations are
    fixed, and signing fails for the delegation whose key is [x]. *)
Definition delX : Delegation := mkDelegation ["x"%byte] [].
Definition delY : Delegation := mkDelegation ["y"%byte] [].

Definition pendingXY (e : nat) : (list Delegation + error) * nat :=
  (inl [delX; delY], S e).

Definition signButX (d : Delegation) (e : nat) : (Bytes + error) * nat :=
  if decide (del_BtcPk d = ["x"%byte]) then (inr "signing failed", S e)
  else (inl ["6"%byte], S e).

(** ** Tactics *)

Arguments runStoreOp : simpl never.
Arguments GetValidator : simpl never.

(** Slot counts and channel lengths after a step, by arithmetic. *)
Ltac cnt_lia :=
  rewrite ?count_occ_app; simpl; rewrite ?count_occ_app;
  repeat match goal with
    | |- context [list_fmap ?A ?B ?f ?l] => change (list_fmap A B f l) with (f <$> l)
    end;
  repeat match goal with
    | |- context [Nat.eq_dec ?x ?s] => destruct (Nat.eq_dec x s)
    end;
  rewrite ?count_occ_app; lia.

Ltac len_lia :=
  unfold work, pendingSlots, requestSlots, eventSlots; simpl;
  repeat match goal with
    | H : ?x = _ :: _ |- context [?x] => rewrite H
    end;
  rewrite ?fmap_app; rewrite ?length_app; simpl; rewrite ?length_app, ?length_fmap;
  simpl; lia.

(** Decidable facts about a concrete run, by evaluation. *)
Ltac by_compute := apply (bool_decide_unpack _); vm_compute; exact I.
Ltac by_in := apply list_elem_of_In; vm_compute; auto.

(** ** [validatorSubmissionLoop] *)

(** A block the poller reports; the loop reads its [Height] for the log. *)
Record BlockInfo := mkBlockInfo {
  blk_Height : uint64;
  blk_payload : Bytes
}.

Inductive SubmitterAction :=
| SubmittedSigs (b : BlockInfo) (res : Bytes + error)
| CurrentBlock (res : BlockInfo + error)
| CommittedRand (b : BlockInfo) (res : Bytes + error)
| SubmitterLogged (lvl : Level) (msg : string) (height : option uint64).

(** The reactor: the rest of the app as it sees it, the poller's channel,
    what it did so far, the message it exited with if it did, and whether
    it returned. *)
Record Submitter (E : Type) := mkSubmitter {
  senv : E;
  blockInfoChan : list BlockInfo;
  strace : list SubmitterAction;
  sfatal : option string;
  submitterDone : bool
}.
Arguments senv {E} _.
Arguments blockInfoChan {E} _.
Arguments strace {E} _.
Arguments sfatal {E} _.
Arguments submitterDone {E} _.
Arguments mkSubmitter {E} _ _ _ _ _.

Section SubmissionLoop.
  Context {E : Type}.

  (** [SubmitFinalitySignaturesForAll], [GetCurrentBbnBlock] and
      [CommitPubRandForAll] are defined outside [event_loop.go]: they are
      parameters, functions of the state of the rest of the app. *)
  Variable SubmitFinalitySignaturesForAll : BlockInfo -> E -> (Bytes + error) * E.
  Variable GetCurrentBbnBlock : E -> (BlockInfo + error) * E.
  Variable CommitPubRandForAll : BlockInfo -> E -> (Bytes + error) * E.

(** [case b := <-app.poller.GetBlockInfoChan()], the block received. *)
Definition onBlockInfo (b : BlockInfo) (s : Submitter E) : Submitter E :=
  let '(res, e') := SubmitFinalitySignaturesForAll b (senv s) in
  let t := strace s ++ [SubmittedSigs b res] in
  let t' :=
    match res with
    | inr err =>
        t ++ [SubmitterLogged ErrorLevel "failed to submit finality signature to Babylon"
                (Some (blk_Height b))]
    | inl _ => t
    end in
  mkSubmitter e' (blockInfoChan s) t' (sfatal s) (submitterDone s).

(** [case <-commitRandTicker.C] *)
Definition onCommitRandTick (s : Submitter E) : Submitter E :=
  let '(res, e') := GetCurrentBbnBlock (senv s) in
  let t := strace s ++ [CurrentBlock res] in
  match res with
  | inr err =>
      mkSubmitter e' (blockInfoChan s)
        (t ++ [SubmitterLogged FatalLevel "failed to get the current Babylon block" None])
        (Some "failed to get the current Babylon block") (submitterDone s)
  | inl lastBlock =>
      let '(res', e'') := CommitPubRandForAll lastBlock e' in
      let t' := t ++ [CommittedRand lastBlock res'] in
      let t'' :=
        match res' with
        | inr err =>
            t' ++ [SubmitterLogged ErrorLevel "failed to commit public randomness"
                     (Some (blk_Height lastBlock))]
        | inl _ => t'
        end in
      mkSubmitter e'' (blockInfoChan s) t'' (sfatal s) (submitterDone s)
  end.

Inductive SubmitterCase := CaseBlockInfo | CaseCommitRandTick | CaseSubmitterQuit.

(** One iteration of [validatorSubmissionLoop]; the block case is ready when
    the poller's channel has a block, the quit case once [app.quit] is
    closed. *)
Definition validatorSubmissionStep (quitClosed : bool) (c : SubmitterCase) (s : Submitter E)
  : option (Submitter E) :=
  match sfatal s, submitterDone s with
  | None, false =>
      match c with
      | CaseBlockInfo =>
          match blockInfoChan s with
          | [] => None
          | b :: rest =>
              Some (onBlockInfo b
                      (mkSubmitter (senv s) rest (strace s) (sfatal s) (submitterDone s)))
          end
      | CaseCommitRandTick => Some (onCommitRandTick s)
      | CaseSubmitterQuit =>
          if quitClosed
          then Some (mkSubmitter (senv s) (blockInfoChan s) (strace s) (sfatal s) true)
          else None
      end
  | _, _ => None
  end.

(** [validatorSubmissionLoop]: its iterations, one for each case that fires,
    in turn. *)
Fixpoint validatorSubmissionLoop (quitClosed : bool) (cases : list SubmitterCase)
    (s : Submitter E) : option (Submitter E) :=
  match cases with
  | [] => Some s
  | c :: rest =>
      match validatorSubmissionStep quitClosed c s with
      | Some s' => validatorSubmissionLoop quitClosed rest s'
      | None => None
      end
  end.

End SubmissionLoop.

(** The blocks the reactor submitted signatures for, the heights of those
    that failed, the heights its error lines name, and the blocks it
    committed randomness at. *)
Definition sigAttempts (t : list SubmitterAction) : list BlockInfo :=
  omap (fun a => match a with SubmittedSigs b _ => Some b | _ => None end) t.

Definition failedSigHeights (t : list SubmitterAction) : list Z :=
  omap (fun a => match a with
                 | SubmittedSigs b (inr _) => Some (blk_Height b)
                 | _ => None
                 end) t.

Definition loggedHeights (t : list SubmitterAction) : list Z :=
  omap (fun a => match a with
                 | SubmitterLogged ErrorLevel _ (Some h) => Some h
                 | _ => None
                 end) t.

Definition commitAttempts (t : list SubmitterAction) : list BlockInfo :=
  omap (fun a => match a with CommittedRand b _ => Some b | _ => None end) t.

Definition failedCommitHeights (t : list SubmitterAction) : list Z :=
  omap (fun a => match a with
                 | CommittedRand b (inr _) => Some (blk_Height b)
                 | _ => None
                 end) t.

(** The heights of the failed calls of either kind, in the order of the
    calls. *)
Definition failedHeights (t : list SubmitterAction) : list Z :=
  omap (fun a => match a with
                 | SubmittedSigs b (inr _) | CommittedRand b (inr _) => Some (blk_Height b)
                 | _ => None
                 end) t.

(** A reactor environment for the examples: signatures fail on blocks of odd
    height, the current block is known until the counter reaches 2 or
    always, and committing fails. *)
Definition sigsButOdd (b : BlockInfo) (e : nat) : (Bytes + error) * nat :=
  if Z.odd (blk_Height b) then (inr "odd height", S e) else (inl ["5"%byte], S e).

Definition blockUntilTwo (e : nat) : (BlockInfo + error) * nat :=
  if decide (e < 2)%nat then (inl (mkBlockInfo 7 []), S e) else (inr "no connection", S e).

Definition blockSeven (e : nat) : (BlockInfo + error) * nat :=
  (inl (mkBlockInfo 7 []), S e).

Definition commitFails (b : BlockInfo) (e : nat) : (Bytes + error) * nat :=
  (inr "commit rejected", S e).

(** ** From a request to its reply *)

(** The completion event the submission loop sends for a request whose
    chain call returned [txHash]. *)
Definition completion (r : Request) (txHash : Bytes) : option Event :=
  match r with
  | ReqCreateValidator _ => None
  | ReqAddFinalitySig req =>
      Some (EvFinalitySigAdded
              (mkFinalitySigAddedEvent (afs_bbnPubKey req) (afs_blockHeight req) txHash
                 (afs_slot req)))
  | ReqRegisterValidator req =>
      Some (EvValidatorRegistered
              (mkValidatorRegisteredEvent (rvr_bbnPubKey req) txHash (rvr_slot req)))
  | ReqCommitPubRand req =>
      Some (EvPubRandCommitted
              (mkPubRandCommittedEvent (cpr_startingHeight req) (cpr_bbnPubKey req)
                 (cpr_valBtcPk req) (cpr_privRandList req) (cpr_pubRandList req) txHash
                 (cpr_slot req)))
  | ReqAddJurySig req =>
      Some (EvJurySigAdded (mkJurySigAddedEvent (ajs_bbnPubKey req) txHash (ajs_slot req)))
  end.

(** The response the event loop sends on the slot of a completion event it
    has handled. *)
Definition successOf (e : Event) : Response :=
  match e with
  | EvFinalitySigAdded ev => addFinalitySigResponse (fsa_txHash ev)
  | EvValidatorRegistered ev => registerValidatorResponse (vre_txHash ev)
  | EvPubRandCommitted ev => commitPubRandResponse (prc_txHash ev)
  | EvJurySigAdded ev => addJurySigResponse (jsa_txHash ev)
  end.

(** The case of the event loop that takes the completion events of a case
    of the submission loop. *)
Definition completionCase (c : SendCase) : EventLoopCase :=
  match c with
  | CaseAddFinalitySigRequest => CaseFinalitySigAdded
  | CaseRegisterValidatorRequest => CaseValidatorRegistered
  | CaseCommitPubRandRequest => CasePubRandCommitted
  | CaseAddJurySigRequest => CaseJurySigAdded
  | CaseSendLoopQuit => CaseEventLoopQuit
  end.

(** The store calls the handler of a completion event makes when none
    fails. *)
Definition writesNeeded (e : Event) : nat :=
  match e with
  | EvFinalitySigAdded _ | EvValidatorRegistered _ => 1
  | EvPubRandCommitted ev => S (length (prc_privRandList ev))
  | EvJurySigAdded _ => 0
  end.

(** What the handler of a completion event needs of the store and of the
    event to run to its end: the validator (no handler of a jury signature
    looks for one), and a public value at every index of the secret list. *)
Definition handleable (e : Event) (s : ValidatorStore) : Prop :=
  match e with
  | EvFinalitySigAdded ev => is_Some (GetValidator (fsa_bbnPubKey ev) s)
  | EvValidatorRegistered ev => is_Some (GetValidator (vre_bbnPubKey ev) s)
  | EvPubRandCommitted ev =>
      is_Some (GetValidator (prc_bbnPubKey ev) s) /\
      (length (prc_privRandList ev) <= length (prc_pubRandList ev))%nat
  | EvJurySigAdded _ => True
  end.

(** The replies of a trace, in order. *)
Definition replies (t : list Action) : list (Slot * Response) :=
  omap (fun a => match a with Replied slot resp => Some (slot, resp) | _ => None end) t.

(** The transaction hash a response carries, with the case of the submission
    loop whose chain call it answers. *)
Definition txOf (resp : Response) : option (SendCase * Bytes) :=
  match resp with
  | addFinalitySigResponse h => Some (CaseAddFinalitySigRequest, h)
  | registerValidatorResponse h => Some (CaseRegisterValidatorRequest, h)
  | commitPubRandResponse h => Some (CaseCommitPubRandRequest, h)
  | addJurySigResponse h => Some (CaseAddJurySigRequest, h)
  | errResponse _ | createValidatorResponse _ => None
  end.

(** The requests and the completion events waiting in the channels. *)
Definition requestsWaiting {C} (app : App C) : list Request :=
  (ReqCreateValidator <$> createValidatorRequestChan app) ++
  (ReqAddFinalitySig <$> addFinalitySigRequestChan app) ++
  (ReqRegisterValidator <$> registerValidatorRequestChan app) ++
  (ReqCommitPubRand <$> commitPubRandRequestChan app) ++
  (ReqAddJurySig <$> addJurySigRequestChan app).

Definition eventsWaiting {C} (app : App C) : list Event :=
  (EvFinalitySigAdded <$> finalitySigAddedEventChan app) ++
  (EvValidatorRegistered <$> validatorRegisteredEventChan app) ++
  (EvPubRandCommitted <$> pubRandCommittedEventChan app) ++
  (EvJurySigAdded <$> jurySigAddedEventChan app).

(** An answer: a slot, with the case and the transaction hash of the
    response written to it.  The answers of a trace, and the answer a
    completion event carries. *)
Definition Answer : Type := Slot * (SendCase * Bytes).

Definition answers (t : list Action) : list Answer :=
  omap (fun sr => (fun x => (sr.1, x)) <$> txOf sr.2) (replies t).

Definition answerOf (e : Event) : Answer :=
  match e with
  | EvFinalitySigAdded ev =>
      (fsa_successResponse ev, (CaseAddFinalitySigRequest, fsa_txHash ev))
  | EvValidatorRegistered ev =>
      (vre_successResponse ev, (CaseRegisterValidatorRequest, vre_txHash ev))
  | EvPubRandCommitted ev =>
      (prc_successResponse ev, (CaseCommitPubRandRequest, prc_txHash ev))
  | EvJurySigAdded ev =>
      (jsa_successResponse ev, (CaseAddJurySigRequest, jsa_txHash ev))
  end.

(** In trace [t] a request with the slot of the answer was submitted, and
    the chain returned the hash of the answer to the call of that request. *)
Definition called_for (t : list Action) (y : Answer) : Prop :=
  exists r call,
    r ∈ submittedRequests t /\ requestSlot r = y.1 /\
    callOf r = Some call /\ callCase call = y.2.1 /\
    Called call (TxOk y.2.2) ∈ t.

(** Every request that waits was submitted, and every answer written or
    waiting in a completion event is that of a call made for a request with
    its slot. *)
Definition replies_routed {C} (app : App C) : Prop :=
  (forall r, r ∈ requestsWaiting app -> r ∈ submittedRequests (trace app)) /\
  (forall y, y ∈ answers (trace app) ++ (answerOf <$> eventsWaiting app) ->
             called_for (trace app) y).

(** Membership in a list put together of channels, split into its cases. *)
Ltac elem_split :=
  repeat first
    [ rewrite elem_of_app in * | rewrite elem_of_cons in * | rewrite elem_of_nil in * ].

(** ** More to read off the trace of the jury reactor *)

(** The fetches of the reactor, and the delegations of its successful
    fetches, in order. *)
Definition fetched (t : list JuryAction) : list (list Delegation + error) :=
  omap (fun a => match a with Fetched res => Some res | _ => None end) t.

Definition fetchedDelegations (t : list JuryAction) : list Delegation :=
  concat (omap (fun a => match a with Fetched (inl dels) => Some dels | _ => None end) t).

(** ** More fixtures *)

(** A store whose write number [n] (from 0) fails, those before succeed. *)
Definition storeFailingAt (n : nat) : ValidatorStore :=
  mkValidatorStore {[ pk1 := val1 ]} ∅ (replicate n false ++ [true]).

(** Two create requests: one for the identity of [val1], one for a new
    identity. *)
Definition reqCreateTaken : Request :=
  ReqCreateValidator (mkCreateValidatorRequest pk1 7%nat).

Definition reqCreateNew : Request :=
  ReqCreateValidator (mkCreateValidatorRequest ["N"%byte] 8%nat).

(** ** The traces of the reactors as records of the calls made *)

Section JuryRecord.
  Context {E : Type}.
  Variable getPendingDelegationsForAll : E -> (list Delegation + error) * E.
  Variable AddJurySignature : Delegation -> E -> (Bytes + error) * E.

(** The error line a call of the jury reactor owes when it failed. *)
Definition fetchLine (res : list Delegation + error) : option JuryAction :=
  match res with
  | inr _ => Some (JuryLogged ErrorLevel "failed to get pending delegations" None)
  | inl _ => None
  end.

Definition attemptLine (d : Delegation) (res : Bytes + error) : option JuryAction :=
  match res with
  | inr _ =>
      Some (JuryLogged ErrorLevel "failed to submit Jury sig to the Bitcoin delegation"
              (Some (del_BtcPk d)))
  | inl _ => None
  end.

(** [juryCalls t due e e']: the trace [t] is a record of calls really made,
    taking the rest of the app from state [e] to state [e'].  Each fetch and
    each attempt of [t] has the result [getPendingDelegationsForAll] or
    [AddJurySignature] returned at the state the calls before it left; a
    failed call is followed by its error line ([due] is the line the call
    before owes); and [t] has no other line. *)
Fixpoint juryCalls (t : list JuryAction) (due : option JuryAction) (e e' : E) : Prop :=
  match t with
  | [] => due = None /\ e' = e
  | a :: t' =>
      match due with
      | Some line => a = line /\ juryCalls t' None e e'
      | None =>
          match a with
          | Fetched res =>
              (getPendingDelegationsForAll e).1 = res /\
              juryCalls t' (fetchLine res) (getPendingDelegationsForAll e).2 e'
          | Attempted d res =>
              (AddJurySignature d e).1 = res /\
              juryCalls t' (attemptLine d res) (AddJurySignature d e).2 e'
          | JuryLogged _ _ _ => False
          end
      end
  end.

End JuryRecord.

Section SubmitterRecord.
  Context {E : Type}.
  Variable SubmitFinalitySignaturesForAll : BlockInfo -> E -> (Bytes + error) * E.
  Variable GetCurrentBbnBlock : E -> (BlockInfo + error) * E.
  Variable CommitPubRandForAll : BlockInfo -> E -> (Bytes + error) * E.

(** What the validator reactor does next after a call: another call, the
    error line of a failed call, or the commit at the block it just got. *)
Inductive Expect :=
| ExpectCall
| ExpectLine (line : SubmitterAction)
| ExpectCommit (lastBlock : BlockInfo).

Definition afterSigs (b : BlockInfo) (res : Bytes + error) : Expect :=
  match res with
  | inr _ =>
      ExpectLine (SubmitterLogged ErrorLevel "failed to submit finality signature to Babylon"
                    (Some (blk_Height b)))
  | inl _ => ExpectCall
  end.

Definition afterCurrentBlock (res : BlockInfo + error) : Expect :=
  match res with
  | inr _ =>
      ExpectLine (SubmitterLogged FatalLevel "failed to get the current Babylon block" None)
  | inl lastBlock => ExpectCommit lastBlock
  end.

Definition afterCommit (b : BlockInfo) (res : Bytes + error) : Expect :=
  match res with
  | inr _ =>
      ExpectLine (SubmitterLogged ErrorLevel "failed to commit public randomness"
                    (Some (blk_Height b)))
  | inl _ => ExpectCall
  end.

(** [submitterCalls t x e e']: the trace [t] is a record of calls really
    made, taking the rest of the app from state [e] to state [e'].  Each
    call of [t] has the result the function returned at the state the calls
    before it left; a successful [GetCurrentBbnBlock] is followed by the
    commit at the block it returned; a failed call is followed by its error
    line; and [t] has no other line. *)
Fixpoint submitterCalls (t : list SubmitterAction) (x : Expect) (e e' : E) : Prop :=
  match t with
  | [] => x = ExpectCall /\ e' = e
  | a :: t' =>
      match x with
      | ExpectLine line => a = line /\ submitterCalls t' ExpectCall e e'
      | ExpectCommit lastBlock =>
          match a with
          | CommittedRand b res =>
              b = lastBlock /\ (CommitPubRandForAll b e).1 = res /\
              submitterCalls t' (afterCommit b res) (CommitPubRandForAll b e).2 e'
          | _ => False
          end
      | ExpectCall =>
          match a with
          | SubmittedSigs b res =>
              (SubmitFinalitySignaturesForAll b e).1 = res /\
              submitterCalls t' (afterSigs b res) (SubmitFinalitySignaturesForAll b e).2 e'
          | CurrentBlock res =>
              (GetCurrentBbnBlock e).1 = res /\
              submitterCalls t' (afterCurrentBlock res) (GetCurrentBbnBlock e).2 e'
          | _ => False
          end
      end
  end.

End SubmitterRecord.

(** * Facts *)

(** ** The store and the trace under a handler *)

Section HandlerFacts.
  Context {C : Type}.
  Implicit Types (app : App C) (e : Event).

Lemma vsCall_eq op app :
  vsCall op app =
    (Some (runStoreOp op (vs app)).1,
     set_trace (trace app ++ [Stored op (bool_decide ((runStoreOp op (vs app)).1 = None))])
       (set_vs (runStoreOp op (vs app)).2 app)).
Proof. unfold vsCall. destruct (runStoreOp op (vs app)); reflexivity. Qed.

Lemma emitted_app app app' X : trace app' = trace app ++ X -> emitted app app' = X.
Proof. intros H. unfold emitted. rewrite H. apply drop_app_length. Qed.

Lemma chainCalls_app t1 t2 : chainCalls (t1 ++ t2) = chainCalls t1 ++ chainCalls t2.
Proof. apply omap_app. Qed.

Lemma submittedRequests_app t1 t2 :
  submittedRequests (t1 ++ t2) = submittedRequests t1 ++ submittedRequests t2.
Proof. apply omap_app. Qed.

Lemma repliedSlots_app t1 t2 : repliedSlots (t1 ++ t2) = repliedSlots t1 ++ repliedSlots t2.
Proof. apply omap_app. Qed.

Lemma storeCalls_app t1 t2 : storeCalls (t1 ++ t2) = storeCalls t1 ++ storeCalls t2.
Proof. apply omap_app. Qed.

(** A write that the disk lets through. *)
Lemma durably_ok f s :
  writesOk 1 s ->
  (durably f s).1 = None /\
  validators (durably f s).2 = validators (f s) /\
  randPairs (durably f s).2 = randPairs (f s) /\
  (faults (f s) = faults s -> forall n, writesOk (S n) s -> writesOk n (durably f s).2).
Proof.
  unfold writesOk, durably. intros H.
  destruct (faults s) as [|[] fs] eqn:Hf; simpl in *.
  - repeat split; try reflexivity. intros Hfs n _. rewrite Hfs. destruct n; constructor.
  - inversion H; discriminate.
  - repeat split; try reflexivity. intros _ n Hn. inversion Hn; assumption.
Qed.

Lemma runStoreOp_faults op s :
  exists f, runStoreOp op s = durably f s /\ faults (f s) = faults s.
Proof.
  destruct op; unfold runStoreOp, SetValidatorStatus, SetValidatorLastVotedHeight,
    SaveValidator, SaveRandPair; eexists; split; try reflexivity; simpl.
  destruct (randPairs s !! (pk, height)); reflexivity.
Qed.

Lemma runStoreOp_ok op s n :
  writesOk (S n) s ->
  (runStoreOp op s).1 = None /\ writesOk n (runStoreOp op s).2.
Proof.
  intros H. destruct (runStoreOp_faults op s) as (f & -> & Hf).
  assert (H1 : writesOk 1 s).
  { unfold writesOk in *. destruct (faults s); simpl in *; [constructor|].
    inversion H; subst. rewrite take_0. repeat constructor. }
  destruct (durably_ok f s H1) as (? & _ & _ & Hk). split; [assumption|].
  apply Hk; assumption.
Qed.

End HandlerFacts.

(** ** How the completion handlers end *)

Section HandlerOutcomes.
  Context {C : Type}.
  Implicit Types (app : App C) (e : Event).

Lemma saveRandPairs_outcome ev privs i app :
  outcome (EvPubRandCommitted ev) [] app (saveRandPairs ev i privs app).
Proof.
  revert i app. induction privs as [|pr rest IH]; intros i app; simpl.
  - split; [reflexivity|]. exists []. rewrite app_nil_r. simpl. repeat split; constructor.
  - destruct (prc_pubRandList ev !! i) as [pub|].
    + unfold mbind, eff_bind. rewrite vsCall_eq.
      destruct (runStoreOp _ (vs app)) as [[err|] s']; simpl.
      * split; [reflexivity|]. eexists [_; _]. simpl. rewrite <- app_assoc. simpl.
        repeat split. left. eauto.
      * match goal with |- outcome _ _ _ (saveRandPairs _ _ _ ?a) => specialize (IH (S i) a) end.
        destruct IH as (Hw & X & Ht & Hc & Hs & Hr).
        split; [rewrite Hw; reflexivity|].
        exists (Stored (OpSaveRandPair (prc_bbnPubKey ev)
                  (u64_add (prc_startingHeight ev) (to_uint64 (Z.of_nat i)))
                  (mkSchnorrRandPair pr pub)) true :: X).
        rewrite Ht. simpl. rewrite <- app_assoc. simpl.
        repeat split; try assumption.
        destruct (saveRandPairs ev (S i) rest _) as [[[]|] a']; simpl in *.
        -- destruct Hr as (? & ? & ?). repeat split; try assumption. constructor; [reflexivity|assumption].
        -- destruct Hr as (? & [?|[? ?]]); split; try assumption; [left; assumption|right].
           split; [assumption|constructor; [reflexivity|assumption]].
    + split; [reflexivity|]. exists []. rewrite app_nil_r. simpl. repeat split.
      right. split; [eauto|constructor].
Qed.

Lemma onEvent_outcome e app : outcome e [eventSlot e] app (onEvent e app).
Proof.
  destruct e as [ev|ev|ev|ev]; simpl.
  - unfold onFinalitySigAdded, mbind, eff_bind, vsGet.
    destruct (GetValidator _ (vs app)) as [val|].
    + rewrite vsCall_eq. destruct (runStoreOp _ (vs app)) as [[err|] s']; simpl.
      * split; [reflexivity|]. eexists [_; _]. simpl. rewrite <- app_assoc. simpl.
        repeat split. left. eauto.
      * split; [reflexivity|]. eexists [_; _]. simpl. rewrite <- app_assoc. simpl.
        repeat split. repeat constructor.
    + split; [reflexivity|]. eexists [_]. simpl. repeat split. left. eauto.
  - unfold onValidatorRegistered, mbind, eff_bind, vsGet.
    destruct (GetValidator _ (vs app)) as [val|].
    + rewrite vsCall_eq. destruct (runStoreOp _ (vs app)) as [[err|] s']; simpl.
      * split; [reflexivity|]. eexists [_; _]. simpl. rewrite <- app_assoc. simpl.
        repeat split. left. eauto.
      * split; [reflexivity|]. eexists [_; _]. simpl. rewrite <- app_assoc. simpl.
        repeat split. repeat constructor.
    + split; [reflexivity|]. eexists [_]. simpl. repeat split. left. eauto.
  - unfold onPubRandCommitted, mbind, eff_bind, vsGet.
    destruct (GetValidator _ (vs app)) as [val|].
    + rewrite vsCall_eq. destruct (runStoreOp _ (vs app)) as [[err|] s']; simpl.
      * split; [reflexivity|]. eexists [_; _]. simpl. rewrite <- app_assoc. simpl.
        repeat split. left. eauto.
      * match goal with |- context [saveRandPairs ev 0 _ ?a] =>
          pose proof (saveRandPairs_outcome ev (prc_privRandList ev) 0 a) as H end.
        destruct H as (Hw & X & Ht & Hc & Hs & Hr).
        destruct (saveRandPairs ev 0 _ _) as [[[]|] a']; simpl in *.
        -- destruct Hr as (Hst & Hrs & Hok).
           unfold reply, record; simpl. split; [exact Hw|].
           eexists (_ :: X ++ [_]). rewrite Ht. rewrite <- !app_assoc. simpl.
           split; [reflexivity|].
           rewrite chainCalls_app, submittedRequests_app, repliedSlots_app, storeCalls_app,
             Hc, Hs, Hrs. simpl. repeat split; try assumption.
           constructor; [reflexivity|]. rewrite app_nil_r. assumption.
        -- destruct Hr as (Hrs & Hex).
           split; [exact Hw|]. simpl.
           eexists (_ :: X). rewrite Ht. rewrite <- !app_assoc. simpl.
           split; [reflexivity|]. repeat split; try assumption.
           destruct Hex as [?|[? ?]]; [left; assumption|right].
           split; [assumption|constructor; [reflexivity|assumption]].
    + split; [reflexivity|]. eexists [_]. simpl. repeat split. left. eauto.
  - unfold onJurySigAdded. split; [reflexivity|]. eexists [_]. simpl. repeat split. constructor.
Qed.

Lemma saveRandPair_validators pk h rp s :
  validators (runStoreOp (OpSaveRandPair pk h rp) s).2 = validators s.
Proof.
  unfold runStoreOp, SaveRandPair, durably.
  destruct (faults s) as [|[] fs]; simpl; try reflexivity;
    destruct (randPairs s !! (pk, h)); reflexivity.
Qed.

Lemma saveRandPairs_validators ev privs i app :
  validators (vs (saveRandPairs ev i privs app).2) = validators (vs app).
Proof.
  revert i app. induction privs as [|pr rest IH]; intros i app; simpl; [reflexivity|].
  destruct (prc_pubRandList ev !! i) as [pub|]; [|reflexivity].
  unfold mbind, eff_bind. rewrite vsCall_eq.
  pose proof (saveRandPair_validators (prc_bbnPubKey ev)
                (u64_add (prc_startingHeight ev) (to_uint64 (Z.of_nat i)))
                (mkSchnorrRandPair pr pub) (vs app)) as Hv.
  destruct (runStoreOp _ (vs app)) as [[err|] s']; simpl in *; [assumption|].
  rewrite IH. simpl. assumption.
Qed.

Lemma saveRandPairs_no_pub ev privs i app :
  prc_pubRandList ev = [] -> vs (saveRandPairs ev i privs app).2 = vs app.
Proof.
  intros H. destruct privs as [|pr rest]; simpl; [reflexivity|].
  rewrite H, lookup_nil. reflexivity.
Qed.

Lemma saveRandPairs_writesOk ev privs i app :
  let W := zip privs (drop i (prc_pubRandList ev)) in
  writesOk (length W) (vs app) ->
  let res := saveRandPairs ev i privs app in
  trace res.2 = trace app ++ randPairCalls ev i W /\
  ((length privs <= length (prc_pubRandList ev) - i)%nat ->
     res.1 = Some tt /\ status res.2 = status app) /\
  ((length (prc_pubRandList ev) - i < length privs)%nat ->
     res.1 = None /\ status res.2 = Panic "index out of range" (EvPubRandCommitted ev)).
Proof.
  revert i app. induction privs as [|pr rest IH]; intros i app; simpl.
  - intros _. rewrite app_nil_r.
    split; [reflexivity|]. split; [split; reflexivity|lia].
  - destruct (prc_pubRandList ev !! i) as [pub|] eqn:Hi.
    + rewrite (drop_S _ _ _ Hi). simpl. intros Hok.
      unfold mbind, eff_bind. rewrite vsCall_eq.
      match goal with |- context [runStoreOp ?op (vs app)] =>
        destruct (runStoreOp_ok op (vs app) _ Hok) as [Hnone Hok'];
        destruct (runStoreOp op (vs app)) as [err s'] end.
      simpl in Hnone, Hok'. subst err. simpl.
      match goal with |- context [saveRandPairs ev (S i) rest ?a] =>
        specialize (IH (S i) a Hok') end.
      destruct IH as (Ht & Hle & Hgt). apply lookup_lt_Some in Hi.
      split; [|split; intros ?; [apply Hle|apply Hgt]; lia].
      rewrite Ht. simpl. rewrite <- app_assoc. simpl. unfold randPairCalls.
      rewrite imap_cons. simpl. rewrite Nat.add_0_r. do 2 f_equal.
      apply imap_ext. intros j p _. simpl. do 5 f_equal. lia.
    + intros _. apply lookup_ge_None in Hi. rewrite drop_ge by assumption.
      simpl. rewrite app_nil_r.
      split; [reflexivity|]. split; [lia|split; reflexivity].
Qed.

End HandlerOutcomes.

(** ** An iteration of the event loop *)

Section StepFacts.
  Context {C : Type}.
  Variable handleCreate :
    createValidatorRequest -> ValidatorStore -> (Bytes + error) * ValidatorStore.
  Implicit Types (app : App C) (e : Event).

Lemma trace_receive c app : trace (receive c app) = trace app.
Proof. destruct c; reflexivity. Qed.

Lemma status_receive c app : status (receive c app) = status app.
Proof. destruct c; reflexivity. Qed.

Lemma vs_receive c app : vs (receive c app) = vs app.
Proof. destruct c; reflexivity. Qed.

(** An iteration of the event loop that takes a completion event receives
    it and runs its handler. *)
Lemma eventLoopStep_receive c app app' e :
  eventLoopStep handleCreate c app = Some app' ->
  nextEvent c app = Some e ->
  app' = (onEvent e (receive c app)).2 /\ status app = Running.
Proof.
  unfold eventLoopStep. intros Hstep Hnext.
  destruct (status app) eqn:Hst; try discriminate.
  destruct (eventLoopDone app); try discriminate.
  destruct c; simpl in Hnext; try discriminate.
  - destruct (finalitySigAddedEventChan app) as [|ev rest] eqn:Hq; try discriminate.
    simpl in Hnext. injection Hnext as <-. injection Hstep as <-.
    simpl. rewrite Hq. auto.
  - destruct (validatorRegisteredEventChan app) as [|ev rest] eqn:Hq; try discriminate.
    simpl in Hnext. injection Hnext as <-. injection Hstep as <-.
    simpl. rewrite Hq. auto.
  - destruct (pubRandCommittedEventChan app) as [|ev rest] eqn:Hq; try discriminate.
    simpl in Hnext. injection Hnext as <-. injection Hstep as <-.
    simpl. rewrite Hq. auto.
  - destruct (jurySigAddedEventChan app) as [|ev rest] eqn:Hq; try discriminate.
    simpl in Hnext. injection Hnext as <-. injection Hstep as <-.
    simpl. rewrite Hq. auto.
Qed.

Lemma eventLoopStep_event c app app' e :
  eventLoopStep handleCreate c app = Some app' ->
  nextEvent c app = Some e ->
  exists app0,
    app' = (onEvent e app0).2 /\
    vs app0 = vs app /\ trace app0 = trace app /\ status app0 = Running.
Proof.
  intros Hstep Hnext.
  destruct (eventLoopStep_receive c app app' e Hstep Hnext) as [-> Hst].
  exists (receive c app).
  rewrite vs_receive, trace_receive, status_receive. auto.
Qed.

Lemma saveValidator_ok v s n :
  writesOk (S n) s ->
  (runStoreOp (OpSaveValidator v) s).1 = None /\
  validators (runStoreOp (OpSaveValidator v) s).2 = <[BabylonPk v := v]> (validators s) /\
  randPairs (runStoreOp (OpSaveValidator v) s).2 = randPairs s /\
  writesOk n (runStoreOp (OpSaveValidator v) s).2.
Proof.
  intros H. destruct (runStoreOp_ok (OpSaveValidator v) s n H) as [H1 H2].
  repeat split; try assumption.
  - unfold runStoreOp, SaveValidator, durably in *.
    destruct (faults s) as [|[] fs]; simpl in *; try reflexivity. discriminate.
  - unfold runStoreOp, SaveValidator, durably in *.
    destruct (faults s) as [|[] fs]; simpl in *; try reflexivity.
Qed.

Lemma onPubRandCommitted_writesOk ev app val :
  let W := zip (prc_privRandList ev) (prc_pubRandList ev) in
  let val' := with_LastCommittedHeight (committedHeight ev) val in
  let res := onPubRandCommitted ev app in
  GetValidator (prc_bbnPubKey ev) (vs app) = Some val ->
  writesOk (S (length W)) (vs app) ->
  validators (vs res.2) = <[BabylonPk val := val']> (validators (vs app)) /\
  (prc_pubRandList ev = [] -> randPairs (vs res.2) = randPairs (vs app)) /\
  ((length (prc_privRandList ev) <= length (prc_pubRandList ev))%nat ->
     res.1 = Some tt /\ status res.2 = status app /\
     trace res.2 = trace app ++ Stored (OpSaveValidator val') true ::
       randPairCalls ev 0 W ++
       [Replied (prc_successResponse ev) (commitPubRandResponse (prc_txHash ev))]) /\
  ((length (prc_pubRandList ev) < length (prc_privRandList ev))%nat ->
     res.1 = None /\
     status res.2 = Panic "index out of range" (EvPubRandCommitted ev) /\
     trace res.2 = trace app ++ Stored (OpSaveValidator val') true :: randPairCalls ev 0 W).
Proof.
  intros W val' res Hget Hok. subst res.
  unfold onPubRandCommitted, mbind, eff_bind, vsGet. rewrite Hget, vsCall_eq. fold val'.
  destruct (saveValidator_ok val' (vs app) _ Hok) as (Hnone & Hvals & Hrps & Hok').
  destruct (runStoreOp (OpSaveValidator val') (vs app)) as [err s'].
  simpl in Hnone, Hvals, Hrps, Hok'. subst err. simpl.
  match goal with |- context [saveRandPairs ev 0 _ ?a] =>
    pose proof (saveRandPairs_writesOk ev (prc_privRandList ev) 0 a) as Hloop;
    pose proof (saveRandPairs_validators ev (prc_privRandList ev) 0 a) as Hv;
    pose proof (saveRandPairs_no_pub ev (prc_privRandList ev) 0 a) as Hnp
  end.
  rewrite drop_0, Nat.sub_0_r in Hloop. specialize (Hloop Hok').
  destruct Hloop as (Ht & Hle & Hgt). simpl in Hv, Ht, Hnp.
  destruct (saveRandPairs ev 0 _ _) as [r a'] eqn:Hrun. simpl in *.
  split; [|split; [|split]].
  - destruct r as [[]|]; simpl; rewrite Hv; assumption.
  - intros Hnil. specialize (Hnp Hnil). destruct r as [[]|]; simpl; rewrite Hnp; assumption.
  - intros Hlen. destruct (Hle Hlen) as [-> Hst]. simpl.
    repeat split; try assumption. rewrite Ht, <- !app_assoc. reflexivity.
  - intros Hlen. destruct (Hgt Hlen) as [-> Hst]. simpl.
    repeat split; try assumption. rewrite Ht, <- !app_assoc. reflexivity.
Qed.

End StepFacts.

(** ** The randomness-commitment handler *)

Section CommitFacts.
  Context {C : Type}.
  Implicit Types (app : App C).

Lemma u64_add_to_uint64 a b : u64_add a (to_uint64 b) = (a + b) mod 2 ^ 64.
Proof. unfold u64_add, to_uint64, u64_modulus. apply Zplus_mod_idemp_r. Qed.

Lemma committedHeight_eq ev :
  committedHeight ev =
    (prc_startingHeight ev + Z.of_nat (length (prc_pubRandList ev)) - 1) mod 2 ^ 64.
Proof. unfold committedHeight. rewrite u64_add_to_uint64. f_equal. lia. Qed.

Lemma randPairCalls_cons ev i p W :
  randPairCalls ev i (p :: W) =
    Stored (OpSaveRandPair (prc_bbnPubKey ev)
              (u64_add (prc_startingHeight ev) (to_uint64 (Z.of_nat i)))
              (mkSchnorrRandPair p.1 p.2)) true :: randPairCalls ev (S i) W.
Proof.
  unfold randPairCalls. rewrite imap_cons. rewrite Nat.add_0_r. f_equal.
  apply imap_ext. intros j q _. simpl. do 5 f_equal. lia.
Qed.


Lemma storeCalls_randPairCalls ev W i :
  length (storeCalls (randPairCalls ev i W)) = length W.
Proof.
  revert i. induction W as [|p W IH]; intros i; [reflexivity|].
  rewrite randPairCalls_cons. simpl. rewrite IH. reflexivity.
Qed.

Lemma repliedSlots_randPairCalls ev W i : repliedSlots (randPairCalls ev i W) = [].
Proof.
  revert i. induction W as [|p W IH]; intros i; [reflexivity|].
  rewrite randPairCalls_cons. simpl. apply IH.
Qed.

Lemma saveRandPairs_no_panic ev privs i app msg e :
  (i + length privs <= length (prc_pubRandList ev))%nat ->
  status (saveRandPairs ev i privs app).2 = Panic msg e -> status app = Panic msg e.
Proof.
  revert i app. induction privs as [|pr rest IH]; intros i app Hlen; simpl; [auto|].
  simpl in Hlen. destruct (prc_pubRandList ev !! i) as [pub|] eqn:Hi.
  - unfold mbind, eff_bind. rewrite vsCall_eq.
    destruct (runStoreOp _ (vs app)) as [[err|] s']; simpl; [discriminate|].
    intros H. apply IH in H; [exact H|lia].
  - apply lookup_ge_None in Hi. lia.
Qed.

Lemma saveRandPairs_completes ev privs i app :
  (saveRandPairs ev i privs app).1 = Some tt ->
  (length privs <= length (prc_pubRandList ev) - i)%nat.
Proof.
  revert i app. induction privs as [|pr rest IH]; intros i app; simpl; [lia|].
  destruct (prc_pubRandList ev !! i) as [pub|] eqn:Hi; [|discriminate].
  unfold mbind, eff_bind. rewrite vsCall_eq.
  destruct (runStoreOp _ (vs app)) as [[err|] s']; simpl; [discriminate|].
  intros H. apply IH in H. apply lookup_lt_Some in Hi. lia.
Qed.

Lemma onPubRandCommitted_no_panic ev app msg e :
  (length (prc_privRandList ev) <= length (prc_pubRandList ev))%nat ->
  status (onPubRandCommitted ev app).2 = Panic msg e -> status app = Panic msg e.
Proof.
  intros Hlen. unfold onPubRandCommitted, mbind, eff_bind, vsGet.
  destruct (GetValidator _ (vs app)) as [val|]; [|discriminate].
  rewrite vsCall_eq. destruct (runStoreOp _ (vs app)) as [[err|] s']; simpl; [discriminate|].
  match goal with |- context [saveRandPairs ev 0 _ ?a] =>
    pose proof (saveRandPairs_no_panic ev (prc_privRandList ev) 0 a msg e Hlen) as H end.
  destruct (saveRandPairs ev 0 _ _) as [[[]|] a']; simpl in *; exact H.
Qed.

Lemma onPubRandCommitted_completes ev app :
  (onPubRandCommitted ev app).1 = Some tt ->
  (length (prc_privRandList ev) <= length (prc_pubRandList ev))%nat.
Proof.
  unfold onPubRandCommitted, mbind, eff_bind, vsGet.
  destruct (GetValidator _ (vs app)) as [val|]; [|discriminate].
  rewrite vsCall_eq. destruct (runStoreOp _ (vs app)) as [[err|] s']; simpl; [discriminate|].
  match goal with |- context [saveRandPairs ev 0 _ ?a] =>
    pose proof (saveRandPairs_completes ev (prc_privRandList ev) 0 a) as H end.
  destruct (saveRandPairs ev 0 _ _) as [[[]|] a']; simpl in *;
    [intros _; specialize (H eq_refl); lia|discriminate].
Qed.

(** A handler that leaves a running process running went on to its end. *)
Lemma outcome_running e rs app res :
  outcome e rs app res -> status res.2 = Running -> res.1 = Some tt.
Proof.
  intros (_ & X & _ & _ & _ & H) Hst. destruct res.1 as [[]|]; [reflexivity|].
  destruct H as (_ & [[msg Hm]|[[msg Hm] _]]); congruence.
Qed.

End CommitFacts.

(** ** Randomness commitments: what is persisted, and the index range *)

Section CommitTheorems.
  Context {C : Type}.
  Variable handleCreate :
    createValidatorRequest -> ValidatorStore -> (Bytes + error) * ValidatorStore.
  Implicit Types (app : App C).


(** X16.  When the event loop takes a randomness-commitment
    completion event whose public list is empty, for a validator that is in
    the store, and the save succeeds, then it sets [LastCommittedHeight] to
    start - 1 modulo 2^64 (2^64 - 1 for start 0) and stores no randomness
    pair; it replies with the transaction hash if the secret list is empty
    too, and otherwise panics on the first index without a reply. *)
Theorem pub_rand_committed_empty c app app' ev val :
  eventLoopStep handleCreate c app = Some app' ->
  nextEvent c app = Some (EvPubRandCommitted ev) ->
  GetValidator (prc_bbnPubKey ev) (vs app) = Some val ->
  prc_pubRandList ev = [] ->
  writesOk 1 (vs app) ->
  let val' := with_LastCommittedHeight ((prc_startingHeight ev - 1) mod 2 ^ 64) val in
  GetValidator (BabylonPk val) (vs app') = Some val' /\
  (prc_startingHeight ev = 0 -> LastCommittedHeight val' = 2 ^ 64 - 1) /\
  randPairs (vs app') = randPairs (vs app) /\
  storedHeights (emitted app app') = [] /\
  (prc_privRandList ev = [] ->
   emitted app app' =
     [Stored (OpSaveValidator val') true;
      Replied (prc_successResponse ev) (commitPubRandResponse (prc_txHash ev))] /\
   status app' = Running) /\
  (prc_privRandList ev <> [] ->
   repliedSlots (emitted app app') = [] /\
   status app' = Panic "index out of range" (EvPubRandCommitted ev)).
Proof.
  intros Hstep Hnext Hget Hpub Hok val'.
  destruct (eventLoopStep_event _ _ _ _ _ Hstep Hnext) as (app0 & -> & Hvs & Htr & Hst).
  simpl. rewrite <- Hvs in Hget, Hok. rewrite <- Hvs.
  assert (Hval : with_LastCommittedHeight (committedHeight ev) val = val').
  { unfold val'. rewrite committedHeight_eq, Hpub. simpl. do 2 f_equal. lia. }
  assert (HW : zip (prc_privRandList ev) (prc_pubRandList ev) = []).
  { rewrite Hpub. destruct (prc_privRandList ev); reflexivity. }
  destruct (onPubRandCommitted_writesOk ev app0 val Hget) as (Hvals & Hrp & Hle & Hgt).
  { rewrite HW. exact Hok. }
  rewrite HW, Hval in *. simpl in Hle, Hgt. rewrite Hpub in Hle, Hgt. simpl in Hle, Hgt.
  split; [unfold GetValidator; rewrite Hvals; apply lookup_insert_eq|].
  split; [intros ->; reflexivity|].
  split; [auto|].
  assert (Hcases : (length (prc_privRandList ev) <= 0)%nat \/
                   (0 < length (prc_privRandList ev))%nat) by lia.
  split; [|split].
  - destruct Hcases as [H|H].
    + destruct (Hle H) as (_ & _ & Ht).
      rewrite (emitted_app app _ _ (eq_trans Ht (f_equal (fun t => t ++ _) Htr))).
      reflexivity.
    + destruct (Hgt H) as (_ & _ & Ht).
      rewrite (emitted_app app _ _ (eq_trans Ht (f_equal (fun t => t ++ _) Htr))).
      reflexivity.
  - intros Hnil. rewrite Hnil in Hle. destruct (Hle (le_n 0)) as (_ & Hst' & Ht).
    split; [|congruence].
    apply emitted_app. rewrite Ht, Htr. reflexivity.
  - intros Hne. destruct (prc_privRandList ev) as [|pr rest] eqn:Hp; [congruence|].
    destruct (Hgt ltac:(simpl; lia)) as (_ & Hst' & Ht).
    split; [|exact Hst'].
    rewrite (emitted_app app _ _ (eq_trans Ht (f_equal (fun t => t ++ _) Htr))).
    reflexivity.
Qed.

(** C10.  The handler of a randomness-commitment completion event indexes
    the public list at every index of the secret list and checks neither
    length: it never panics when the secret list is no longer than the
    public list; it runs to its end only if that is so; and when the secret
    list is longer (the validator in the store, the writes succeeding) it
    saves the validator and one pair per public value and then panics on
    the first index past the public list. *)
Theorem pub_rand_committed_index_range c app app' ev :
  eventLoopStep handleCreate c app = Some app' ->
  nextEvent c app = Some (EvPubRandCommitted ev) ->
  ((length (prc_privRandList ev) <= length (prc_pubRandList ev))%nat ->
   forall msg e, status app' <> Panic msg e) /\
  (status app' = Running ->
   (length (prc_privRandList ev) <= length (prc_pubRandList ev))%nat) /\
  (forall val,
     GetValidator (prc_bbnPubKey ev) (vs app) = Some val ->
     writesOk (S (length (prc_pubRandList ev))) (vs app) ->
     (length (prc_pubRandList ev) < length (prc_privRandList ev))%nat ->
     status app' = Panic "index out of range" (EvPubRandCommitted ev) /\
     length (storeCalls (emitted app app')) = S (length (prc_pubRandList ev)) /\
     repliedSlots (emitted app app') = []).
Proof.
  intros Hstep Hnext.
  destruct (eventLoopStep_event _ _ _ _ _ Hstep Hnext) as (app0 & -> & Hvs & Htr & Hst).
  simpl. split; [|split].
  - intros Hlen msg e Hp. apply onPubRandCommitted_no_panic in Hp; [congruence|exact Hlen].
  - intros Hrun. apply onPubRandCommitted_completes with (app := app0).
    apply (outcome_running (EvPubRandCommitted ev) _ app0 _
             (onEvent_outcome (EvPubRandCommitted ev) app0) Hrun).
  - intros val Hget Hok Hlen. rewrite <- Hvs in Hget, Hok.
    assert (HW : length (zip (prc_privRandList ev) (prc_pubRandList ev)) =
                 length (prc_pubRandList ev)) by (rewrite length_zip; lia).
    destruct (onPubRandCommitted_writesOk ev app0 val Hget) as (_ & _ & _ & Hgt).
    { rewrite HW. exact Hok. }
    destruct (Hgt Hlen) as (_ & Hst' & Ht). split; [exact Hst'|].
    rewrite (emitted_app app _ _ (eq_trans Ht (f_equal (fun t => t ++ _) Htr))).
    simpl. rewrite storeCalls_randPairCalls, repliedSlots_randPairCalls, HW. auto.
Qed.

End CommitTheorems.

(** ** Jury-signature completions and fatal faults *)

Section EventTheorems.
  Context {C : Type}.
  Variable handleCreate :
    createValidatorRequest -> ValidatorStore -> (Bytes + error) * ValidatorStore.
  Implicit Types (app : App C).

(** C7.  When the event loop takes a jury-signature completion event, all it
    does is reply with the transaction hash on the event's slot: the store
    (every validator record with its status and heights, every randomness
    record) is what it was, and the process runs on. *)
Theorem jury_sig_added_frame c app app' ev :
  eventLoopStep handleCreate c app = Some app' ->
  nextEvent c app = Some (EvJurySigAdded ev) ->
  emitted app app' = [Replied (jsa_successResponse ev) (addJurySigResponse (jsa_txHash ev))] /\
  vs app' = vs app /\
  (forall pk, GetValidator pk (vs app') = GetValidator pk (vs app)) /\
  randPairs (vs app') = randPairs (vs app) /\
  status app' = Running.
Proof.
  intros Hstep Hnext.
  destruct (eventLoopStep_event _ _ _ _ _ Hstep Hnext) as (app0 & -> & Hvs & Htr & Hst).
  simpl. unfold onJurySigAdded, reply, record. simpl. rewrite Hvs.
  split; [apply emitted_app; simpl; rewrite Htr; reflexivity|]. auto.
Qed.

Lemma onEvent_absent e app :
  (forall ev, e <> EvJurySigAdded ev) ->
  GetValidator (eventKey e) (vs app) = None ->
  exists msg, status (onEvent e app).2 = Fatal msg e.
Proof.
  intros Hj Hnone. destruct e as [ev|ev|ev|ev]; simpl in *.
  - unfold onFinalitySigAdded, mbind, eff_bind, vsGet. rewrite Hnone. simpl. eauto.
  - unfold onValidatorRegistered, mbind, eff_bind, vsGet. rewrite Hnone. simpl. eauto.
  - unfold onPubRandCommitted, mbind, eff_bind, vsGet. rewrite Hnone. simpl. eauto.
  - destruct (Hj ev eq_refl).
Qed.

(** C5.  When the event loop takes a registration, finality-signature or
    randomness-commitment completion event and the validator it names is not
    in the store, or a store call made for it fails, the process exits
    fatally: the slot of the event gets no reply, and neither the event loop
    nor the submission loop goes through another iteration. *)
Theorem consistency_fault_is_fatal c app app' e :
  eventLoopStep handleCreate c app = Some app' ->
  nextEvent c app = Some e ->
  (forall ev, e <> EvJurySigAdded ev) ->
  GetValidator (eventKey e) (vs app) = None \/
    (exists op, (op, false) ∈ storeCalls (emitted app app')) ->
  (exists msg, status app' = Fatal msg e) /\
  repliedSlots (emitted app app') = [] /\
  (forall c' rest, eventLoop handleCreate (c' :: rest) app' = None) /\
  (forall bc c' rest, handleSentToBabylonLoop bc (c' :: rest) app' = None).
Proof.
  intros Hstep Hnext Hj Hfault.
  destruct (eventLoopStep_event _ _ _ _ _ Hstep Hnext) as (app0 & -> & Hvs & Htr & Hst).
  destruct (onEvent_outcome e app0) as (_ & X & Ht & _ & _ & Hres).
  assert (Hem : emitted app (onEvent e app0).2 = X).
  { apply emitted_app. rewrite Ht, Htr. reflexivity. }
  rewrite Hem in *.
  assert (Hfatal : exists msg, status (onEvent e app0).2 = Fatal msg e).
  { destruct Hfault as [Habs|[op Hop]].
    - apply onEvent_absent; [exact Hj|rewrite Hvs; exact Habs].
    - destruct (onEvent e app0).1.
      + destruct Hres as (_ & _ & Hall). rewrite Forall_forall in Hall.
        specialize (Hall _ Hop). discriminate.
      + destruct Hres as (_ & [Hf|[_ Hall]]); [exact Hf|].
        rewrite Forall_forall in Hall. specialize (Hall _ Hop). discriminate. }
  destruct Hfatal as [msg Hmsg].
  split; [eauto|]. split.
  - destruct (onEvent e app0).1.
    + destruct Hres as (Hsame & _). congruence.
    + destruct Hres as (Hr & _). exact Hr.
  - split; intros; simpl; [unfold eventLoopStep|unfold handleSentToBabylonStep];
      rewrite Hmsg; reflexivity.
Qed.

End EventTheorems.



(** Nothing committed from height 0: [LastCommittedHeight] wraps to
    2^64 - 1, no record is stored, and the reply is the transaction hash. *)
Lemma pub_rand_committed_empty_witness :
  let app := deliver (EvPubRandCommitted evNone) app1 in
  let app' := default app (eventLoopStep createValidator CasePubRandCommitted app) in
  GetValidator pk1 (vs app') = Some (with_LastCommittedHeight (2 ^ 64 - 1) val1) /\
  randPairs (vs app') = randPairs (vs app) /\
  repliesTo 5 (trace app') = [commitPubRandResponse ["9"%byte]].
Proof.
  intros app app'.
  destruct (pub_rand_committed_empty createValidator CasePubRandCommitted
              app app' evNone val1) as (Hget & _ & Hrp & _ & _ & _);
    [reflexivity|reflexivity|reflexivity|reflexivity|apply Forall_nil_2|].
  split; [exact Hget|]. split; [exact Hrp|reflexivity].
Defined.


(** One secret value, no public value: the validator is saved and the
    handler panics at index 0. *)
Lemma pub_rand_committed_index_range_witness :
  let app := deliver (EvPubRandCommitted evNoPub) app1 in
  let app' := default app (eventLoopStep createValidator CasePubRandCommitted app) in
  status app' = Panic "index out of range" (EvPubRandCommitted evNoPub) /\
  length (storeCalls (emitted app app')) = 1%nat /\
  repliedSlots (emitted app app') = [].
Proof.
  intros app app'.
  destruct (pub_rand_committed_index_range createValidator CasePubRandCommitted
              app app' evNoPub) as (_ & _ & H); [reflexivity|reflexivity|].
  apply (H val1); [reflexivity|apply Forall_nil_2|simpl; lia].
Defined.

(** A jury-signature completion on [store1]: one reply, the store as it
    was. *)
Lemma jury_sig_added_frame_witness :
  let app := deliver (EvJurySigAdded evJury) app1 in
  let app' := default app (eventLoopStep createValidator CaseJurySigAdded app) in
  emitted app app' = [Replied 4 (addJurySigResponse ["6"%byte])] /\ vs app' = store1.
Proof.
  intros app app'.
  destruct (jury_sig_added_frame createValidator CaseJurySigAdded app app' evJury)
    as (H1 & H2 & _); [reflexivity|reflexivity|].
  split; [exact H1|exact H2].
Defined.

(** A registration completion for an identity that is not in the store, and
    a vote whose write fails: both exit fatally without a reply. *)
Lemma consistency_fault_is_fatal_witness :
  let app := deliver (EvValidatorRegistered evGhost) app1 in
  let app' := default app (eventLoopStep createValidator CaseValidatorRegistered app) in
  let bad := deliver (EvFinalitySigAdded evVote) (initApp storeFailing tt) in
  let bad' := default bad (eventLoopStep createValidator CaseFinalitySigAdded bad) in
  ((exists msg, status app' = Fatal msg (EvValidatorRegistered evGhost)) /\
   repliedSlots (emitted app app') = [] /\
   (forall c' rest, eventLoop createValidator (c' :: rest) app' = None)) /\
  ((exists msg, status bad' = Fatal msg (EvFinalitySigAdded evVote)) /\
   repliedSlots (emitted bad bad') = [] /\
   (forall c' rest, eventLoop createValidator (c' :: rest) bad' = None)).
Proof.
  intros app app' bad bad'. split.
  - destruct (consistency_fault_is_fatal createValidator CaseValidatorRegistered
                app app' (EvValidatorRegistered evGhost)) as (H1 & H2 & H3 & _);
      [reflexivity|reflexivity|discriminate|left; reflexivity|].
    split; [exact H1|]. split; [exact H2|exact H3].
  - destruct (consistency_fault_is_fatal createValidator CaseFinalitySigAdded
                bad bad' (EvFinalitySigAdded evVote)) as (H1 & H2 & H3 & _);
      [reflexivity|reflexivity|discriminate| |].
    + right. exists (OpSetValidatorLastVotedHeight val1 101).
      apply list_elem_of_In. vm_compute. auto.
    + split; [exact H1|]. split; [exact H2|exact H3].
Defined.

(** ** [LastVotedHeight] along a run *)

Section VotedHeight.
  Context {C : Type}.
  Variable bc : BabylonClient C.
  Variable handleCreate :
    createValidatorRequest -> ValidatorStore -> (Bytes + error) * ValidatorStore.
  Implicit Types (app : App C) (s : ValidatorStore).

Lemma voted_le_refl s : voted_le s s.
Proof. intros pk v H. exists v. split; [exact H|lia]. Qed.

Lemma voted_le_trans s1 s2 s3 : voted_le s1 s2 -> voted_le s2 s3 -> voted_le s1 s3.
Proof.
  intros H12 H23 pk v H. destruct (H12 pk v H) as (v2 & H2 & Hle2).
  destruct (H23 pk v2 H2) as (v3 & H3 & Hle3). exists v3. split; [exact H3|lia].
Qed.

Lemma voted_same s s' :
  validators s' = validators s -> store_wf s -> store_wf s' /\ voted_le s s'.
Proof.
  intros Heq Hwf. split.
  - intros pk v. rewrite Heq. apply Hwf.
  - intros pk v H. exists v. rewrite Heq. split; [exact H|lia].
Qed.

Lemma voted_update s s' val v :
  store_wf s ->
  validators s !! BabylonPk val = Some val ->
  BabylonPk v = BabylonPk val ->
  LastVotedHeight val <= LastVotedHeight v ->
  validators s' = <[BabylonPk v := v]> (validators s) ->
  store_wf s' /\ voted_le s s'.
Proof.
  intros Hwf Hval Hpk Hle Heq. split.
  - intros pk w. rewrite Heq, lookup_insert. case_decide.
    + intros [= <-]. congruence.
    + apply Hwf.
  - intros pk w Hw. rewrite Heq, lookup_insert. case_decide.
    + exists v. split; [reflexivity|]. subst pk. rewrite Hpk, Hval in Hw.
      injection Hw as <-. exact Hle.
    + exists w. split; [exact Hw|lia].
Qed.

Lemma saveValidator_validators v s :
  validators (SaveValidator v s).2 = validators s \/
  validators (SaveValidator v s).2 = <[BabylonPk v := v]> (validators s).
Proof.
  unfold SaveValidator, durably. destruct (faults s) as [|[] fs]; simpl; auto.
Qed.

(** A validator read from the store and saved again with the same identity
    and no lower [LastVotedHeight]. *)
Lemma voted_resave s val v :
  store_wf s ->
  GetValidator (BabylonPk val) s = Some val ->
  BabylonPk v = BabylonPk val ->
  LastVotedHeight val <= LastVotedHeight v ->
  store_wf (SaveValidator v s).2 /\ voted_le s (SaveValidator v s).2.
Proof.
  intros Hwf Hget Hpk Hle.
  destruct (saveValidator_validators v s) as [H|H].
  - apply voted_same; assumption.
  - eapply voted_update; eassumption.
Qed.

Lemma getValidator_key s pk val :
  store_wf s -> GetValidator pk s = Some val -> BabylonPk val = pk.
Proof. intros Hwf H. apply Hwf. exact H. Qed.

Lemma onEvent_voted e app :
  store_wf (vs app) ->
  store_wf (vs (onEvent e app).2) /\ voted_le (vs app) (vs (onEvent e app).2).
Proof.
  intros Hwf. destruct e as [ev|ev|ev|ev]; simpl.
  - unfold onFinalitySigAdded, mbind, eff_bind, vsGet.
    destruct (GetValidator _ (vs app)) as [val|] eqn:Hget;
      [|simpl; split; [exact Hwf|apply voted_le_refl]].
    rewrite vsCall_eq.
    pose proof (getValidator_key _ _ _ Hwf Hget) as Hk. rewrite <- Hk in Hget.
    assert (H : store_wf (runStoreOp (OpSetValidatorLastVotedHeight val (fsa_height ev))
                            (vs app)).2 /\
                voted_le (vs app)
                  (runStoreOp (OpSetValidatorLastVotedHeight val (fsa_height ev)) (vs app)).2).
    { unfold runStoreOp, SetValidatorLastVotedHeight.
      apply voted_resave with (val := val); try assumption;
        case_decide; simpl; try reflexivity; lia. }
    destruct (runStoreOp _ (vs app)) as [[err|] s']; simpl in *; exact H.
  - unfold onValidatorRegistered, mbind, eff_bind, vsGet.
    destruct (GetValidator _ (vs app)) as [val|] eqn:Hget;
      [|simpl; split; [exact Hwf|apply voted_le_refl]].
    rewrite vsCall_eq.
    pose proof (getValidator_key _ _ _ Hwf Hget) as Hk. rewrite <- Hk in Hget.
    assert (H : store_wf (runStoreOp (OpSetValidatorStatus val ValidatorStatus_REGISTERED)
                            (vs app)).2 /\
                voted_le (vs app)
                  (runStoreOp (OpSetValidatorStatus val ValidatorStatus_REGISTERED) (vs app)).2).
    { unfold runStoreOp, SetValidatorStatus.
      apply voted_resave with (val := val); try assumption; simpl; try reflexivity; lia. }
    destruct (runStoreOp _ (vs app)) as [[err|] s']; simpl in *; exact H.
  - unfold onPubRandCommitted, mbind, eff_bind, vsGet.
    destruct (GetValidator _ (vs app)) as [val|] eqn:Hget;
      [|simpl; split; [exact Hwf|apply voted_le_refl]].
    rewrite vsCall_eq.
    pose proof (getValidator_key _ _ _ Hwf Hget) as Hk. rewrite <- Hk in Hget.
    set (val' := with_LastCommittedHeight (committedHeight ev) val).
    assert (H : store_wf (runStoreOp (OpSaveValidator val') (vs app)).2 /\
                voted_le (vs app) (runStoreOp (OpSaveValidator val') (vs app)).2).
    { unfold runStoreOp.
      apply voted_resave with (val := val); try assumption; simpl; try reflexivity; lia. }
    destruct (runStoreOp _ (vs app)) as [[err|] s']; simpl in *; [exact H|].
    match goal with |- context [saveRandPairs ev 0 _ ?a] =>
      pose proof (saveRandPairs_validators ev (prc_privRandList ev) 0 a) as Hv end.
    destruct H as [Hwf' Hle'].
    destruct (saveRandPairs ev 0 _ _) as [[[]|] a']; simpl in *;
      (destruct (voted_same s' (vs a') Hv Hwf') as [H1 H2];
       split; [exact H1|eapply voted_le_trans; eassumption]).
  - unfold onJurySigAdded. simpl. split; [exact Hwf|apply voted_le_refl].
Qed.

Lemma handleSentToBabylonStep_vs c app app' :
  handleSentToBabylonStep bc c app = Some app' -> vs app' = vs app.
Proof.
  unfold handleSentToBabylonStep. intros H.
  destruct (status app); try discriminate. destruct (sendLoopDone app); try discriminate.
  destruct c.
  - destruct (addFinalitySigRequestChan app) as [|req rest]; try discriminate.
    injection H as <-. unfold onAddFinalitySigRequest, mbind, eff_bind, call. simpl.
    destruct (SubmitFinalitySig _ _ _ _ _ _) as [[tx|err] st]; reflexivity.
  - destruct (registerValidatorRequestChan app) as [|req rest]; try discriminate.
    injection H as <-. unfold onRegisterValidatorRequest, mbind, eff_bind, call. simpl.
    destruct (RegisterValidator _ _ _ _ _) as [[tx|err] st]; reflexivity.
  - destruct (commitPubRandRequestChan app) as [|req rest]; try discriminate.
    injection H as <-. unfold onCommitPubRandRequest, mbind, eff_bind, call. simpl.
    destruct (CommitPubRandList _ _ _ _ _ _) as [[tx|err] st]; reflexivity.
  - destruct (addJurySigRequestChan app) as [|req rest]; try discriminate.
    injection H as <-. unfold onAddJurySigRequest, mbind, eff_bind, call. simpl.
    destruct (SubmitJurySig _ _ _ _ _) as [[tx|err] st]; reflexivity.
  - destruct (quit app); try discriminate. injection H as <-. reflexivity.
Qed.

Lemma eventLoopStep_voted c app app' :
  create_contract handleCreate ->
  store_wf (vs app) ->
  eventLoopStep handleCreate c app = Some app' ->
  store_wf (vs app') /\ voted_le (vs app) (vs app').
Proof.
  intros Hc Hwf Hstep.
  destruct (nextEvent c app) as [e|] eqn:Hnext.
  - destruct (eventLoopStep_event _ _ _ _ _ Hstep Hnext) as (app0 & -> & Hvs & _ & _).
    rewrite <- Hvs in *. apply onEvent_voted. exact Hwf.
  - unfold eventLoopStep in Hstep.
    destruct (status app); try discriminate. destruct (eventLoopDone app); try discriminate.
    destruct c; simpl in Hnext.
    + destruct (createValidatorRequestChan app) as [|req rest]; try discriminate.
      injection Hstep as <-. unfold onCreateValidatorRequest. simpl.
      specialize (Hc req (vs app) Hwf).
      destruct (handleCreate req (vs app)) as [[resp|err] s']; simpl in *; exact Hc.
    + destruct (finalitySigAddedEventChan app); discriminate.
    + destruct (validatorRegisteredEventChan app); discriminate.
    + destruct (pubRandCommittedEventChan app); discriminate.
    + destruct (jurySigAddedEventChan app); discriminate.
    + destruct (quit app); try discriminate. injection Hstep as <-. simpl.
      split; [exact Hwf|apply voted_le_refl].
Qed.

Lemma sysStep_voted (st : SysStep) app app' :
  create_contract handleCreate ->
  store_wf (vs app) ->
  sysStep bc handleCreate st app = Some app' ->
  store_wf (vs app') /\ voted_le (vs app) (vs app').
Proof.
  intros Hc Hwf Hstep. destruct st as [r| |c|c]; simpl in Hstep.
  - destruct (status app); try discriminate. injection Hstep as <-.
    apply voted_same; [|exact Hwf]. destruct r; reflexivity.
  - destruct (status app); try discriminate. injection Hstep as <-.
    apply voted_same; [reflexivity|exact Hwf].
  - apply handleSentToBabylonStep_vs in Hstep. apply voted_same; [|exact Hwf].
    rewrite Hstep. reflexivity.
  - eapply eventLoopStep_voted; eassumption.
Qed.

(** C2.  Along every run of the process (callers submitting, the submission
    loop and the event loop taking any of their cases in any order), every
    validator of the store stays in the store and its [LastVotedHeight]
    never decreases; and the event loop, taking a finality-signature
    completion event for a stored validator with the write succeeding,
    leaves [LastVotedHeight] at the event's height if that is greater than
    the stored one and as it was otherwise. *)
Theorem last_voted_height_monotone sched app app' :
  create_contract handleCreate ->
  store_wf (vs app) ->
  run bc handleCreate sched app = Some app' ->
  (store_wf (vs app') /\ voted_le (vs app) (vs app')) /\
  (forall c (a a' : App C) ev val,
     store_wf (vs a) ->
     eventLoopStep handleCreate c a = Some a' ->
     nextEvent c a = Some (EvFinalitySigAdded ev) ->
     GetValidator (fsa_bbnPubKey ev) (vs a) = Some val ->
     writesOk 1 (vs a) ->
     GetValidator (fsa_bbnPubKey ev) (vs a') =
       Some (if decide (LastVotedHeight val < fsa_height ev)
             then with_LastVotedHeight (fsa_height ev) val else val)).
Proof.
  intros Hc Hwf Hrun. split.
  - revert app Hwf Hrun. induction sched as [|st rest IH]; intros app Hwf Hrun; simpl in Hrun.
    + injection Hrun as <-. split; [exact Hwf|apply voted_le_refl].
    + destruct (sysStep bc handleCreate st app) as [app1|] eqn:Hs; [|discriminate].
      destruct (sysStep_voted _ _ _ Hc Hwf Hs) as [Hwf1 Hle1].
      destruct (IH app1 Hwf1 Hrun) as [Hwf' Hle'].
      split; [exact Hwf'|eapply voted_le_trans; eassumption].
  - intros c a a' ev val Hwfa Hstep Hnext Hget Hok.
    destruct (eventLoopStep_event _ _ _ _ _ Hstep Hnext) as (a0 & -> & Hvs & _ & _).
    rewrite <- Hvs in *. simpl.
    unfold onFinalitySigAdded, mbind, eff_bind, vsGet. rewrite Hget, vsCall_eq.
    pose proof (getValidator_key _ _ _ Hwfa Hget) as Hk.
    set (v := if decide (LastVotedHeight val < fsa_height ev)
              then with_LastVotedHeight (fsa_height ev) val else val).
    assert (Hkv : BabylonPk v = fsa_bbnPubKey ev) by (unfold v; case_decide; exact Hk).
    destruct (saveValidator_ok v (vs a0) 0 Hok) as (_ & Hvals & _).
    change (runStoreOp (OpSaveValidator v) (vs a0))
      with (runStoreOp (OpSetValidatorLastVotedHeight val (fsa_height ev)) (vs a0)) in Hvals.
    destruct (runStoreOp _ (vs a0)) as [[err|] s']; simpl in *;
      unfold GetValidator; rewrite Hvals, <- Hkv; apply lookup_insert_eq.
Qed.

End VotedHeight.

Lemma createValidator_contract : create_contract createValidator.
Proof.
  intros req s Hwf. unfold createValidator.
  destruct (validators s !! cvr_payload req) eqn:Hlook; simpl.
  - split; [exact Hwf|]. intros pk v H. exists v. split; [exact H|lia].
  - set (v := mkStoreValidator (cvr_payload req) [] ValidatorStatus_CREATED 0 0).
    assert (H : store_wf (SaveValidator v s).2 /\ voted_le s (SaveValidator v s).2).
    { destruct (saveValidator_validators v s) as [H|H].
      - apply voted_same; assumption.
      - split.
        + intros pk w. rewrite H, lookup_insert. case_decide.
          * intros [= <-]. assumption.
          * apply Hwf.
        + intros pk w Hw. rewrite H, lookup_insert. case_decide.
          * simpl in *. congruence.
          * exists w. split; [exact Hw|lia]. }
    destruct (SaveValidator v s) as [[err|] s']; exact H.
Qed.

Lemma store1_wf : store_wf store1.
Proof.
  intros pk v. unfold store1. simpl. rewrite lookup_singleton. case_decide.
  - intros [= <-]. subst pk. reflexivity.
  - discriminate.
Qed.

(** The scenario of the spec: a vote at height 101 and then one at height
    100 leave [LastVotedHeight] at 101. *)
Lemma last_voted_height_monotone_witness :
  let sched :=
    [Submit (reqVote 101 1); SendLoop CaseAddFinalitySigRequest; EventLoop CaseFinalitySigAdded;
     Submit (reqVote 100 2); SendLoop CaseAddFinalitySigRequest; EventLoop CaseFinalitySigAdded] in
  let app' := default app1 (run pickyClient createValidator sched app1) in
  voted_le store1 (vs app') /\
  (LastVotedHeight <$> GetValidator pk1 (vs app')) = Some 101.
Proof.
  intros sched app'.
  assert (Hrun : run pickyClient createValidator sched app1 = Some app')
    by (vm_compute; reflexivity).
  destruct (last_voted_height_monotone pickyClient createValidator sched app1 app'
              createValidator_contract store1_wf Hrun) as [[_ Hle] _].
  split; [exact Hle|vm_compute; reflexivity].
Defined.

(** ** The jury reactor *)

Section JuryTheorems.
  Context {E : Type}.
  Variable getPending : E -> (list Delegation + error) * E.
  Variable addJurySig : Delegation -> E -> (Bytes + error) * E.
  Implicit Types (r : Reactor E).

(** Two records, one after the other, make one. *)
Lemma juryCalls_app t1 t2 due e e1 e2 :
  juryCalls getPending addJurySig t1 due e e1 ->
  juryCalls getPending addJurySig t2 None e1 e2 ->
  juryCalls getPending addJurySig (t1 ++ t2) due e e2.
Proof.
  revert due e. induction t1 as [|a t1 IH]; intros due e H1 H2; simpl in *.
  - destruct H1 as [-> ->]. exact H2.
  - destruct due as [line|].
    + destruct H1 as [Ha H1]. split; [exact Ha|]. apply IH; assumption.
    + destruct a as [res|d res|lvl msg pk]; [| |destruct H1];
        destruct H1 as [Ha H1]; (split; [exact Ha|]); apply IH; assumption.
Qed.

Lemma addJurySignatures_spec dels r :
  let r' := addJurySignatures addJurySig dels r in
  reactorDone r' = reactorDone r /\
  exists X, jtrace r' = jtrace r ++ X /\
    juryCalls getPending addJurySig X None (env r) (env r') /\
    fetched X = [] /\ fetchedDelegations X = [] /\
    attempted X = dels /\ loggedFailures X = failedAttempts X.
Proof.
  revert r. induction dels as [|d rest IH]; intros r; simpl.
  - split; [reflexivity|]. exists []. rewrite app_nil_r. simpl. repeat split; auto.
  - destruct (addJurySig d (env r)) as [res e'] eqn:Hcall.
    match goal with |- context [addJurySignatures _ rest ?r0] => specialize (IH r0) end.
    simpl in IH. destruct IH as (Hd & X & Ht & Hc & Hf & Hfd & Ha & Hl).
    split; [exact Hd|]. rewrite Ht. destruct res as [resp|err].
    + exists (Attempted d (inl resp) :: X).
      split; [rewrite <- app_assoc; reflexivity|].
      split; [simpl; rewrite Hcall; simpl; split; [reflexivity|exact Hc]|].
      repeat split; [exact Hf|exact Hfd|simpl; f_equal; exact Ha|exact Hl].
    + eexists (Attempted d (inr err) :: JuryLogged ErrorLevel _ (Some (del_BtcPk d)) :: X).
      split; [rewrite <- !app_assoc; reflexivity|].
      split; [simpl; rewrite Hcall; simpl; repeat split; exact Hc|].
      repeat split; [exact Hf|exact Hfd|simpl; f_equal; exact Ha|simpl; f_equal; exact Hl].
Qed.

(** A tick: the fetch, then either its error line or the attempts. *)
Lemma onJurySigTick_spec r :
  let r' := onJurySigTick getPending addJurySig r in
  reactorDone r' = reactorDone r /\
  exists X, jtrace r' = jtrace r ++ Fetched (getPending (env r)).1 :: X /\
    juryCalls getPending addJurySig (Fetched (getPending (env r)).1 :: X) None
      (env r) (env r') /\
    match (getPending (env r)).1 with
    | inr err => X = [JuryLogged ErrorLevel "failed to get pending delegations" None]
    | inl dels =>
        fetched X = [] /\ fetchedDelegations X = [] /\
        attempted X = dels /\ loggedFailures X = failedAttempts X
    end.
Proof.
  unfold onJurySigTick. destruct (getPending (env r)) as [[dels|err] e'] eqn:Hget; simpl.
  - match goal with |- context [addJurySignatures _ dels ?r0] =>
      destruct (addJurySignatures_spec dels r0) as (Hd & X & Ht & Hc & Hrest) end.
    simpl in Hd, Ht, Hc. split; [exact Hd|].
    exists X. rewrite Ht, <- app_assoc, Hget. simpl. auto.
  - split; [reflexivity|]. eexists. rewrite <- app_assoc, Hget. simpl.
    repeat split.
Qed.

Lemma jurySigTick_ready quitClosed r :
  reactorDone r = false ->
  is_Some (jurySigSubmissionLoop getPending addJurySig quitClosed [CaseJurySigTick] r).
Proof. intros H. simpl. unfold jurySigSubmissionStep. rewrite H. eauto. Qed.

(** C8.  On a timer tick the jury reactor fetches the pending delegations.
    If the fetch fails it logs the error and does nothing else in this tick;
    if it succeeds it attempts every delegation of the list, in order,
    whatever the outcome of the earlier attempts, and logs each failed
    attempt with the delegation's key.  What the tick records is what
    [getPendingDelegationsForAll] and [AddJurySignature] returned, each
    called at the state the call before it left, and the rest of the app
    is left in the state after the last call.  Either way the loop is
    still running, ready for the next tick. *)
Theorem jury_tick_survives_errors quitClosed r r' :
  jurySigSubmissionStep getPending addJurySig quitClosed CaseJurySigTick r = Some r' ->
  reactorDone r' = false /\
  is_Some (jurySigSubmissionLoop getPending addJurySig quitClosed [CaseJurySigTick] r') /\
  exists X, jtrace r' = jtrace r ++ Fetched (getPending (env r)).1 :: X /\
    juryCalls getPending addJurySig (Fetched (getPending (env r)).1 :: X) None
      (env r) (env r') /\
    match (getPending (env r)).1 with
    | inr err =>
        X = [JuryLogged ErrorLevel "failed to get pending delegations" None]
    | inl dels =>
        attempted X = dels /\ loggedFailures X = failedAttempts X
    end.
Proof.
  intros Hstep. unfold jurySigSubmissionStep in Hstep.
  destruct (reactorDone r) eqn:Hdone; [discriminate|].
  injection Hstep as <-.
  destruct (onJurySigTick_spec r) as (Hd & X & Ht & Hc & Hm). simpl in Hd, Ht, Hc.
  rewrite Hdone in Hd. split; [exact Hd|].
  split; [apply jurySigTick_ready; exact Hd|].
  exists X. split; [exact Ht|]. split; [exact Hc|].
  destruct (getPending (env r)).1 as [dels|err]; [|exact Hm].
  destruct Hm as (_ & _ & Ha & Hl). auto.
Qed.

End JuryTheorems.

(** Two pending delegations, signing fails for the first: both are
    attempted, the failure of the first is logged, and the three calls
    (the fetch and two attempts) each moved the rest of the app on. *)
Lemma jury_tick_survives_errors_witness :
  let r := mkReactor 0%nat [] false in
  let r' := default r (jurySigSubmissionStep pendingXY signButX false CaseJurySigTick r) in
  reactorDone r' = false /\
  attempted (jtrace r') = [delX; delY] /\
  loggedFailures (jtrace r') = [["x"%byte]] /\
  juryCalls pendingXY signButX (jtrace r') None 0%nat 3%nat.
Proof.
  intros r r'.
  destruct (jury_tick_survives_errors pendingXY signButX false r r' eq_refl)
    as (Hd & _ & X & Ht & Hc & Hm).
  change (jtrace r' = Fetched (pendingXY 0%nat).1 :: X) in Ht.
  split; [exact Hd|]. split; [reflexivity|]. split; [reflexivity|].
  rewrite Ht. exact Hc.
Defined.

(** ** Slots and calls waiting in the channels *)

Section ChannelFacts.
  Context {C : Type}.
  Variable bc : BabylonClient C.
  Variable handleCreate :
    createValidatorRequest -> ValidatorStore -> (Bytes + error) * ValidatorStore.
  Implicit Types (app : App C) (s : Slot).

Lemma pendingSlots_wiring app app' : wiring app' = wiring app -> pendingSlots app' = pendingSlots app.
Proof.
  unfold wiring, pendingSlots, requestSlots, eventSlots. intros H.
  injection H as -> -> -> -> -> -> -> -> -> _ _ _ _. reflexivity.
Qed.

Lemma pendingCallsOf_wiring c app app' :
  wiring app' = wiring app -> pendingCallsOf c app' = pendingCallsOf c app.
Proof.
  unfold wiring. intros H.
  injection H as _ Hf Hr Hc Hj _ _ _ _ _ _ _ _.
  destruct c; simpl; congruence.
Qed.

Lemma flags_wiring app app' :
  wiring app' = wiring app ->
  quit app' = quit app /\ sendLoopDone app' = sendLoopDone app /\
  eventLoopDone app' = eventLoopDone app /\ bcState app' = bcState app.
Proof. unfold wiring. intros H. injection H as _ _ _ _ _ _ _ _ _ -> -> -> ->. auto. Qed.


Lemma pendingSlots_dequeue c app r s :
  nextRequest c app = Some r ->
  cnt (pendingSlots app) s = (cnt [requestSlot r] s + cnt (pendingSlots (dequeue c app)) s)%nat.
Proof.
  unfold pendingSlots, requestSlots, eventSlots.
  destruct c; simpl; intros H; try discriminate.
  - destruct (addFinalitySigRequestChan app) as [|q rest]; [discriminate|].
    injection H as <-. cnt_lia.
  - destruct (registerValidatorRequestChan app) as [|q rest]; [discriminate|].
    injection H as <-. cnt_lia.
  - destruct (commitPubRandRequestChan app) as [|q rest]; [discriminate|].
    injection H as <-. cnt_lia.
  - destruct (addJurySigRequestChan app) as [|q rest]; [discriminate|].
    injection H as <-. cnt_lia.
Qed.

Lemma pendingSlots_receive c app e s :
  nextEvent c app = Some e ->
  cnt (pendingSlots app) s = (cnt [eventSlot e] s + cnt (pendingSlots (receive c app)) s)%nat.
Proof.
  unfold pendingSlots, requestSlots, eventSlots.
  destruct c; simpl; intros H; try discriminate.
  - destruct (finalitySigAddedEventChan app) as [|q rest]; [discriminate|].
    injection H as <-. cnt_lia.
  - destruct (validatorRegisteredEventChan app) as [|q rest]; [discriminate|].
    injection H as <-. cnt_lia.
  - destruct (pubRandCommittedEventChan app) as [|q rest]; [discriminate|].
    injection H as <-. cnt_lia.
  - destruct (jurySigAddedEventChan app) as [|q rest]; [discriminate|].
    injection H as <-. cnt_lia.
Qed.

Lemma pendingSlots_deliver e app s :
  cnt (pendingSlots (deliver e app)) s = (cnt (pendingSlots app) s + cnt [eventSlot e] s)%nat.
Proof.
  unfold pendingSlots, requestSlots, eventSlots.
  destruct e as [ev|ev|ev|ev]; simpl; rewrite ?fmap_app; cnt_lia.
Qed.

Lemma pendingSlots_enqueue r app s :
  cnt (pendingSlots (enqueue r app)) s = (cnt (pendingSlots app) s + cnt [requestSlot r] s)%nat.
Proof.
  unfold pendingSlots, requestSlots, eventSlots.
  destruct r as [q|q|q|q|q]; simpl; rewrite ?fmap_app; cnt_lia.
Qed.

Lemma pendingSlots_set_bcState st app : pendingSlots (set_bcState st app) = pendingSlots app.
Proof. reflexivity. Qed.

End ChannelFacts.

(** ** An iteration of the submission loop *)

Section StepShapes.
  Context {C : Type}.
  Variable bc : BabylonClient C.
  Variable handleCreate :
    createValidatorRequest -> ValidatorStore -> (Bytes + error) * ValidatorStore.
  Implicit Types (app : App C) (s : Slot).

(** An iteration of the event loop that takes no completion event: it
    serves a create-validator request, replying once, or it returns. *)
Lemma eventLoopStep_other c app app' :
  eventLoopStep handleCreate c app = Some app' ->
  nextEvent c app = None ->
  status app = Running /\ status app' = Running /\
  ((c = CaseEventLoopQuit /\ app' = set_eventLoopDone true app) \/
   (c = CaseCreateValidatorRequest /\
    exists req resp,
      head (createValidatorRequestChan app) = Some req /\
      wiring app' = wiring (receive c app) /\
      trace app' = trace app ++ [Replied (cvr_slot req) resp])).
Proof.
  unfold eventLoopStep. intros Hstep Hnext.
  destruct (status app) eqn:Hst; try discriminate.
  destruct (eventLoopDone app); try discriminate.
  split; [reflexivity|].
  destruct c; simpl in Hnext.
  - destruct (createValidatorRequestChan app) as [|req rest] eqn:Hq; try discriminate.
    injection Hstep as <-. unfold onCreateValidatorRequest. simpl.
    destruct (handleCreate req (vs app)) as [[resp|err] s']; simpl;
      (split; [assumption|]); right; (split; [reflexivity|]);
      eexists _, _; (split; [reflexivity|]); rewrite Hq; split; reflexivity.
  - destruct (finalitySigAddedEventChan app); discriminate.
  - destruct (validatorRegisteredEventChan app); discriminate.
  - destruct (pubRandCommittedEventChan app); discriminate.
  - destruct (jurySigAddedEventChan app); discriminate.
  - destruct (quit app); try discriminate. injection Hstep as <-.
    split; [assumption|]. left. auto.
Qed.

Lemma pendingSlots_receive_create app req s :
  head (createValidatorRequestChan app) = Some req ->
  cnt (pendingSlots app) s =
    (cnt [cvr_slot req] s + cnt (pendingSlots (receive CaseCreateValidatorRequest app)) s)%nat.
Proof.
  unfold pendingSlots, requestSlots, eventSlots. simpl.
  destruct (createValidatorRequestChan app) as [|q rest]; [discriminate|].
  intros [= <-]. cnt_lia.
Qed.

(** An iteration of the submission loop that takes a request: it makes the
    chain call of the request and then either replies with the error, or
    sends the completion event that carries the request's slot. *)
Lemma handleSentToBabylonStep_request c app app' r :
  handleSentToBabylonStep bc c app = Some app' ->
  nextRequest c app = Some r ->
  exists call, callOf r = Some call /\ callCase call = c /\
    let res := performCall bc call (bcState app) in
    vs app' = vs app /\ status app = Running /\ status app' = Running /\
    match res.1 with
    | TxErr err =>
        wiring app' = wiring (set_bcState res.2 (dequeue c app)) /\
        exists msg,
          trace app' = trace app ++
            [Called call res.1; Logged ErrorLevel msg;
             Replied (requestSlot r) (errResponse err)]
    | TxOk txHash =>
        exists e msg,
          eventSlot e = requestSlot r /\
          wiring app' = wiring (set_bcState res.2 (deliver e (dequeue c app))) /\
          trace app' = trace app ++ [Called call res.1; Logged InfoLevel msg]
    end.
Proof.
  unfold handleSentToBabylonStep. intros Hstep Hnext.
  destruct (status app) eqn:Hst; try discriminate.
  destruct (sendLoopDone app) eqn:Hdone; try discriminate.
  destruct c; simpl in Hnext; try discriminate.
  - destruct (addFinalitySigRequestChan app) as [|req rest] eqn:Hq; try discriminate.
    injection Hnext as <-. injection Hstep as <-. eexists. split; [reflexivity|].
    split; [reflexivity|].
    unfold onAddFinalitySigRequest, mbind, eff_bind, call. simpl.
    destruct (SubmitFinalitySig _ _ _ _ _ _) as [[tx|err] st]; simpl;
      rewrite ?Hq; simpl; repeat split; try assumption.
    + eexists (EvFinalitySigAdded _), _. simpl. rewrite <- !app_assoc. repeat split; reflexivity.
    + eexists. rewrite <- !app_assoc. reflexivity.
  - destruct (registerValidatorRequestChan app) as [|req rest] eqn:Hq; try discriminate.
    injection Hnext as <-. injection Hstep as <-. eexists. split; [reflexivity|].
    split; [reflexivity|].
    unfold onRegisterValidatorRequest, mbind, eff_bind, call. simpl.
    destruct (RegisterValidator _ _ _ _ _) as [[tx|err] st]; simpl;
      rewrite ?Hq; simpl; repeat split; try assumption.
    + eexists (EvValidatorRegistered _), _. simpl. rewrite <- !app_assoc. repeat split; reflexivity.
    + eexists. rewrite <- !app_assoc. reflexivity.
  - destruct (commitPubRandRequestChan app) as [|req rest] eqn:Hq; try discriminate.
    injection Hnext as <-. injection Hstep as <-. eexists. split; [reflexivity|].
    split; [reflexivity|].
    unfold onCommitPubRandRequest, mbind, eff_bind, call. simpl.
    destruct (CommitPubRandList _ _ _ _ _ _) as [[tx|err] st]; simpl;
      rewrite ?Hq; simpl; repeat split; try assumption.
    + eexists (EvPubRandCommitted _), _. simpl. rewrite <- !app_assoc. repeat split; reflexivity.
    + eexists. rewrite <- !app_assoc. reflexivity.
  - destruct (addJurySigRequestChan app) as [|req rest] eqn:Hq; try discriminate.
    injection Hnext as <-. injection Hstep as <-. eexists. split; [reflexivity|].
    split; [reflexivity|].
    unfold onAddJurySigRequest, mbind, eff_bind, call. simpl.
    destruct (SubmitJurySig _ _ _ _ _) as [[tx|err] st]; simpl;
      rewrite ?Hq; simpl; repeat split; try assumption.
    + eexists (EvJurySigAdded _), _. simpl. rewrite <- !app_assoc. repeat split; reflexivity.
    + eexists. rewrite <- !app_assoc. reflexivity.
Qed.

(** An iteration of the submission loop that takes no request returns. *)
Lemma handleSentToBabylonStep_quit c app app' :
  handleSentToBabylonStep bc c app = Some app' ->
  nextRequest c app = None ->
  c = CaseSendLoopQuit /\ app' = set_sendLoopDone true app /\ status app = Running.
Proof.
  unfold handleSentToBabylonStep. intros Hstep Hnext.
  destruct (status app) eqn:Hst; try discriminate.
  destruct (sendLoopDone app) eqn:Hdone; try discriminate.
  destruct c; simpl in Hnext.
  - destruct (addFinalitySigRequestChan app); discriminate.
  - destruct (registerValidatorRequestChan app); discriminate.
  - destruct (commitPubRandRequestChan app); discriminate.
  - destruct (addJurySigRequestChan app); discriminate.
  - destruct (quit app); try discriminate. injection Hstep as <-. auto.
Qed.

End StepShapes.

(** ** What every run preserves *)

Section Invariants.
  Context {C : Type}.
  Variable bc : BabylonClient C.
  Variable handleCreate :
    createValidatorRequest -> ValidatorStore -> (Bytes + error) * ValidatorStore.
  Implicit Types (app : App C) (s : Slot).

Lemma ofCase_app c l1 l2 : ofCase c (l1 ++ l2) = ofCase c l1 ++ ofCase c l2.
Proof. apply filter_app. Qed.

Lemma submittedCalls_app t1 t2 :
  submittedCalls (t1 ++ t2) = submittedCalls t1 ++ submittedCalls t2.
Proof. unfold submittedCalls. rewrite submittedRequests_app. apply omap_app. Qed.

Lemma submittedCalls_none X : submittedRequests X = [] -> submittedCalls X = [].
Proof. unfold submittedCalls. intros ->. reflexivity. Qed.

Lemma pendingCallsOf_dequeue c c' app r call :
  nextRequest c app = Some r -> callOf r = Some call ->
  pendingCallsOf c' app = ofCase c' [call] ++ pendingCallsOf c' (dequeue c app).
Proof.
  destruct c; simpl; intros Hn Hc; try discriminate.
  - destruct (addFinalitySigRequestChan app) as [|q rest] eqn:Hq; [discriminate|].
    injection Hn as <-. injection Hc as <-. destruct c'; simpl; rewrite ?Hq; reflexivity.
  - destruct (registerValidatorRequestChan app) as [|q rest] eqn:Hq; [discriminate|].
    injection Hn as <-. injection Hc as <-. destruct c'; simpl; rewrite ?Hq; reflexivity.
  - destruct (commitPubRandRequestChan app) as [|q rest] eqn:Hq; [discriminate|].
    injection Hn as <-. injection Hc as <-. destruct c'; simpl; rewrite ?Hq; reflexivity.
  - destruct (addJurySigRequestChan app) as [|q rest] eqn:Hq; [discriminate|].
    injection Hn as <-. injection Hc as <-. destruct c'; simpl; rewrite ?Hq; reflexivity.
Qed.

Lemma pendingCallsOf_enqueue c r app :
  pendingCallsOf c (enqueue r app) = pendingCallsOf c app ++ ofCase c (omap callOf [r]).
Proof.
  destruct r as [q|q|q|q|q], c; simpl; rewrite ?fmap_app, ?omap_app, ?app_nil_r; reflexivity.
Qed.

Lemma pendingCallsOf_deliver c e app : pendingCallsOf c (deliver e app) = pendingCallsOf c app.
Proof. destruct e, c; reflexivity. Qed.

Lemma pendingCallsOf_receive c c' app :
  pendingCallsOf c (receive c' app) = pendingCallsOf c app.
Proof. destruct c', c; reflexivity. Qed.


Lemma sysStep_slot_balance st app app' :
  sysStep bc handleCreate st app = Some app' -> slot_balance app -> slot_balance app'.
Proof.
  intros Hstep Hinv s. specialize (Hinv s). destruct st as [r| |c|c]; simpl in Hstep.
  - destruct (status app) eqn:Hst; try discriminate. injection Hstep as <-.
    change (pendingSlots (set_trace (trace app ++ [Submitted r]) (enqueue r app)))
      with (pendingSlots (enqueue r app)).
    rewrite pendingSlots_enqueue.
    change (trace (set_trace (trace app ++ [Submitted r]) (enqueue r app)))
      with (trace app ++ [Submitted r]).
    change (status (set_trace (trace app ++ [Submitted r]) (enqueue r app)))
      with (status (enqueue r app)).
    replace (status (enqueue r app)) with (status app) by (destruct r; reflexivity).
    rewrite repliedSlots_app, submittedRequests_app, fmap_app, !count_occ_app. simpl.
    rewrite Hst in *. simpl in *. lia.
  - destruct (status app) eqn:Hst; try discriminate. injection Hstep as <-.
    simpl. rewrite Hst in *. exact Hinv.
  - destruct (nextRequest c app) as [r|] eqn:Hnext.
    + destruct (handleSentToBabylonStep_request bc c app app' r Hstep Hnext)
        as (call & Hcall & _ & _ & Hst & Hst' & Hres).
      rewrite (pendingSlots_dequeue c app r s Hnext) in Hinv.
      rewrite Hst in Hinv. rewrite Hst'.
      destruct (performCall bc call (bcState app)).1 as [tx|err].
      * destruct Hres as (e & msg & He & Hw & Ht).
        rewrite (pendingSlots_wiring _ _ Hw), pendingSlots_set_bcState, pendingSlots_deliver.
        rewrite Ht, repliedSlots_app, submittedRequests_app, fmap_app, !count_occ_app.
        rewrite He. simpl in *. lia.
      * destruct Hres as (Hw & msg & Ht).
        rewrite (pendingSlots_wiring _ _ Hw), pendingSlots_set_bcState.
        rewrite Ht, repliedSlots_app, submittedRequests_app, fmap_app, !count_occ_app.
        simpl in *. lia.
    + destruct (handleSentToBabylonStep_quit bc c app app' Hstep Hnext) as (_ & -> & _).
      exact Hinv.
  - destruct (nextEvent c app) as [e|] eqn:Hnext.
    + destruct (eventLoopStep_receive handleCreate c app app' e Hstep Hnext) as [-> Hst].
      rewrite (pendingSlots_receive c app e s Hnext) in Hinv. rewrite Hst in Hinv.
      destruct (onEvent_outcome e (receive c app)) as (Hw & X & Ht & _ & Hsub & Hres).
      rewrite (pendingSlots_wiring _ _ Hw), Ht, trace_receive.
      rewrite repliedSlots_app, submittedRequests_app, Hsub, app_nil_r, !count_occ_app.
      rewrite status_receive, Hst in Hres.
      destruct (onEvent e (receive c app)).1.
      * destruct Hres as (-> & -> & _). simpl in *. lia.
      * destruct Hres as (-> & [[msg ->]|[[msg ->] _]]); simpl in *; lia.
    + destruct (eventLoopStep_other handleCreate c app app' Hstep Hnext)
        as (Hst & Hst' & [[_ ->]|(-> & req & resp & Hhead & Hw & Ht)]).
      * exact Hinv.
      * rewrite (pendingSlots_receive_create app req s Hhead) in Hinv.
        rewrite (pendingSlots_wiring _ _ Hw), Ht, Hst'. rewrite Hst in Hinv.
        rewrite repliedSlots_app, submittedRequests_app, fmap_app, !count_occ_app.
        simpl in *. lia.
Qed.

Lemma sysStep_fifo_per_case st app app' :
  sysStep bc handleCreate st app = Some app' -> fifo_per_case app -> fifo_per_case app'.
Proof.
  intros Hstep Hinv k. specialize (Hinv k). destruct st as [r| |c|c]; simpl in Hstep.
  - destruct (status app) eqn:Hst; try discriminate. injection Hstep as <-.
    change (pendingCallsOf k (set_trace (trace app ++ [Submitted r]) (enqueue r app)))
      with (pendingCallsOf k (enqueue r app)).
    rewrite pendingCallsOf_enqueue.
    change (trace (set_trace (trace app ++ [Submitted r]) (enqueue r app)))
      with (trace app ++ [Submitted r]).
    rewrite submittedCalls_app, chainCalls_app, !ofCase_app, Hinv. simpl.
    rewrite app_nil_r, <- app_assoc. reflexivity.
  - destruct (status app) eqn:Hst; try discriminate. injection Hstep as <-. exact Hinv.
  - destruct (nextRequest c app) as [r|] eqn:Hnext.
    + destruct (handleSentToBabylonStep_request bc c app app' r Hstep Hnext)
        as (call & Hcall & _ & _ & _ & _ & Hres).
      rewrite (pendingCallsOf_dequeue c k app r call Hnext Hcall) in Hinv.
      destruct (performCall bc call (bcState app)).1 as [tx|err].
      * destruct Hres as (e & msg & _ & Hw & Ht).
        rewrite (pendingCallsOf_wiring _ _ _ Hw). simpl.
        change (pendingCallsOf k (set_bcState _ (deliver e (dequeue c app))))
          with (pendingCallsOf k (deliver e (dequeue c app))).
        rewrite pendingCallsOf_deliver, Ht, submittedCalls_app, chainCalls_app, !ofCase_app.
        simpl (submittedCalls _). rewrite app_nil_r, Hinv, <- app_assoc. reflexivity.
      * destruct Hres as (Hw & msg & Ht).
        rewrite (pendingCallsOf_wiring _ _ _ Hw). simpl.
        change (pendingCallsOf k (set_bcState _ (dequeue c app)))
          with (pendingCallsOf k (dequeue c app)).
        rewrite Ht, submittedCalls_app, chainCalls_app, !ofCase_app.
        simpl (submittedCalls _). rewrite app_nil_r, Hinv, <- app_assoc. reflexivity.
    + destruct (handleSentToBabylonStep_quit bc c app app' Hstep Hnext) as (_ & -> & _).
      exact Hinv.
  - destruct (nextEvent c app) as [e|] eqn:Hnext.
    + destruct (eventLoopStep_receive handleCreate c app app' e Hstep Hnext) as [-> Hst].
      destruct (onEvent_outcome e (receive c app)) as (Hw & X & Ht & Hcalls & Hsub & _).
      rewrite (pendingCallsOf_wiring _ _ _ Hw), pendingCallsOf_receive, Ht, trace_receive.
      rewrite submittedCalls_app, chainCalls_app, (submittedCalls_none X Hsub), Hcalls.
      rewrite !app_nil_r. exact Hinv.
    + destruct (eventLoopStep_other handleCreate c app app' Hstep Hnext)
        as (Hst & Hst' & [[_ ->]|(-> & req & resp & Hhead & Hw & Ht)]).
      * exact Hinv.
      * rewrite (pendingCallsOf_wiring _ _ _ Hw), pendingCallsOf_receive, Ht.
        rewrite submittedCalls_app, chainCalls_app. simpl. rewrite !app_nil_r. exact Hinv.
Qed.

Lemma run_invariants sched app app' :
  run bc handleCreate sched app = Some app' ->
  slot_balance app /\ fifo_per_case app -> slot_balance app' /\ fifo_per_case app'.
Proof.
  revert app. induction sched as [|st rest IH]; intros app Hrun [Hs Hf]; simpl in Hrun.
  - injection Hrun as <-. auto.
  - destruct (sysStep bc handleCreate st app) as [app1|] eqn:Hstep; [|discriminate].
    apply (IH app1 Hrun). split.
    + eapply sysStep_slot_balance; eassumption.
    + eapply sysStep_fifo_per_case; eassumption.
Qed.

Lemma initApp_invariants (store : ValidatorStore) (chain : C) :
  slot_balance (initApp store chain) /\ fifo_per_case (initApp store chain).
Proof. split; [intros s; reflexivity|intros c; destruct c; reflexivity]. Qed.

Lemma repliesTo_length s t : length (repliesTo s t) = cnt (repliedSlots t) s.
Proof.
  induction t as [|a t IH]; [reflexivity|].
  destruct a; simpl; try exact IH.
  destruct (decide (slot = s)), (Nat.eq_dec slot s); simpl; congruence.
Qed.

Lemma handleSentToBabylonStep_ready c app :
  status app = Running -> sendLoopDone app = false ->
  is_Some (nextRequest c app) -> is_Some (handleSentToBabylonStep bc c app).
Proof.
  unfold handleSentToBabylonStep. intros -> -> [r Hr].
  destruct c; simpl in Hr.
  - destruct (addFinalitySigRequestChan app); [discriminate|eauto].
  - destruct (registerValidatorRequestChan app); [discriminate|eauto].
  - destruct (commitPubRandRequestChan app); [discriminate|eauto].
  - destruct (addJurySigRequestChan app); [discriminate|eauto].
  - discriminate.
Qed.

End Invariants.

(** ** Progress of the loops *)

Section Progress.
  Context {C : Type}.
  Variable bc : BabylonClient C.
  Variable handleCreate :
    createValidatorRequest -> ValidatorStore -> (Bytes + error) * ValidatorStore.
  Implicit Types (app : App C).

Lemma work_wiring app app' : wiring app' = wiring app -> work app' = work app.
Proof.
  unfold wiring, work, pendingSlots, requestSlots, eventSlots. intros H.
  injection H as -> -> -> -> -> -> -> -> -> _ _ _ _. reflexivity.
Qed.

Lemma work_dequeue c app r :
  nextRequest c app = Some r ->
  (work (dequeue c app) + 2 = work app)%nat /\
  forall e, (work (deliver e (dequeue c app)) + 1 = work app)%nat.
Proof.
  destruct c; simpl; intros H; try discriminate.
  - destruct (addFinalitySigRequestChan app) as [|q rest] eqn:Hq; [discriminate|].
    split; [|intros [ev|ev|ev|ev]]; len_lia.
  - destruct (registerValidatorRequestChan app) as [|q rest] eqn:Hq; [discriminate|].
    split; [|intros [ev|ev|ev|ev]]; len_lia.
  - destruct (commitPubRandRequestChan app) as [|q rest] eqn:Hq; [discriminate|].
    split; [|intros [ev|ev|ev|ev]]; len_lia.
  - destruct (addJurySigRequestChan app) as [|q rest] eqn:Hq; [discriminate|].
    split; [|intros [ev|ev|ev|ev]]; len_lia.
Qed.

Lemma work_receive c app :
  is_Some (nextEvent c app) \/
    (c = CaseCreateValidatorRequest /\ is_Some (head (createValidatorRequestChan app))) ->
  (work (receive c app) < work app)%nat.
Proof.
  intros [[e He]|[-> [q Hq]]].
  - destruct c; simpl in He; try discriminate.
    + destruct (finalitySigAddedEventChan app) eqn:Hc; [discriminate|]. len_lia.
    + destruct (validatorRegisteredEventChan app) eqn:Hc; [discriminate|]. len_lia.
    + destruct (pubRandCommittedEventChan app) eqn:Hc; [discriminate|]. len_lia.
    + destruct (jurySigAddedEventChan app) eqn:Hc; [discriminate|]. len_lia.
  - destruct (createValidatorRequestChan app) eqn:Hc; [discriminate|]. len_lia.
Qed.

Lemma eventLoopStep_ready c app :
  status app = Running -> eventLoopDone app = false ->
  is_Some (nextEvent c app) \/
    (c = CaseCreateValidatorRequest /\ is_Some (head (createValidatorRequestChan app))) ->
  is_Some (eventLoopStep handleCreate c app).
Proof.
  unfold eventLoopStep. intros -> -> [[e He]|[-> [q Hq]]].
  - destruct c; simpl in He; try discriminate.
    + destruct (finalitySigAddedEventChan app); [discriminate|eauto].
    + destruct (validatorRegisteredEventChan app); [discriminate|eauto].
    + destruct (pubRandCommittedEventChan app); [discriminate|eauto].
    + destruct (jurySigAddedEventChan app); [discriminate|eauto].
  - destruct (createValidatorRequestChan app); [discriminate|eauto].
Qed.

(** Every iteration of a loop that takes a request or an event leaves less
    work in the channels. *)
Lemma loop_step_work st app app' :
  sysStep bc handleCreate st app = Some app' ->
  match st with
  | SendLoop c => is_Some (nextRequest c app)
  | EventLoop c =>
      is_Some (nextEvent c app) \/
      (c = CaseCreateValidatorRequest /\ is_Some (head (createValidatorRequestChan app)))
  | _ => False
  end ->
  (work app' < work app)%nat.
Proof.
  destruct st as [r| |c|c]; simpl; intros Hstep Hready; try contradiction.
  - destruct Hready as [r Hr].
    destruct (handleSentToBabylonStep_request bc c app app' r Hstep Hr)
      as (call & _ & _ & _ & _ & _ & Hres).
    destruct (work_dequeue c app r Hr) as [H2 H1].
    destruct (performCall bc call (bcState app)).1.
    + destruct Hres as (e & msg & _ & Hw & _). rewrite (work_wiring _ _ Hw).
      specialize (H1 e). change (work (set_bcState _ ?a)) with (work a). lia.
    + destruct Hres as (Hw & _). rewrite (work_wiring _ _ Hw).
      change (work (set_bcState _ ?a)) with (work a). lia.
  - pose proof (work_receive c app Hready) as Hlt.
    destruct (nextEvent c app) as [e|] eqn:Hnext.
    + destruct (eventLoopStep_receive handleCreate c app app' e Hstep Hnext) as [-> _].
      destruct (onEvent_outcome e (receive c app)) as (Hw & _).
      rewrite (work_wiring _ _ Hw). exact Hlt.
    + destruct (eventLoopStep_other handleCreate c app app' Hstep Hnext)
        as (_ & _ & [[-> _]|(-> & _ & _ & _ & Hw & _)]).
      * destruct Hready as [[? ?]|[? _]]; discriminate.
      * rewrite (work_wiring _ _ Hw). exact Hlt.
Qed.

(** While both loops run and something waits in a channel, some case of
    one of the loops is ready to take it. *)
Lemma pending_ready app :
  status app = Running -> sendLoopDone app = false -> eventLoopDone app = false ->
  pendingSlots app <> [] ->
  exists st app',
    sysStep bc handleCreate st app = Some app' /\ (work app' < work app)%nat.
Proof.
  intros Hst Hsend Hev Hne.
  assert (Hcase :
    (exists c, is_Some (nextRequest c app)) \/
    (exists c, is_Some (nextEvent c app) \/
       (c = CaseCreateValidatorRequest /\ is_Some (head (createValidatorRequestChan app))))).
  { unfold pendingSlots, requestSlots, eventSlots in Hne.
    destruct (createValidatorRequestChan app) eqn:H0;
      [|right; exists CaseCreateValidatorRequest; right; rewrite ?H0; simpl; eauto].
    destruct (addFinalitySigRequestChan app) eqn:H1;
      [|left; exists CaseAddFinalitySigRequest; simpl; rewrite ?H1; simpl; eauto].
    destruct (registerValidatorRequestChan app) eqn:H2;
      [|left; exists CaseRegisterValidatorRequest; simpl; rewrite ?H2; simpl; eauto].
    destruct (commitPubRandRequestChan app) eqn:H3;
      [|left; exists CaseCommitPubRandRequest; simpl; rewrite ?H3; simpl; eauto].
    destruct (addJurySigRequestChan app) eqn:H4;
      [|left; exists CaseAddJurySigRequest; simpl; rewrite ?H4; simpl; eauto].
    destruct (finalitySigAddedEventChan app) eqn:H5;
      [|right; exists CaseFinalitySigAdded; left; simpl; rewrite ?H5; simpl; eauto].
    destruct (validatorRegisteredEventChan app) eqn:H6;
      [|right; exists CaseValidatorRegistered; left; simpl; rewrite ?H6; simpl; eauto].
    destruct (pubRandCommittedEventChan app) eqn:H7;
      [|right; exists CasePubRandCommitted; left; simpl; rewrite ?H7; simpl; eauto].
    destruct (jurySigAddedEventChan app) eqn:H8;
      [|right; exists CaseJurySigAdded; left; simpl; rewrite ?H8; simpl; eauto].
    simpl in Hne. congruence. }
  destruct Hcase as [[c Hc]|[c Hc]].
  - destruct (handleSentToBabylonStep_ready bc c app Hst Hsend Hc) as [app' Hstep].
    exists (SendLoop c), app'. split; [exact Hstep|].
    apply (loop_step_work (SendLoop c) app app' Hstep Hc).
  - destruct (eventLoopStep_ready c app Hst Hev Hc) as [app' Hstep].
    exists (EventLoop c), app'. split; [exact Hstep|].
    apply (loop_step_work (EventLoop c) app app' Hstep Hc).
Qed.

End Progress.

(** ** The submission loop and the reply slots *)

Section ProcessTheorems.
  Context {C : Type}.
  Variable bc : BabylonClient C.
  Variable handleCreate :
    createValidatorRequest -> ValidatorStore -> (Bytes + error) * ValidatorStore.
  Implicit Types (app : App C).


(** C1 (amended).  In every run from the start of the app, for each case of
    the submission loop the chain calls made so far for that case are the
    first of the calls submitted for it, in the order of submission, and
    the rest of them wait in the channel of the case; an iteration of the
    loop that takes a request makes exactly one chain call, that of the
    request at the head of the channel of the case that fired; and every
    case whose channel has a request is ready, none before another. *)
Theorem chain_calls_fifo_per_case sched (store : ValidatorStore) (chain : C) app :
  run bc handleCreate sched (initApp store chain) = Some app ->
  (forall c, ofCase c (submittedCalls (trace app)) =
             ofCase c (chainCalls (trace app)) ++ pendingCallsOf c app) /\
  (forall c a a' r,
     handleSentToBabylonStep bc c a = Some a' ->
     nextRequest c a = Some r ->
     exists call, callOf r = Some call /\ chainCalls (emitted a a') = [call]) /\
  (forall c a,
     status a = Running -> sendLoopDone a = false ->
     is_Some (nextRequest c a) -> is_Some (handleSentToBabylonStep bc c a)).
Proof.
  intros Hrun. split; [|split].
  - apply (run_invariants bc handleCreate sched _ _ Hrun (initApp_invariants store chain)).
  - intros c a a' r Hstep Hnext.
    destruct (handleSentToBabylonStep_request bc c a a' r Hstep Hnext)
      as (call & Hcall & _ & _ & _ & _ & Hres).
    exists call. split; [exact Hcall|].
    destruct (performCall bc call (bcState a)).1 as [tx|err].
    + destruct Hres as (e & msg & _ & _ & Ht). rewrite (emitted_app _ _ _ Ht). reflexivity.
    + destruct Hres as (_ & msg & Ht). rewrite (emitted_app _ _ _ Ht). reflexivity.
  - intros c a. apply handleSentToBabylonStep_ready.
Qed.

(** X15.  In every run from the start of the app in which the
    requests submitted have distinct reply slots, the slot of a submitted
    request is written at most once; and it is written exactly once when the
    request is no longer waiting in a channel (as a request or as its
    completion event) and the process did not exit, fatally or by a panic,
    while the event loop was handling its completion event.  While both
    loops run and a slot waits in a channel, one of the loops has a case
    ready to take it, and taking it leaves less work in the channels. *)
Theorem reply_slot_written_once sched (store : ValidatorStore) (chain : C) app r :
  run bc handleCreate sched (initApp store chain) = Some app ->
  NoDup (requestSlot <$> submittedRequests (trace app)) ->
  r ∈ submittedRequests (trace app) ->
  (length (repliesTo (requestSlot r) (trace app)) <= 1)%nat /\
  (requestSlot r ∉ pendingSlots app ->
   requestSlot r ∉ casualty (status app) ->
   length (repliesTo (requestSlot r) (trace app)) = 1%nat) /\
  (status app = Running -> sendLoopDone app = false -> eventLoopDone app = false ->
   pendingSlots app <> [] ->
   exists st app',
     sysStep bc handleCreate st app = Some app' /\ (work app' < work app)%nat).
Proof.
  intros Hrun Hnd Hin.
  destruct (run_invariants bc handleCreate sched _ _ Hrun (initApp_invariants store chain))
    as [Hbal _].
  specialize (Hbal (requestSlot r)). rewrite repliesTo_length.
  assert (Hone : cnt (requestSlot <$> submittedRequests (trace app)) (requestSlot r) = 1%nat).
  { apply NoDup_count_occ'; [apply NoDup_ListNoDup; exact Hnd|].
    apply list_elem_of_In, list_elem_of_fmap. eauto. }
  rewrite Hone in Hbal. split; [lia|]. split; [|apply pending_ready].
  intros Hp Hc.
  rewrite list_elem_of_In in Hp, Hc.
  rewrite (count_occ_In Nat.eq_dec) in Hp, Hc. lia.
Qed.

End ProcessTheorems.


(** Two votes and a registration: the registration is called first, the
    vote calls keep their order. *)
Lemma chain_calls_fifo_per_case_witness :
  let sched := [Submit (reqVote 101 1); Submit reqRegister; Submit (reqVote 102 3);
                SendLoop CaseRegisterValidatorRequest; SendLoop CaseAddFinalitySigRequest] in
  let app := default app1 (run pickyClient createValidator sched app1) in
  ofCase CaseAddFinalitySigRequest (submittedCalls (trace app)) =
    ofCase CaseAddFinalitySigRequest (chainCalls (trace app)) ++
    pendingCallsOf CaseAddFinalitySigRequest app /\
  ofCase CaseAddFinalitySigRequest (chainCalls (trace app)) =
    [CallSubmitFinalitySig ["b"%byte] 101 [] []].
Proof.
  intros sched app.
  assert (Hrun : run pickyClient createValidator sched (initApp store1 tt) = Some app)
    by (vm_compute; reflexivity).
  destruct (chain_calls_fifo_per_case pickyClient createValidator sched store1 tt app Hrun)
    as (Hfifo & _ & _).
  split; [apply Hfifo|vm_compute; reflexivity].
Defined.

(** A vote submitted before a registration, the registration called first:
    the calls made are not a prefix of the calls submitted. *)
Lemma chain_calls_fifo_per_case_counterexample :
  ~ (forall sched (app : App unit),
       run pickyClient createValidator sched app1 = Some app ->
       chainCalls (trace app) `prefix_of` submittedCalls (trace app)).
Proof.
  intros H.
  specialize (H [Submit (reqVote 101 1); Submit reqRegister;
                 SendLoop CaseRegisterValidatorRequest] _ eq_refl).
  vm_compute in H. destruct H as [k Hk]. discriminate Hk.
Qed.

(** A vote that goes through and a jury signature that the chain rejects:
    each slot gets one reply. *)
Lemma reply_slot_written_once_witness :
  let sched := [Submit (reqVote 101 1); Submit reqJury;
                SendLoop CaseAddJurySigRequest; SendLoop CaseAddFinalitySigRequest;
                EventLoop CaseFinalitySigAdded] in
  let app := default app1 (run pickyClient createValidator sched app1) in
  length (repliesTo 1 (trace app)) = 1%nat /\ length (repliesTo 4 (trace app)) = 1%nat.
Proof.
  intros sched app.
  assert (Hrun : run pickyClient createValidator sched (initApp store1 tt) = Some app)
    by (vm_compute; reflexivity).
  assert (Hnd : NoDup (requestSlot <$> submittedRequests (trace app))) by by_compute.
  split.
  - destruct (reply_slot_written_once pickyClient createValidator sched store1 tt app
                (reqVote 101 1) Hrun Hnd) as (_ & H & _); [by_in|].
    apply H; by_compute.
  - destruct (reply_slot_written_once pickyClient createValidator sched store1 tt app
                reqJury Hrun Hnd) as (_ & H & _); [by_in|].
    apply H; by_compute.
Defined.


(** * More of the loops *)

(** ** The validator reactor *)

Section SubmitterTheorems.
  Context {E : Type}.
  Variable submitSigs : BlockInfo -> E -> (Bytes + error) * E.
  Variable currentBlock : E -> (BlockInfo + error) * E.
  Variable commitRand : BlockInfo -> E -> (Bytes + error) * E.
  Implicit Types (s : Submitter E).

(** Two records, one after the other, make one. *)
Lemma submitterCalls_app t1 t2 x e e1 e2 :
  submitterCalls submitSigs currentBlock commitRand t1 x e e1 ->
  submitterCalls submitSigs currentBlock commitRand t2 ExpectCall e1 e2 ->
  submitterCalls submitSigs currentBlock commitRand (t1 ++ t2) x e e2.
Proof.
  revert x e. induction t1 as [|a t1 IH]; intros x e H1 H2; simpl in *.
  - destruct H1 as [-> ->]. exact H2.
  - destruct x as [|line|lastBlock].
    + destruct a as [b res|res|b res|lvl msg h]; try (destruct H1; fail);
        destruct H1 as [Ha H1]; (split; [exact Ha|]); apply IH; assumption.
    + destruct H1 as [Ha H1]. split; [exact Ha|]. apply IH; assumption.
    + destruct a as [b res|res|b res|lvl msg h]; try (destruct H1; fail).
      destruct H1 as (Hb & Ha & H1). split; [exact Hb|]. split; [exact Ha|].
      apply IH; assumption.
Qed.

Lemma onBlockInfo_spec b s :
  let s' := onBlockInfo submitSigs b s in
  blockInfoChan s' = blockInfoChan s /\ sfatal s' = sfatal s /\
  submitterDone s' = submitterDone s /\
  exists X, strace s' = strace s ++ X /\
    submitterCalls submitSigs currentBlock commitRand X ExpectCall (senv s) (senv s') /\
    sigAttempts X = [b] /\
    loggedHeights X = failedSigHeights X /\ commitAttempts X = [].
Proof.
  unfold onBlockInfo. destruct (submitSigs b (senv s)) as [[resp|err] e'] eqn:Hcall; simpl.
  - repeat split. exists [SubmittedSigs b (inl resp)].
    split; [reflexivity|]. simpl. rewrite Hcall. repeat split.
  - repeat split.
    exists [SubmittedSigs b (inr err);
            SubmitterLogged ErrorLevel "failed to submit finality signature to Babylon"
              (Some (blk_Height b))].
    split; [rewrite <- app_assoc; reflexivity|]. simpl. rewrite Hcall. repeat split.
Qed.

(** X1.  However many submissions fail, the reactor takes every block the
    poller reports, in the order of arrival, calls
    [SubmitFinalitySignaturesForAll] on it, logs the height of each block
    whose submission failed, commits no randomness on the way, and is still
    running.  What it records is what [SubmitFinalitySignaturesForAll]
    returned, each call made at the state the call before it left, and the
    rest of the app is left in the state after the last call. *)
Theorem blocks_all_attempted quitClosed bs more s :
  sfatal s = None -> submitterDone s = false ->
  blockInfoChan s = bs ++ more ->
  exists s',
    validatorSubmissionLoop submitSigs currentBlock commitRand quitClosed
      (replicate (length bs) CaseBlockInfo) s = Some s' /\
    blockInfoChan s' = more /\ sfatal s' = None /\ submitterDone s' = false /\
    exists X, strace s' = strace s ++ X /\
      submitterCalls submitSigs currentBlock commitRand X ExpectCall (senv s) (senv s') /\
      sigAttempts X = bs /\
      loggedHeights X = failedSigHeights X /\ commitAttempts X = [].
Proof.
  revert s. induction bs as [|b bs IH]; intros s Hf Hd Hc; simpl.
  - exists s. repeat split; try assumption. exists []. rewrite app_nil_r. simpl. repeat split; auto.
  - unfold validatorSubmissionStep. rewrite Hf, Hd, Hc. simpl.
    set (s0 := mkSubmitter (senv s) (bs ++ more) (strace s) None false).
    destruct (onBlockInfo_spec b s0)
      as (Hc1 & Hf1 & Hd1 & X1 & Ht1 & Hr1 & Ha1 & Hl1 & Hk1).
    simpl in Hc1, Hf1, Hd1, Ht1, Hr1.
    destruct (IH (onBlockInfo submitSigs b s0))
      as (s' & Hrun & Hc' & Hf' & Hd' & X & Ht & Hr & Ha & Hl & Hk);
      [congruence|congruence|exact Hc1|].
    exists s'. split; [exact Hrun|]. repeat split; try assumption.
    exists (X1 ++ X). rewrite Ht, Ht1, <- app_assoc. split; [reflexivity|].
    split; [exact (submitterCalls_app X1 X ExpectCall _ _ _ Hr1 Hr)|].
    unfold sigAttempts, loggedHeights, failedSigHeights, commitAttempts in *.
    rewrite !omap_app, Ha1, Ha, Hl1, Hl, Hk1, Hk. auto.
Qed.

(** X2.  On a randomness tick, when asking for the current block fails, the
    reactor logs fatally and the process exits: no randomness is committed,
    no signature is submitted, and the loop goes through no other
    iteration, whatever waits in the poller's channel. *)
Theorem commit_tick_without_block_is_fatal quitClosed s s' err e' :
  validatorSubmissionStep submitSigs currentBlock commitRand quitClosed
    CaseCommitRandTick s = Some s' ->
  currentBlock (senv s) = (inr err, e') ->
  strace s' = strace s ++
    [CurrentBlock (inr err);
     SubmitterLogged FatalLevel "failed to get the current Babylon block" None] /\
  is_Some (sfatal s') /\
  blockInfoChan s' = blockInfoChan s /\
  (forall c rest,
     validatorSubmissionLoop submitSigs currentBlock commitRand quitClosed
       (c :: rest) s' = None).
Proof.
  unfold validatorSubmissionStep.
  destruct (sfatal s) eqn:Hf; [discriminate|].
  destruct (submitterDone s) eqn:Hd; [discriminate|].
  intros [= <-] Hcur. unfold onCommitRandTick. rewrite Hcur. simpl.
  rewrite <- app_assoc. repeat split; eauto.
Qed.

Lemma onCommitRandTick_spec s :
  (exists b e', currentBlock (senv s) = (inl b, e')) ->
  let s' := onCommitRandTick currentBlock commitRand s in
  blockInfoChan s' = blockInfoChan s /\ sfatal s' = sfatal s /\
  submitterDone s' = submitterDone s /\
  exists X, strace s' = strace s ++ X /\
    submitterCalls submitSigs currentBlock commitRand X ExpectCall (senv s) (senv s') /\
    sigAttempts X = [] /\
    length (commitAttempts X) = 1%nat /\ loggedHeights X = failedCommitHeights X.
Proof.
  intros (b & e' & Hcur). unfold onCommitRandTick. rewrite Hcur.
  destruct (commitRand b e') as [[resp|err] e''] eqn:Hcall; simpl.
  - repeat split. exists [CurrentBlock (inl b); CommittedRand b (inl resp)].
    split; [rewrite <- app_assoc; reflexivity|]. simpl.
    rewrite Hcur. simpl. rewrite Hcall. repeat split.
  - repeat split.
    exists [CurrentBlock (inl b); CommittedRand b (inr err);
            SubmitterLogged ErrorLevel "failed to commit public randomness"
              (Some (blk_Height b))].
    split; [rewrite <- !app_assoc; reflexivity|]. simpl.
    rewrite Hcur. simpl. rewrite Hcall. repeat split.
Qed.

(** X3.  While the current block can be had, no failure of a commit stops
    the reactor: it goes through any number of randomness ticks, on each
    asks for the current block and calls [CommitPubRandForAll] at the block
    it got, logs the height of each commit that failed, submits no
    signature on the way, and is still running.  What it records is what
    [GetCurrentBbnBlock] and [CommitPubRandForAll] returned, each call made
    at the state the call before it left, and the rest of the app is left
    in the state after the last call. *)
Theorem commit_failures_never_fatal quitClosed n s :
  (forall e, exists b e', currentBlock e = (inl b, e')) ->
  sfatal s = None -> submitterDone s = false ->
  exists s',
    validatorSubmissionLoop submitSigs currentBlock commitRand quitClosed
      (replicate n CaseCommitRandTick) s = Some s' /\
    blockInfoChan s' = blockInfoChan s /\ sfatal s' = None /\ submitterDone s' = false /\
    exists X, strace s' = strace s ++ X /\
      submitterCalls submitSigs currentBlock commitRand X ExpectCall (senv s) (senv s') /\
      sigAttempts X = [] /\
      length (commitAttempts X) = n /\ loggedHeights X = failedCommitHeights X.
Proof.
  intros Hcur. revert s. induction n as [|n IH]; intros s Hf Hd; simpl.
  - exists s. repeat split; try assumption. exists []. rewrite app_nil_r. simpl. repeat split; auto.
  - unfold validatorSubmissionStep. rewrite Hf, Hd.
    destruct (onCommitRandTick_spec s (Hcur (senv s)))
      as (Hc1 & Hf1 & Hd1 & X1 & Ht1 & Hr1 & Ha1 & Hk1 & Hl1).
    simpl in Hr1.
    destruct (IH (onCommitRandTick currentBlock commitRand s))
      as (s' & Hrun & Hc' & Hf' & Hd' & X & Ht & Hr & Ha & Hk & Hl); [congruence|congruence|].
    exists s'. split; [exact Hrun|]. split; [congruence|]. repeat split; try assumption.
    exists (X1 ++ X). rewrite Ht, Ht1, <- app_assoc. split; [reflexivity|].
    split; [exact (submitterCalls_app X1 X ExpectCall _ _ _ Hr1 Hr)|].
    unfold sigAttempts, loggedHeights, failedCommitHeights, commitAttempts in *.
    rewrite !omap_app, length_app, Ha1, Ha, Hl1, Hl, Hk1, Hk. auto.
Qed.

Lemma validatorSubmissionStep_spec quitClosed c s s' :
  validatorSubmissionStep submitSigs currentBlock commitRand quitClosed c s = Some s' ->
  sfatal s = None /\ submitterDone s = false /\
  (submitterDone s' = true -> quitClosed = true) /\
  exists X, strace s' = strace s ++ X /\
    submitterCalls submitSigs currentBlock commitRand X ExpectCall (senv s) (senv s') /\
    blockInfoChan s = sigAttempts X ++ blockInfoChan s' /\
    loggedHeights X = failedHeights X /\
    (is_Some (sfatal s') ->
     exists err,
       X = [CurrentBlock (inr err);
            SubmitterLogged FatalLevel "failed to get the current Babylon block" None]).
Proof.
  unfold validatorSubmissionStep.
  destruct (sfatal s) eqn:Hf; [discriminate|].
  destruct (submitterDone s) eqn:Hd; [discriminate|].
  intros Hstep. split; [reflexivity|]. split; [reflexivity|].
  destruct c.
  - destruct (blockInfoChan s) as [|b rest] eqn:Hc; [discriminate|].
    injection Hstep as <-. unfold onBlockInfo. simpl.
    destruct (submitSigs b (senv s)) as [[resp|err] e'] eqn:Hcall; simpl.
    + split; [discriminate|]. exists [SubmittedSigs b (inl resp)].
      split; [reflexivity|]. simpl. rewrite Hcall. repeat split.
      intros [? ?]; discriminate.
    + split; [discriminate|].
      exists [SubmittedSigs b (inr err);
              SubmitterLogged ErrorLevel "failed to submit finality signature to Babylon"
                (Some (blk_Height b))].
      split; [rewrite <- app_assoc; reflexivity|]. simpl. rewrite Hcall. repeat split.
      intros [? ?]; discriminate.
  - injection Hstep as <-. unfold onCommitRandTick.
    destruct (currentBlock (senv s)) as [[b|err] e'] eqn:Hcur; simpl.
    + destruct (commitRand b e') as [[resp|err] e''] eqn:Hcall; simpl; rewrite ?Hf, ?Hd.
      * split; [discriminate|]. exists [CurrentBlock (inl b); CommittedRand b (inl resp)].
        split; [rewrite <- app_assoc; reflexivity|]. simpl.
        rewrite Hcur. simpl. rewrite Hcall. repeat split. intros [? ?]; discriminate.
      * split; [discriminate|].
        exists [CurrentBlock (inl b); CommittedRand b (inr err);
                SubmitterLogged ErrorLevel "failed to commit public randomness"
                  (Some (blk_Height b))].
        split; [rewrite <- !app_assoc; reflexivity|]. simpl.
        rewrite Hcur. simpl. rewrite Hcall. repeat split. intros [? ?]; discriminate.
    + rewrite ?Hd. split; [discriminate|].
      exists [CurrentBlock (inr err);
              SubmitterLogged FatalLevel "failed to get the current Babylon block" None].
      split; [rewrite <- app_assoc; reflexivity|]. simpl.
      rewrite Hcur. simpl. repeat split. intros _. eauto.
  - destruct quitClosed; [|discriminate]. injection Hstep as <-. simpl.
    split; [reflexivity|]. exists []. rewrite app_nil_r. simpl. repeat split.
    rewrite ?Hf. intros [? ?]; discriminate.
Qed.

(** X4.  In every run of the validator reactor, whatever the order of
    blocks, ticks and quit: what it records is what
    [SubmitFinalitySignaturesForAll], [GetCurrentBbnBlock] and
    [CommitPubRandForAll] returned, each call made at the state the call
    before it left, every failed call followed by its error line, and the
    rest of the app is left in the state after the last call; the blocks
    it submitted signatures for are the blocks it took off the poller's
    channel, each once and in the order of arrival; every failed
    submission and every failed commit is logged with its height, in the
    order of the failures; a fatal exit is the last thing it did, on a tick
    that could not get the current block; and it returned only if quit was
    closed. *)
Theorem submitter_run_accounts quitClosed cases s s' :
  validatorSubmissionLoop submitSigs currentBlock commitRand quitClosed cases s = Some s' ->
  exists X, strace s' = strace s ++ X /\
    submitterCalls submitSigs currentBlock commitRand X ExpectCall (senv s) (senv s') /\
    blockInfoChan s = sigAttempts X ++ blockInfoChan s' /\
    loggedHeights X = failedHeights X /\
    (sfatal s = None -> is_Some (sfatal s') ->
     exists X0 err,
       X = X0 ++ [CurrentBlock (inr err);
                  SubmitterLogged FatalLevel "failed to get the current Babylon block" None]) /\
    (submitterDone s = false -> submitterDone s' = true -> quitClosed = true).
Proof.
  revert s. induction cases as [|c rest IH]; intros s Hrun; simpl in Hrun.
  - injection Hrun as <-. exists []. rewrite app_nil_r. simpl. repeat split.
    + intros Hn [? Hs]. congruence.
    + congruence.
  - destruct (validatorSubmissionStep _ _ _ quitClosed c s) as [s1|] eqn:Hstep; [|discriminate].
    destruct (validatorSubmissionStep_spec quitClosed c s s1 Hstep)
      as (Hf & Hd & Hq1 & X1 & Ht1 & Hr1 & Hc1 & Hl1 & Hfat1).
    destruct (IH s1 Hrun) as (X & Ht & Hr & Hc & Hl & Hfat & Hq).
    exists (X1 ++ X). rewrite Ht, Ht1, <- app_assoc. split; [reflexivity|].
    split; [exact (submitterCalls_app X1 X ExpectCall _ _ _ Hr1 Hr)|].
    unfold sigAttempts, loggedHeights, failedHeights in *.
    rewrite !omap_app, Hc1, Hc, Hl1, Hl, <- app_assoc.
    repeat split.
    + intros _ Hs'. destruct (sfatal s1) as [m|] eqn:Hf1.
      * destruct rest as [|c' rest']; simpl in Hrun.
        -- injection Hrun as <-. destruct Hfat1 as [err ->]; [eauto|].
           assert (X = []) as ->.
           { apply (app_inv_head (strace s1)). rewrite app_nil_r. symmetry. exact Ht. }
           exists [], err. reflexivity.
        -- unfold validatorSubmissionStep in Hrun. rewrite Hf1 in Hrun. discriminate.
      * destruct (Hfat eq_refl Hs') as (X0 & err & ->).
        exists (X1 ++ X0), err. rewrite <- app_assoc. reflexivity.
    + intros _ Hd'. destruct (submitterDone s1) eqn:Hd1; [apply Hq1; reflexivity|].
      apply Hq; [reflexivity|exact Hd'].
Qed.

End SubmitterTheorems.

(** Three blocks, the middle one of odd height: all three are attempted, the
    height of the middle one is logged, and the three calls each moved the
    rest of the app on. *)
Lemma blocks_all_attempted_witness :
  let bs := [mkBlockInfo 10 []; mkBlockInfo 11 []; mkBlockInfo 12 []] in
  let s := mkSubmitter 0%nat bs [] None false in
  exists s',
    validatorSubmissionLoop sigsButOdd blockUntilTwo commitFails false
      (replicate 3 CaseBlockInfo) s = Some s' /\
    sigAttempts (strace s') = bs /\ loggedHeights (strace s') = [11] /\
    submitterCalls sigsButOdd blockUntilTwo commitFails (strace s') ExpectCall 0%nat 3%nat.
Proof.
  intros bs s.
  destruct (blocks_all_attempted sigsButOdd blockUntilTwo commitFails false bs [] s)
    as (s' & Hrun & _ & _ & _ & X & Ht & Hr & _); [reflexivity|reflexivity|reflexivity|].
  exists s'. split; [exact Hrun|].
  change (strace s' = X) in Ht. rewrite <- Ht in Hr.
  vm_compute in Hrun. injection Hrun as <-.
  split; [reflexivity|]. split; [reflexivity|exact Hr].
Defined.

(** The third tick finds no current block: the process exits, the block in
    the channel stays there. *)
Lemma commit_tick_without_block_is_fatal_witness :
  let s := mkSubmitter 2%nat [mkBlockInfo 10 []] [] None false in
  let s' := default s (validatorSubmissionStep sigsButOdd blockUntilTwo commitFails false
                         CaseCommitRandTick s) in
  is_Some (sfatal s') /\
  validatorSubmissionLoop sigsButOdd blockUntilTwo commitFails false [CaseBlockInfo] s' = None.
Proof.
  intros s s'.
  destruct (commit_tick_without_block_is_fatal sigsButOdd blockUntilTwo commitFails false
              s s' "no connection" 3%nat eq_refl eq_refl) as (_ & Hf & _ & Hno).
  split; [exact Hf|apply Hno].
Defined.

(** Four ticks, every commit rejected: four commits attempted, four error
    lines, eight calls that each moved the rest of the app on, the reactor
    still running. *)
Lemma commit_failures_never_fatal_witness :
  let s := mkSubmitter 0%nat [] [] None false in
  exists s',
    validatorSubmissionLoop sigsButOdd blockSeven commitFails false
      (replicate 4 CaseCommitRandTick) s = Some s' /\
    sfatal s' = None /\ length (commitAttempts (strace s')) = 4%nat /\
    loggedHeights (strace s') = [7; 7; 7; 7] /\
    submitterCalls sigsButOdd blockSeven commitFails (strace s') ExpectCall 0%nat 8%nat.
Proof.
  intros s.
  destruct (commit_failures_never_fatal sigsButOdd blockSeven commitFails false 4 s)
    as (s' & Hrun & _ & Hf & _ & X & Ht & Hr & _);
    [intros e; eexists _, _; reflexivity|reflexivity|reflexivity|].
  exists s'. split; [exact Hrun|]. split; [exact Hf|].
  change (strace s' = X) in Ht. rewrite <- Ht in Hr.
  vm_compute in Hrun. injection Hrun as <-.
  split; [reflexivity|]. split; [reflexivity|exact Hr].
Defined.

(** A block, a tick whose commit fails, a second block of odd height, then
    quit: both blocks were submitted in order, both failures logged, and
    the four calls each moved the rest of the app on. *)
Lemma submitter_run_accounts_witness :
  let s := mkSubmitter 0%nat [mkBlockInfo 4 []; mkBlockInfo 5 []] [] None false in
  let cases := [CaseBlockInfo; CaseCommitRandTick; CaseBlockInfo; CaseSubmitterQuit] in
  let s' := default s (validatorSubmissionLoop sigsButOdd blockSeven commitFails true cases s) in
  sigAttempts (strace s') = [mkBlockInfo 4 []; mkBlockInfo 5 []] /\
  loggedHeights (strace s') = failedHeights (strace s') /\
  loggedHeights (strace s') = [7; 5] /\
  submitterCalls sigsButOdd blockSeven commitFails (strace s') ExpectCall 0%nat 4%nat.
Proof.
  intros s cases s'.
  destruct (submitter_run_accounts sigsButOdd blockSeven commitFails true cases s s' eq_refl)
    as (X & Ht & Hr & Hc & Hl & _).
  change (strace s' = X) in Ht. rewrite Ht.
  split; [|split; [exact Hl|split; [rewrite <- Ht; reflexivity|exact Hr]]].
  change ([mkBlockInfo 4 []; mkBlockInfo 5 []] = sigAttempts X ++ []) in Hc.
  rewrite app_nil_r in Hc. symmetry. exact Hc.
Defined.

(** ** From a request to its reply *)

Section Completion.
  Context {C : Type}.
  Variable bc : BabylonClient C.
  Variable handleCreate :
    createValidatorRequest -> ValidatorStore -> (Bytes + error) * ValidatorStore.
  Implicit Types (app : App C) (e : Event).

Lemma replies_app t1 t2 : replies (t1 ++ t2) = replies t1 ++ replies t2.
Proof. apply omap_app. Qed.

Lemma replies_none X : repliedSlots X = [] -> replies X = [].
Proof.
  induction X as [|a X IH]; [reflexivity|]. destruct a; simpl; try exact IH. discriminate.
Qed.

(** The submission loop, its chain call accepted. *)
Lemma handleSentToBabylonStep_success c app app' r call txHash st' :
  handleSentToBabylonStep bc c app = Some app' ->
  nextRequest c app = Some r ->
  callOf r = Some call ->
  performCall bc call (bcState app) = (TxOk txHash, st') ->
  exists e msg,
    completion r txHash = Some e /\
    app' = set_trace (trace app ++ [Called call (TxOk txHash); Logged InfoLevel msg])
             (set_bcState st' (deliver e (dequeue c app))).
Proof.
  unfold handleSentToBabylonStep. intros Hstep Hnext Hcall Hperf.
  destruct (status app) eqn:Hst; try discriminate.
  destruct (sendLoopDone app) eqn:Hdone; try discriminate.
  destruct c; simpl in Hnext; try discriminate.
  - destruct (addFinalitySigRequestChan app) as [|req rest] eqn:Hq; try discriminate.
    injection Hnext as <-. injection Hcall as <-. injection Hstep as <-.
    simpl in Hperf. unfold onAddFinalitySigRequest, mbind, eff_bind, call. simpl.
    rewrite Hperf. simpl. eexists _, _. split; [reflexivity|].
    rewrite Hq, <- app_assoc. reflexivity.
  - destruct (registerValidatorRequestChan app) as [|req rest] eqn:Hq; try discriminate.
    injection Hnext as <-. injection Hcall as <-. injection Hstep as <-.
    simpl in Hperf. unfold onRegisterValidatorRequest, mbind, eff_bind, call. simpl.
    rewrite Hperf. simpl. eexists _, _. split; [reflexivity|].
    rewrite Hq, <- app_assoc. reflexivity.
  - destruct (commitPubRandRequestChan app) as [|req rest] eqn:Hq; try discriminate.
    injection Hnext as <-. injection Hcall as <-. injection Hstep as <-.
    simpl in Hperf. unfold onCommitPubRandRequest, mbind, eff_bind, call. simpl.
    rewrite Hperf. simpl. eexists _, _. split; [reflexivity|].
    rewrite Hq, <- app_assoc. reflexivity.
  - destruct (addJurySigRequestChan app) as [|req rest] eqn:Hq; try discriminate.
    injection Hnext as <-. injection Hcall as <-. injection Hstep as <-.
    simpl in Hperf. unfold onAddJurySigRequest, mbind, eff_bind, call. simpl.
    rewrite Hperf. simpl. eexists _, _. split; [reflexivity|].
    rewrite Hq, <- app_assoc. reflexivity.
Qed.

Lemma nextEvent_deliver c r txHash e app :
  nextRequest c app = Some r ->
  completion r txHash = Some e ->
  nextEvent (completionCase c) (dequeue c app) = None ->
  nextEvent (completionCase c) (deliver e (dequeue c app)) = Some e.
Proof.
  destruct c; simpl; intros Hn Hc Hnone; try discriminate.
  - destruct (addFinalitySigRequestChan app); [discriminate|].
    injection Hn as <-. injection Hc as <-. simpl in *.
    destruct (finalitySigAddedEventChan app); [reflexivity|discriminate].
  - destruct (registerValidatorRequestChan app); [discriminate|].
    injection Hn as <-. injection Hc as <-. simpl in *.
    destruct (validatorRegisteredEventChan app); [reflexivity|discriminate].
  - destruct (commitPubRandRequestChan app); [discriminate|].
    injection Hn as <-. injection Hc as <-. simpl in *.
    destruct (pubRandCommittedEventChan app); [reflexivity|discriminate].
  - destruct (addJurySigRequestChan app); [discriminate|].
    injection Hn as <-. injection Hc as <-. simpl in *.
    destruct (jurySigAddedEventChan app); [reflexivity|discriminate].
Qed.

Lemma nextEvent_dequeue c c' app : nextEvent c' (dequeue c app) = nextEvent c' app.
Proof. destruct c, c'; reflexivity. Qed.

Lemma completion_sent_aux c app app' r call txHash st' :
  handleSentToBabylonStep bc c app = Some app' ->
  nextRequest c app = Some r ->
  callOf r = Some call ->
  performCall bc call (bcState app) = (TxOk txHash, st') ->
  exists e,
    completion r txHash = Some e /\
    eventSlot e = requestSlot r /\ txOf (successOf e) = Some (c, txHash) /\
    (exists msg, trace app' = trace app ++ [Called call (TxOk txHash); Logged InfoLevel msg]) /\
    vs app' = vs app /\
    (nextEvent (completionCase c) app = None ->
     nextEvent (completionCase c) app' = Some e).
Proof.
  intros Hstep Hnext Hcall Hperf.
  destruct (handleSentToBabylonStep_success c app app' r call txHash st'
              Hstep Hnext Hcall Hperf) as (e & msg & He & ->).
  exists e. split; [exact He|].
  split; [destruct r; simpl in He; try discriminate; injection He as <-; reflexivity|].
  split.
  { destruct c, r; simpl in Hnext, He; try discriminate;
      repeat match goal with
        | H : _ <$> head ?l = Some _ |- _ => destruct l; simpl in H; try discriminate
        end; injection He as <-; reflexivity. }
  split; [exists msg; reflexivity|].
  split; [destruct e, c; reflexivity|].
  intros Hnone. rewrite <- (nextEvent_dequeue c) in Hnone.
  change (nextEvent (completionCase c) (deliver e (dequeue c app)) = Some e).
  eapply nextEvent_deliver; eassumption.
Qed.

(** X5.  When the submission loop takes a request and the chain accepts its
    call, the loop writes no reply: it logs, and sends one completion event
    on the channel of the request's kind, behind the events already there;
    the event is made of the request's fields, with the request's slot and
    the hash the chain returned.  The store is as it was. *)
Theorem chain_success_sends_completion c app app' r call txHash st' :
  handleSentToBabylonStep bc c app = Some app' ->
  nextRequest c app = Some r ->
  callOf r = Some call ->
  performCall bc call (bcState app) = (TxOk txHash, st') ->
  exists e,
    completion r txHash = Some e /\
    eventSlot e = requestSlot r /\ txOf (successOf e) = Some (c, txHash) /\
    wiring app' = wiring (set_bcState st' (deliver e (dequeue c app))) /\
    (exists msg, emitted app app' = [Called call (TxOk txHash); Logged InfoLevel msg]) /\
    replies (emitted app app') = [] /\
    vs app' = vs app /\ status app' = Running /\
    (nextEvent (completionCase c) app = None ->
     nextEvent (completionCase c) app' = Some e).
Proof.
  intros Hstep Hnext Hcall Hperf.
  destruct (completion_sent_aux c app app' r call txHash st'
              Hstep Hnext Hcall Hperf) as (e & He & Hslot & Htx & [msg Ht] & Hvs & Hnx).
  destruct (handleSentToBabylonStep_success c app app' r call txHash st'
              Hstep Hnext Hcall Hperf) as (e' & msg' & He' & Happ).
  assert (e' = e) by congruence. subst e'.
  assert (Hst : status app = Running).
  { unfold handleSentToBabylonStep in Hstep. destruct (status app); congruence. }
  exists e. repeat split; try assumption.
  - rewrite Happ. reflexivity.
  - exists msg. apply emitted_app. exact Ht.
  - rewrite (emitted_app _ _ _ Ht). reflexivity.
  - rewrite Happ. destruct e, c; exact Hst.
Qed.


Lemma replies_randPairCalls ev W i : replies (randPairCalls ev i W) = [].
Proof. apply replies_none, repliedSlots_randPairCalls. Qed.

Lemma storeCalls_randPairCalls_ok ev W i :
  Forall (fun c => c.2 = true) (storeCalls (randPairCalls ev i W)).
Proof.
  revert i. induction W as [|p W IH]; intros i; [constructor|].
  rewrite randPairCalls_cons. simpl. constructor; [reflexivity|apply IH].
Qed.

Lemma chainCalls_randPairCalls ev W i : chainCalls (randPairCalls ev i W) = [].
Proof.
  revert i. induction W as [|p W IH]; intros i; [reflexivity|].
  rewrite randPairCalls_cons. simpl. apply IH.
Qed.

(** The handler of a completion event that finds what it needs and whose
    store calls succeed. *)
Lemma onEvent_success e app :
  handleable e (vs app) ->
  writesOk (writesNeeded e) (vs app) ->
  (onEvent e app).1 = Some tt /\ status (onEvent e app).2 = status app /\
  exists X, trace (onEvent e app).2 = trace app ++ X /\
    replies X = [(eventSlot e, successOf e)] /\
    length (storeCalls X) = writesNeeded e /\
    Forall (fun c => c.2 = true) (storeCalls X) /\
    chainCalls X = [].
Proof.
  destruct e as [ev|ev|ev|ev]; simpl; intros Hh Hok.
  - destruct Hh as [val Hget].
    unfold onFinalitySigAdded, mbind, eff_bind, vsGet. rewrite Hget, vsCall_eq.
    destruct (runStoreOp_ok (OpSetValidatorLastVotedHeight val (fsa_height ev)) (vs app) 0 Hok)
      as [Hnone _].
    destruct (runStoreOp _ (vs app)) as [err s']. simpl in Hnone. subst err. simpl.
    repeat split. eexists [_; _]. rewrite <- app_assoc. repeat split. repeat constructor.
  - destruct Hh as [val Hget].
    unfold onValidatorRegistered, mbind, eff_bind, vsGet. rewrite Hget, vsCall_eq.
    destruct (runStoreOp_ok (OpSetValidatorStatus val ValidatorStatus_REGISTERED) (vs app) 0 Hok)
      as [Hnone _].
    destruct (runStoreOp _ (vs app)) as [err s']. simpl in Hnone. subst err. simpl.
    repeat split. eexists [_; _]. rewrite <- app_assoc. repeat split. repeat constructor.
  - destruct Hh as [[val Hget] Hlen].
    assert (HW : length (zip (prc_privRandList ev) (prc_pubRandList ev)) =
                 length (prc_privRandList ev)) by (rewrite length_zip; lia).
    destruct (onPubRandCommitted_writesOk ev app val Hget) as (_ & _ & Hle & _).
    { rewrite HW. exact Hok. }
    destruct (Hle Hlen) as (H1 & Hst & Ht). split; [exact H1|]. split; [exact Hst|].
    eexists. split; [exact Ht|]. simpl.
    rewrite replies_app, storeCalls_app, chainCalls_app, length_app, replies_randPairCalls,
      storeCalls_randPairCalls, chainCalls_randPairCalls, HW. simpl.
    rewrite Nat.add_0_r, app_nil_r. repeat split.
    constructor; [reflexivity|apply storeCalls_randPairCalls_ok].
  - unfold onJurySigAdded. simpl. repeat split. eexists [_]. repeat split. constructor.
Qed.

(** X6.  When the event loop takes a completion event of any kind, finds the
    validator it names (a jury signature names none to look for), has a
    public value for every secret value of a commitment, and its store
    calls succeed, then it writes exactly one reply: the response of the
    event's kind, with the event's transaction hash, on the event's slot.
    It makes no chain call, and the process runs on. *)
Theorem completion_answered c app app' e :
  eventLoopStep handleCreate c app = Some app' ->
  nextEvent c app = Some e ->
  handleable e (vs app) ->
  writesOk (writesNeeded e) (vs app) ->
  replies (emitted app app') = [(eventSlot e, successOf e)] /\
  length (storeCalls (emitted app app')) = writesNeeded e /\
  Forall (fun c => c.2 = true) (storeCalls (emitted app app')) /\
  chainCalls (emitted app app') = [] /\
  status app' = Running.
Proof.
  intros Hstep Hnext Hh Hok.
  destruct (eventLoopStep_receive handleCreate c app app' e Hstep Hnext) as [-> Hst].
  rewrite <- (vs_receive c app) in Hh, Hok.
  destruct (onEvent_success e (receive c app) Hh Hok) as (_ & Hst' & X & Ht & Hr & Hn & Ha & Hc).
  rewrite trace_receive in Ht. rewrite (emitted_app _ _ _ Ht).
  rewrite status_receive in Hst'. repeat split; try assumption. congruence.
Qed.

(** X7.  A request through both loops.  When the submission loop takes a request
    and the chain accepts its call, and the event loop then takes the
    completion event (no older event of the kind waiting), finds what the
    handler needs and its store calls succeed, then the two iterations make
    exactly one chain call, that of the request, and write exactly one
    reply: on the request's slot, the response of the request's kind with
    the hash the chain returned. *)
Theorem request_answered_with_chain_hash c app app' r call txHash st' e :
  run bc handleCreate [SendLoop c; EventLoop (completionCase c)] app = Some app' ->
  nextRequest c app = Some r ->
  callOf r = Some call ->
  performCall bc call (bcState app) = (TxOk txHash, st') ->
  completion r txHash = Some e ->
  nextEvent (completionCase c) app = None ->
  handleable e (vs app) ->
  writesOk (writesNeeded e) (vs app) ->
  replies (emitted app app') = [(requestSlot r, successOf e)] /\
  txOf (successOf e) = Some (c, txHash) /\
  chainCalls (emitted app app') = [call] /\
  status app' = Running.
Proof.
  intros Hrun Hnext Hcall Hperf He Hnone Hh Hok. simpl in Hrun.
  destruct (handleSentToBabylonStep bc c app) as [app1|] eqn:Hs1; [|discriminate].
  destruct (eventLoopStep handleCreate (completionCase c) app1) as [app2|] eqn:Hs2;
    [|discriminate].
  injection Hrun as <-.
  destruct (completion_sent_aux c app app1 r call txHash st'
              Hs1 Hnext Hcall Hperf) as (e' & He' & Hslot & Htx & Hem & Hvs & Hnx).
  assert (e' = e) by congruence. subst e'.
  specialize (Hnx Hnone). rewrite <- Hvs in Hh, Hok.
  destruct (eventLoopStep_receive handleCreate _ app1 app2 e Hs2 Hnx) as [-> Hst].
  rewrite <- (vs_receive (completionCase c) app1) in Hh, Hok.
  destruct (onEvent_success e (receive (completionCase c) app1) Hh Hok)
    as (_ & Hst' & X & Ht & Hr & _ & _ & Hc).
  rewrite trace_receive in Ht. destruct Hem as [msg Hem].
  assert (Hall : emitted app (onEvent e (receive (completionCase c) app1)).2 =
                 [Called call (TxOk txHash); Logged InfoLevel msg] ++ X).
  { apply emitted_app. rewrite Ht, Hem, <- app_assoc. reflexivity. }
  rewrite Hall, replies_app, chainCalls_app, Hr, Hc, Hslot. simpl.
  rewrite status_receive in Hst'. repeat split; try assumption. congruence.
Qed.

End Completion.

(** A vote the chain accepts: the submission loop sends its completion
    event and writes no reply. *)
Lemma chain_success_sends_completion_witness :
  let app := default app1 (run pickyClient createValidator [Submit (reqVote 101 1)] app1) in
  let app' := default app (handleSentToBabylonStep pickyClient CaseAddFinalitySigRequest app) in
  nextEvent CaseFinalitySigAdded app' = Some (EvFinalitySigAdded evVote) /\
  replies (emitted app app') = [].
Proof.
  intros app app'.
  destruct (chain_success_sends_completion pickyClient CaseAddFinalitySigRequest app app'
              (reqVote 101 1) (CallSubmitFinalitySig ["b"%byte] 101 [] []) ["7"%byte] tt)
    as (e & He & _ & _ & _ & _ & Hr & _ & _ & Hn); [reflexivity..|].
  injection He as <-. split; [apply Hn; reflexivity|exact Hr].
Defined.

(** The five values of the spec's scenario: six store calls, then the reply
    on slot 5. *)
Lemma completion_answered_witness :
  let app := deliver (EvPubRandCommitted evFive) app1 in
  let app' := default app (eventLoopStep createValidator CasePubRandCommitted app) in
  replies (emitted app app') = [(5%nat, commitPubRandResponse ["9"%byte])] /\
  length (storeCalls (emitted app app')) = 6%nat.
Proof.
  intros app app'.
  destruct (completion_answered createValidator CasePubRandCommitted app app'
              (EvPubRandCommitted evFive)) as (Hr & Hl & _); [reflexivity..| | |].
  - split; [vm_compute; eauto|simpl; lia].
  - apply Forall_nil_2.
  - split; [exact Hr|exact Hl].
Defined.

(** A registration through both loops: one chain call, one reply on slot 2
    with the hash of the chain. *)
Lemma request_answered_with_chain_hash_witness :
  let app := default app1 (run pickyClient createValidator [Submit reqRegister] app1) in
  let app' := default app (run pickyClient createValidator
                [SendLoop CaseRegisterValidatorRequest; EventLoop CaseValidatorRegistered] app) in
  replies (emitted app app') = [(2%nat, registerValidatorResponse ["8"%byte])] /\
  chainCalls (emitted app app') = [CallRegisterValidator pk1 ["b"%byte] []].
Proof.
  intros app app'.
  destruct (request_answered_with_chain_hash pickyClient createValidator
              CaseRegisterValidatorRequest app app' reqRegister
              (CallRegisterValidator pk1 ["b"%byte] []) ["8"%byte] tt
              (EvValidatorRegistered (mkValidatorRegisteredEvent pk1 ["8"%byte] 2%nat)))
    as (Hr & _ & Hc & _); [reflexivity..| | |].
  - vm_compute; eauto.
  - apply Forall_nil_2.
  - split; [exact Hr|exact Hc].
Defined.

(** ** The hashes in the replies *)

Section Routing.
  Context {C : Type}.
  Variable bc : BabylonClient C.
  Variable handleCreate :
    createValidatorRequest -> ValidatorStore -> (Bytes + error) * ValidatorStore.
  Implicit Types (app : App C) (e : Event) (y : Answer) (r : Request).

Lemma answers_app t1 t2 : answers (t1 ++ t2) = answers t1 ++ answers t2.
Proof. unfold answers. rewrite replies_app. apply omap_app. Qed.

Lemma answers_none X : replies X = [] -> answers X = [].
Proof. unfold answers. intros ->. reflexivity. Qed.

Lemma answerOf_success e : txOf (successOf e) = Some (answerOf e).2.
Proof. destruct e; reflexivity. Qed.

Lemma answerOf_slot e : (answerOf e).1 = eventSlot e.
Proof. destruct e; reflexivity. Qed.

Lemma answers_success e : answers [Replied (eventSlot e) (successOf e)] = [answerOf e].
Proof. destruct e; reflexivity. Qed.

Lemma completion_answerOf r txHash e call :
  completion r txHash = Some e -> callOf r = Some call ->
  answerOf e = (requestSlot r, (callCase call, txHash)).
Proof.
  destruct r; simpl; intros He Hc; try discriminate;
    injection He as <-; injection Hc as <-; reflexivity.
Qed.

Lemma called_for_mono t X y : called_for t y -> called_for (t ++ X) y.
Proof.
  intros (r & call & Hr & Hs & Hc & Hk & Hin). exists r, call.
  rewrite submittedRequests_app, !elem_of_app. repeat split; auto.
Qed.

Lemma requestsWaiting_wiring app app' :
  wiring app' = wiring app -> requestsWaiting app' = requestsWaiting app.
Proof.
  unfold wiring, requestsWaiting. intros H.
  injection H as -> -> -> -> -> _ _ _ _ _ _ _ _. reflexivity.
Qed.

Lemma eventsWaiting_wiring app app' :
  wiring app' = wiring app -> eventsWaiting app' = eventsWaiting app.
Proof.
  unfold wiring, eventsWaiting. intros H.
  injection H as _ _ _ _ _ -> -> -> -> _ _ _ _. reflexivity.
Qed.

Lemma requestsWaiting_enqueue r app x :
  x ∈ requestsWaiting (enqueue r app) -> x ∈ requestsWaiting app \/ x = r.
Proof.
  unfold requestsWaiting. destruct r; simpl; rewrite ?fmap_app; simpl;
    intros H; elem_split; intuition (subst; auto).
Qed.

Lemma eventsWaiting_enqueue r app : eventsWaiting (enqueue r app) = eventsWaiting app.
Proof. destruct r; reflexivity. Qed.

Lemma requestsWaiting_dequeue c app x :
  x ∈ requestsWaiting (dequeue c app) -> x ∈ requestsWaiting app.
Proof.
  unfold requestsWaiting. destruct c; simpl; try (intros H; exact H).
  - destruct (addFinalitySigRequestChan app); simpl; intros H; elem_split; intuition auto.
  - destruct (registerValidatorRequestChan app); simpl; intros H; elem_split; intuition auto.
  - destruct (commitPubRandRequestChan app); simpl; intros H; elem_split; intuition auto.
  - destruct (addJurySigRequestChan app); simpl; intros H; elem_split; intuition auto.
Qed.

Lemma eventsWaiting_dequeue c app : eventsWaiting (dequeue c app) = eventsWaiting app.
Proof. destruct c; reflexivity. Qed.

Lemma requestsWaiting_deliver e app : requestsWaiting (deliver e app) = requestsWaiting app.
Proof. destruct e; reflexivity. Qed.

Lemma eventsWaiting_deliver e app x :
  x ∈ eventsWaiting (deliver e app) -> x ∈ eventsWaiting app \/ x = e.
Proof.
  unfold eventsWaiting. destruct e as [ev|ev|ev|ev]; simpl; rewrite ?fmap_app; simpl;
    intros H; elem_split; intuition (subst; auto).
Qed.

Lemma requestsWaiting_receive c app x :
  x ∈ requestsWaiting (receive c app) -> x ∈ requestsWaiting app.
Proof.
  unfold requestsWaiting. destruct c; simpl; try (intros H; exact H).
  destruct (createValidatorRequestChan app); simpl; intros H; elem_split; intuition auto.
Qed.

Lemma eventsWaiting_receive c app x :
  x ∈ eventsWaiting (receive c app) -> x ∈ eventsWaiting app.
Proof.
  unfold eventsWaiting. destruct c; simpl; try (intros H; exact H).
  - destruct (finalitySigAddedEventChan app); simpl; intros H; elem_split; intuition auto.
  - destruct (validatorRegisteredEventChan app); simpl; intros H; elem_split; intuition auto.
  - destruct (pubRandCommittedEventChan app); simpl; intros H; elem_split; intuition auto.
  - destruct (jurySigAddedEventChan app); simpl; intros H; elem_split; intuition auto.
Qed.

Lemma nextRequest_waiting c app r :
  nextRequest c app = Some r -> r ∈ requestsWaiting app.
Proof.
  unfold requestsWaiting. destruct c; simpl; intros Hn; try discriminate.
  - destruct (addFinalitySigRequestChan app); [discriminate|].
    injection Hn as <-. simpl. elem_split. auto 10.
  - destruct (registerValidatorRequestChan app); [discriminate|].
    injection Hn as <-. simpl. elem_split. auto 10.
  - destruct (commitPubRandRequestChan app); [discriminate|].
    injection Hn as <-. simpl. elem_split. auto 10.
  - destruct (addJurySigRequestChan app); [discriminate|].
    injection Hn as <-. simpl. elem_split. auto 10.
Qed.

Lemma nextEvent_waiting c app e :
  nextEvent c app = Some e -> e ∈ eventsWaiting app.
Proof.
  unfold eventsWaiting. destruct c; simpl; intros Hn; try discriminate.
  - destruct (finalitySigAddedEventChan app); [discriminate|].
    injection Hn as <-. simpl. elem_split. auto 10.
  - destruct (validatorRegisteredEventChan app); [discriminate|].
    injection Hn as <-. simpl. elem_split. auto 10.
  - destruct (pubRandCommittedEventChan app); [discriminate|].
    injection Hn as <-. simpl. elem_split. auto 10.
  - destruct (jurySigAddedEventChan app); [discriminate|].
    injection Hn as <-. simpl. elem_split. auto 10.
Qed.

(** Whatever a completion handler replies, it replies once, on the slot
    of its event, the response made of the event's hash. *)
Lemma onEvent_replies e app :
  exists X, trace (onEvent e app).2 = trace app ++ X /\
    (replies X = [] \/ replies X = [(eventSlot e, successOf e)]).
Proof.
  destruct e as [ev|ev|ev|ev]; simpl.
  - unfold onFinalitySigAdded, mbind, eff_bind, vsGet.
    destruct (GetValidator _ (vs app)) as [val|]; [|eexists [_]; simpl; auto].
    rewrite vsCall_eq. destruct (runStoreOp _ (vs app)) as [[err|] s']; simpl;
      eexists [_; _]; rewrite <- app_assoc; simpl; auto.
  - unfold onValidatorRegistered, mbind, eff_bind, vsGet.
    destruct (GetValidator _ (vs app)) as [val|]; [|eexists [_]; simpl; auto].
    rewrite vsCall_eq. destruct (runStoreOp _ (vs app)) as [[err|] s']; simpl;
      eexists [_; _]; rewrite <- app_assoc; simpl; auto.
  - unfold onPubRandCommitted, mbind, eff_bind, vsGet.
    destruct (GetValidator _ (vs app)) as [val|]; [|eexists [_]; simpl; auto].
    rewrite vsCall_eq. destruct (runStoreOp _ (vs app)) as [[err|] s']; simpl;
      [eexists [_; _]; rewrite <- app_assoc; simpl; auto|].
    match goal with |- context [saveRandPairs ev 0 _ ?a] =>
      pose proof (saveRandPairs_outcome ev (prc_privRandList ev) 0 a) as H end.
    destruct H as (_ & X & Ht & Hc & _ & Hr).
    assert (Hnone : replies X = []).
    { apply replies_none.
      destruct (saveRandPairs ev 0 _ _).1; [apply Hr|apply Hr]. }
    destruct (saveRandPairs ev 0 _ _) as [[[]|] a']; simpl in *.
    + unfold reply, record. simpl. eexists (_ :: X ++ [_]).
      rewrite Ht, <- !app_assoc. simpl. split; [reflexivity|].
      rewrite replies_app, Hnone. simpl. auto.
    + eexists (_ :: X). rewrite Ht, <- !app_assoc. simpl. split; [reflexivity|].
      rewrite Hnone. auto.
  - unfold onJurySigAdded. eexists [_]. simpl. auto.
Qed.

(** What a step has to show to keep the replies routed. *)
Lemma replies_routed_step app app' X :
  trace app' = trace app ++ X ->
  (forall r, r ∈ requestsWaiting app' ->
     r ∈ requestsWaiting app \/ r ∈ submittedRequests X) ->
  (forall y, y ∈ answers X ++ (answerOf <$> eventsWaiting app') ->
     y ∈ answerOf <$> eventsWaiting app \/ called_for (trace app ++ X) y) ->
  replies_routed app -> replies_routed app'.
Proof.
  intros Ht Hreq Hans [Hr Ha]. split.
  - intros r Hin. rewrite Ht, submittedRequests_app, elem_of_app.
    destruct (Hreq r Hin) as [H|H]; auto.
  - intros y Hin. rewrite Ht in *. rewrite answers_app, <- app_assoc, elem_of_app in Hin.
    destruct Hin as [Hin|Hin].
    + apply called_for_mono, Ha, elem_of_app. auto.
    + destruct (Hans y Hin) as [H|H]; [|exact H].
      apply called_for_mono, Ha, elem_of_app. auto.
Qed.

Lemma sysStep_replies_routed st app app' :
  sysStep bc handleCreate st app = Some app' -> replies_routed app -> replies_routed app'.
Proof.
  intros Hstep Hinv. pose proof Hinv as [Hsub _].
  destruct st as [r| |c|c]; simpl in Hstep.
  - destruct (status app); try discriminate. injection Hstep as <-.
    apply (replies_routed_step app _ [Submitted r]); [reflexivity| | |exact Hinv].
    + intros x Hx.
      change (x ∈ requestsWaiting (enqueue r app)) in Hx.
      apply requestsWaiting_enqueue in Hx as [Hx| ->]; [auto|].
      right. simpl. apply list_elem_of_singleton. reflexivity.
    + intros y Hy. left.
      change (y ∈ answerOf <$> eventsWaiting (enqueue r app)) in Hy.
      rewrite eventsWaiting_enqueue in Hy. exact Hy.
  - destruct (status app); try discriminate. injection Hstep as <-.
    apply (replies_routed_step app _ []); [simpl; rewrite app_nil_r; reflexivity| | |exact Hinv].
    + intros x Hx. left. exact Hx.
    + intros y Hy. left. exact Hy.
  - destruct (nextRequest c app) as [r|] eqn:Hnext.
    + destruct (handleSentToBabylonStep_request bc c app app' r Hstep Hnext)
        as (call & Hcall & Hcase & _ & _ & _ & Hres).
      destruct (performCall bc call (bcState app)) as [[tx|err] st'] eqn:Hperf; simpl in Hres.
      * destruct (handleSentToBabylonStep_success bc c app app' r call tx st'
                    Hstep Hnext Hcall Hperf) as (e & msg & He & ->).
        apply (replies_routed_step app _ [Called call (TxOk tx); Logged InfoLevel msg]);
          [reflexivity| | |exact Hinv].
        -- intros x Hx. left.
           change (x ∈ requestsWaiting (deliver e (dequeue c app))) in Hx.
           rewrite requestsWaiting_deliver in Hx.
           apply requestsWaiting_dequeue in Hx. exact Hx.
        -- intros y Hy.
           change (y ∈ answerOf <$> eventsWaiting (deliver e (dequeue c app))) in Hy.
           apply list_elem_of_fmap in Hy as (x & -> & Hx).
           apply eventsWaiting_deliver in Hx. rewrite eventsWaiting_dequeue in Hx.
           destruct Hx as [Hx| ->]; [left; apply list_elem_of_fmap; eauto|].
           right. rewrite (completion_answerOf r tx e call He Hcall).
           exists r, call. rewrite submittedRequests_app, !elem_of_app. simpl.
           repeat split; try assumption; try reflexivity.
           ++ left. apply Hsub. eapply nextRequest_waiting. exact Hnext.
           ++ right. apply list_elem_of_here.
      * destruct Hres as (Hw & msg & Ht).
        apply (replies_routed_step app _ _ Ht); [| |exact Hinv].
        -- intros x Hx. left. rewrite (requestsWaiting_wiring _ _ Hw) in Hx.
           change (x ∈ requestsWaiting (dequeue c app)) in Hx.
           apply requestsWaiting_dequeue in Hx. exact Hx.
        -- intros y Hy. left. rewrite (eventsWaiting_wiring _ _ Hw) in Hy.
           change (y ∈ answerOf <$> eventsWaiting (dequeue c app)) in Hy.
           rewrite eventsWaiting_dequeue in Hy. exact Hy.
    + destruct (handleSentToBabylonStep_quit bc c app app' Hstep Hnext) as (_ & -> & _).
      apply (replies_routed_step app _ []); [simpl; rewrite app_nil_r; reflexivity| | |exact Hinv].
      * intros x Hx. left. exact Hx.
      * intros y Hy. left. exact Hy.
  - destruct (nextEvent c app) as [e|] eqn:Hnext.
    + destruct (eventLoopStep_receive handleCreate c app app' e Hstep Hnext) as [-> Hst].
      destruct (onEvent_outcome e (receive c app)) as (Hw & _).
      destruct (onEvent_replies e (receive c app)) as (X & Ht & Hrep).
      rewrite trace_receive in Ht.
      apply (replies_routed_step app _ X Ht); [| |exact Hinv].
      * intros x Hx. left. rewrite (requestsWaiting_wiring _ _ Hw) in Hx.
        apply requestsWaiting_receive in Hx. exact Hx.
      * intros y Hy. left. rewrite (eventsWaiting_wiring _ _ Hw) in Hy.
        apply elem_of_app in Hy as [Hy|Hy].
        -- destruct Hrep as [Hrep|Hrep].
           ++ rewrite (answers_none X Hrep) in Hy. apply elem_of_nil in Hy. destruct Hy.
           ++ unfold answers in Hy. rewrite Hrep in Hy.
              change (y ∈ answers [Replied (eventSlot e) (successOf e)]) in Hy.
              rewrite answers_success in Hy. apply list_elem_of_singleton in Hy. subst y.
              apply list_elem_of_fmap. exists e. split; [reflexivity|].
              eapply nextEvent_waiting. exact Hnext.
        -- apply list_elem_of_fmap in Hy as (x & -> & Hx).
           apply eventsWaiting_receive in Hx. apply list_elem_of_fmap. eauto.
    + destruct (eventLoopStep_other handleCreate c app app' Hstep Hnext)
        as (_ & _ & [[-> ->]|(-> & req & resp & _ & Hw & Ht)]).
      * apply (replies_routed_step app _ []);
          [simpl; rewrite app_nil_r; reflexivity| | |exact Hinv].
        -- intros x Hx. left. exact Hx.
        -- intros y Hy. left. exact Hy.
      * assert (Hresp : txOf resp = None).
        { unfold eventLoopStep in Hstep.
          destruct (status app); try discriminate.
          destruct (eventLoopDone app); try discriminate.
          destruct (createValidatorRequestChan app) as [|req' rest]; [discriminate|].
          injection Hstep as <-. revert Ht. unfold onCreateValidatorRequest. simpl.
          destruct (handleCreate req' (vs app)) as [[resp'|err] s']; simpl;
            intros Ht; apply app_inv_head in Ht; injection Ht as _ <-; reflexivity. }
        apply (replies_routed_step app _ _ Ht); [| |exact Hinv].
        -- intros x Hx. left. rewrite (requestsWaiting_wiring _ _ Hw) in Hx.
           apply (requestsWaiting_receive CaseCreateValidatorRequest) in Hx. exact Hx.
        -- intros y Hy. left. rewrite (eventsWaiting_wiring _ _ Hw) in Hy.
           unfold answers in Hy. simpl in Hy. rewrite Hresp in Hy. simpl in Hy.
           apply list_elem_of_fmap in Hy as (x & -> & Hx).
           apply (eventsWaiting_receive CaseCreateValidatorRequest) in Hx. apply list_elem_of_fmap. eauto.
Qed.

Lemma run_replies_routed sched app app' :
  run bc handleCreate sched app = Some app' -> replies_routed app -> replies_routed app'.
Proof.
  revert app. induction sched as [|st rest IH]; intros app Hrun Hinv; simpl in Hrun.
  - injection Hrun as <-. exact Hinv.
  - destruct (sysStep bc handleCreate st app) as [app1|] eqn:Hstep; [|discriminate].
    apply (IH app1 Hrun). eapply sysStep_replies_routed; eassumption.
Qed.

(** X8.  In every run from the start of the app, each response that carries a
    transaction hash was written to the slot of a request that was
    submitted, is of the kind of that request, and carries a hash the chain
    returned to the call of that request: the loops never make up a hash,
    never answer a request of one kind with a response of another, and hand
    the reply slot of a request on with its hash. *)
Theorem reply_hash_is_of_own_call sched (store : ValidatorStore) (chain : C) app
    slot resp c h :
  run bc handleCreate sched (initApp store chain) = Some app ->
  Replied slot resp ∈ trace app ->
  txOf resp = Some (c, h) ->
  exists r call,
    r ∈ submittedRequests (trace app) /\ requestSlot r = slot /\
    callOf r = Some call /\ callCase call = c /\
    Called call (TxOk h) ∈ trace app.
Proof.
  intros Hrun Hin Htx.
  assert (Hinit : replies_routed (initApp store chain)).
  { split; intros x Hx; simpl in Hx; apply elem_of_nil in Hx; destruct Hx. }
  destruct (run_replies_routed sched _ _ Hrun Hinit) as [_ Hinv].
  apply (Hinv (slot, (c, h))). apply elem_of_app. left. unfold answers.
  apply list_elem_of_omap. exists (slot, resp). split; [|simpl; rewrite Htx; reflexivity].
  apply list_elem_of_omap. exists (Replied slot resp). auto.
Qed.

End Routing.

(** The reply to a registration is on the slot of the registration
    submitted, and its hash is the one the registration call returned. *)
Lemma reply_hash_is_of_own_call_witness :
  let sched := [Submit (reqVote 101 1); Submit reqRegister;
                SendLoop CaseRegisterValidatorRequest; EventLoop CaseValidatorRegistered] in
  let app := default app1 (run pickyClient createValidator sched app1) in
  exists r call,
    r ∈ submittedRequests (trace app) /\ requestSlot r = 2%nat /\
    callOf r = Some call /\ callCase call = CaseRegisterValidatorRequest /\
    Called call (TxOk ["8"%byte]) ∈ trace app.
Proof.
  intros sched app.
  assert (Hrun : run pickyClient createValidator sched (initApp store1 tt) = Some app)
    by (vm_compute; reflexivity).
  apply (reply_hash_is_of_own_call pickyClient createValidator sched store1 tt app
           2%nat (registerValidatorResponse ["8"%byte]) CaseRegisterValidatorRequest
           ["8"%byte] Hrun);
    [apply list_elem_of_In; vm_compute; auto 10|reflexivity].
Defined.

(** ** Who calls the chain, who writes the store, and shutdown *)

Section Sides.
  Context {C : Type}.
  Variable bc : BabylonClient C.
  Variable handleCreate :
    createValidatorRequest -> ValidatorStore -> (Bytes + error) * ValidatorStore.
  Implicit Types (app : App C).

(** What a step of the process can change. *)
Lemma sysStep_shape st app app' :
  sysStep bc handleCreate st app = Some app' ->
  exists X, trace app' = trace app ++ X /\
    match st with
    | Submit r =>
        X = [Submitted r] /\ vs app' = vs app /\ bcState app' = bcState app /\
        quit app' = quit app /\ sendLoopDone app' = sendLoopDone app /\
        eventLoopDone app' = eventLoopDone app
    | CloseQuit =>
        X = [] /\ vs app' = vs app /\ bcState app' = bcState app /\
        quit app' = true /\ sendLoopDone app' = sendLoopDone app /\
        eventLoopDone app' = eventLoopDone app
    | SendLoop c =>
        storeCalls X = [] /\ vs app' = vs app /\
        quit app' = quit app /\ eventLoopDone app' = eventLoopDone app /\
        sendLoopDone app = false /\
        (c <> CaseSendLoopQuit -> sendLoopDone app' = false) /\
        (c = CaseSendLoopQuit ->
         X = [] /\ bcState app' = bcState app /\ quit app = true /\ sendLoopDone app' = true)
    | EventLoop c =>
        chainCalls X = [] /\ bcState app' = bcState app /\
        quit app' = quit app /\ sendLoopDone app' = sendLoopDone app /\
        eventLoopDone app = false /\
        (c <> CaseEventLoopQuit -> eventLoopDone app' = false) /\
        (c = CaseEventLoopQuit ->
         X = [] /\ vs app' = vs app /\ quit app = true /\ eventLoopDone app' = true)
    end.
Proof.
  intros Hstep. destruct st as [r| |c|c]; simpl in Hstep.
  - destruct (status app); try discriminate. injection Hstep as <-.
    exists [Submitted r]. split; [reflexivity|]. destruct r; repeat split.
  - destruct (status app); try discriminate. injection Hstep as <-.
    exists []. simpl. rewrite app_nil_r. repeat split.
  - assert (Hdone : sendLoopDone app = false).
    { unfold handleSentToBabylonStep in Hstep. destruct (status app); try discriminate.
      destruct (sendLoopDone app); [discriminate|reflexivity]. }
    pose proof (handleSentToBabylonStep_vs bc c app app' Hstep) as Hvs.
    destruct (nextRequest c app) as [r|] eqn:Hnext.
    + assert (Hc : c <> CaseSendLoopQuit) by (intros ->; discriminate).
      destruct (handleSentToBabylonStep_request bc c app app' r Hstep Hnext)
        as (call & _ & _ & _ & _ & _ & Hres).
      destruct (performCall bc call (bcState app)).1 as [tx|err].
      * destruct Hres as (e & msg & _ & Hw & Ht).
        destruct (flags_wiring _ _ Hw) as (Hq & Hs & He & _).
        eexists. split; [exact Ht|]. repeat split; try assumption; try contradiction.
        -- rewrite Hq. destruct e, c; reflexivity.
        -- rewrite He. destruct e, c; reflexivity.
        -- intros _. rewrite Hs. destruct e, c; exact Hdone.
      * destruct Hres as (Hw & msg & Ht).
        destruct (flags_wiring _ _ Hw) as (Hq & Hs & He & _).
        eexists. split; [exact Ht|]. repeat split; try assumption; try contradiction.
        -- rewrite Hq. destruct c; reflexivity.
        -- rewrite He. destruct c; reflexivity.
        -- intros _. rewrite Hs. destruct c; exact Hdone.
    + destruct (handleSentToBabylonStep_quit bc c app app' Hstep Hnext) as (-> & -> & _).
      exists []. simpl. rewrite app_nil_r.
      unfold handleSentToBabylonStep in Hstep. destruct (status app); try discriminate.
      rewrite Hdone in Hstep. destruct (quit app) eqn:Hq; [|discriminate].
      repeat split; try assumption; try reflexivity. intros H; destruct (H eq_refl).
  - assert (Hdone : eventLoopDone app = false).
    { unfold eventLoopStep in Hstep. destruct (status app); try discriminate.
      destruct (eventLoopDone app); [discriminate|reflexivity]. }
    destruct (nextEvent c app) as [e|] eqn:Hnext.
    + assert (Hc : c <> CaseEventLoopQuit) by (intros ->; discriminate).
      destruct (eventLoopStep_receive handleCreate c app app' e Hstep Hnext) as [-> _].
      destruct (onEvent_outcome e (receive c app)) as (Hw & X & Ht & Hcalls & _).
      destruct (flags_wiring _ _ Hw) as (Hq & Hs & He & Hb).
      rewrite trace_receive in Ht. exists X. split; [exact Ht|].
      repeat split; try assumption; try contradiction.
      * rewrite Hb. destruct c; reflexivity.
      * rewrite Hq. destruct c; reflexivity.
      * rewrite Hs. destruct c; reflexivity.
      * intros _. rewrite He. destruct c; exact Hdone.
    + destruct (eventLoopStep_other handleCreate c app app' Hstep Hnext)
        as (_ & _ & [[-> ->]|(-> & req & resp & _ & Hw & Ht)]).
      * exists []. simpl. rewrite app_nil_r.
        unfold eventLoopStep in Hstep. destruct (status app); try discriminate.
        rewrite Hdone in Hstep. destruct (quit app) eqn:Hq; [|discriminate].
        repeat split; try assumption; try reflexivity. intros H; destruct (H eq_refl).
      * destruct (flags_wiring _ _ Hw) as (Hq & Hs & He & Hb).
        eexists. split; [exact Ht|].
        repeat split; try assumption; try reflexivity; try discriminate.
        intros _. rewrite He. exact Hdone.
Qed.

Lemma run_sides sched app app' :
  run bc handleCreate sched app = Some app' ->
  (Forall (fun st => forall c, st <> EventLoop c) sched ->
   vs app' = vs app /\ storeCalls (trace app') = storeCalls (trace app)) /\
  (Forall (fun st => forall c, st <> SendLoop c) sched ->
   bcState app' = bcState app /\ chainCalls (trace app') = chainCalls (trace app)).
Proof.
  revert app. induction sched as [|st rest IH]; intros app Hrun; simpl in Hrun.
  - injection Hrun as <-. auto.
  - destruct (sysStep bc handleCreate st app) as [app1|] eqn:Hstep; [|discriminate].
    destruct (IH app1 Hrun) as [IHs IHc].
    destruct (sysStep_shape st app app1 Hstep) as (X & Ht & Hsh).
    split; intros Hall; inversion Hall as [|? ? Hst Hrest]; subst.
    + destruct (IHs Hrest) as [-> ->]. rewrite Ht, storeCalls_app.
      destruct st as [r| |c|c].
      * destruct Hsh as (-> & -> & _). rewrite app_nil_r. auto.
      * destruct Hsh as (-> & -> & _). rewrite app_nil_r. auto.
      * destruct Hsh as (-> & -> & _). rewrite app_nil_r. auto.
      * destruct (Hst c eq_refl).
    + destruct (IHc Hrest) as [-> ->]. rewrite Ht, chainCalls_app.
      destruct st as [r| |c|c].
      * destruct Hsh as (-> & _ & -> & _). rewrite app_nil_r. auto.
      * destruct Hsh as (-> & _ & -> & _). rewrite app_nil_r. auto.
      * destruct (Hst c eq_refl).
      * destruct Hsh as (-> & -> & _). rewrite app_nil_r. auto.
Qed.

Lemma run_after_return sched app app' :
  run bc handleCreate sched app = Some app' ->
  (sendLoopDone app = true ->
   sendLoopDone app' = true /\ Forall (fun st => forall c, st <> SendLoop c) sched) /\
  (eventLoopDone app = true ->
   eventLoopDone app' = true /\ Forall (fun st => forall c, st <> EventLoop c) sched) /\
  (quit app = false -> Forall (fun st => st <> CloseQuit) sched ->
   quit app' = false /\ sendLoopDone app' = sendLoopDone app /\
   eventLoopDone app' = eventLoopDone app).
Proof.
  revert app. induction sched as [|st rest IH]; intros app Hrun; simpl in Hrun.
  - injection Hrun as <-. repeat split; auto.
  - destruct (sysStep bc handleCreate st app) as [app1|] eqn:Hstep; [|discriminate].
    destruct (IH app1 Hrun) as (IHs & IHe & IHq).
    destruct (sysStep_shape st app app1 Hstep) as (X & _ & Hsh).
    split; [|split].
    + intros Hd. destruct st as [r| |c|c].
      * destruct Hsh as (_ & _ & _ & _ & Hs & _). rewrite Hd in Hs.
        destruct (IHs Hs). split; [assumption|]. constructor; [discriminate|assumption].
      * destruct Hsh as (_ & _ & _ & _ & Hs & _). rewrite Hd in Hs.
        destruct (IHs Hs). split; [assumption|]. constructor; [discriminate|assumption].
      * destruct Hsh as (_ & _ & _ & _ & Hs & _). congruence.
      * destruct Hsh as (_ & _ & _ & Hs & _). rewrite Hd in Hs.
        destruct (IHs Hs). split; [assumption|]. constructor; [discriminate|assumption].
    + intros Hd. destruct st as [r| |c|c].
      * destruct Hsh as (_ & _ & _ & _ & _ & He). rewrite Hd in He.
        destruct (IHe He). split; [assumption|]. constructor; [discriminate|assumption].
      * destruct Hsh as (_ & _ & _ & _ & _ & He). rewrite Hd in He.
        destruct (IHe He). split; [assumption|]. constructor; [discriminate|assumption].
      * destruct Hsh as (_ & _ & _ & He & _). rewrite Hd in He.
        destruct (IHe He). split; [assumption|]. constructor; [discriminate|assumption].
      * destruct Hsh as (_ & _ & _ & _ & He & _). congruence.
    + intros Hq Hall. inversion Hall as [|? ? Hst Hrest]; subst.
      destruct st as [r| |c|c].
      * destruct Hsh as (_ & _ & _ & Hq1 & Hs1 & He1). rewrite Hq in Hq1.
        destruct (IHq Hq1 Hrest) as (? & ? & ?). repeat split; congruence.
      * destruct (Hst eq_refl).
      * destruct Hsh as (_ & _ & Hq1 & He1 & Hs0 & Hne & Hquit). rewrite Hq in Hq1.
        destruct (IHq Hq1 Hrest) as (? & ? & ?).
        assert (c <> CaseSendLoopQuit).
        { intros Hc. destruct (Hquit Hc) as (_ & _ & Hqt & _). congruence. }
        specialize (Hne H2). repeat split; congruence.
      * destruct Hsh as (_ & _ & Hq1 & Hs1 & He0 & Hne & Hquit). rewrite Hq in Hq1.
        destruct (IHq Hq1 Hrest) as (? & ? & ?).
        assert (c <> CaseEventLoopQuit).
        { intros Hc. destruct (Hquit Hc) as (_ & _ & Hqt & _). congruence. }
        specialize (Hne H2). repeat split; congruence.
Qed.

Lemma run_idle sched app app' :
  run bc handleCreate sched app = Some app' ->
  Forall (fun st => forall c, st <> SendLoop c) sched ->
  Forall (fun st => forall c, st <> EventLoop c) sched ->
  replies (trace app') = replies (trace app) /\ eventChans app' = eventChans app.
Proof.
  revert app. induction sched as [|st rest IH]; intros app Hrun Hs He; simpl in Hrun.
  - injection Hrun as <-. auto.
  - destruct (sysStep bc handleCreate st app) as [app1|] eqn:Hstep; [|discriminate].
    inversion Hs as [|? ? Hs1 Hs2]; inversion He as [|? ? He1 He2]; subst.
    destruct (IH app1 Hrun Hs2 He2) as [-> ->].
    destruct st as [r| |c|c]; simpl in Hstep.
    + destruct (status app); try discriminate. injection Hstep as <-.
      destruct r; simpl; rewrite replies_app; simpl; rewrite app_nil_r; auto.
    + destruct (status app); try discriminate. injection Hstep as <-. auto.
    + destruct (Hs1 c eq_refl).
    + destruct (He1 c eq_refl).
Qed.

(** X9.  Only the event loop writes the store and only the submission loop calls
    the chain: a run in which the event loop takes no iteration leaves the
    store and the store calls of the trace as they were, and a run in which
    the submission loop takes no iteration leaves the state of the chain
    client and the chain calls of the trace as they were. *)
Theorem loops_keep_to_their_side sched app app' :
  run bc handleCreate sched app = Some app' ->
  (Forall (fun st => forall c, st <> EventLoop c) sched ->
   vs app' = vs app /\ storeCalls (trace app') = storeCalls (trace app)) /\
  (Forall (fun st => forall c, st <> SendLoop c) sched ->
   bcState app' = bcState app /\ chainCalls (trace app') = chainCalls (trace app)).
Proof. apply run_sides. Qed.

(** X10.  A loop that has returned does nothing more.  In every run after the
    submission loop has returned the chain client is not called again; in
    every run after the event loop has returned the store is not written
    again; and once both have returned no reply is written and no event is
    sent any more, whatever is submitted. *)
Theorem returned_loops_stay_silent sched app app' :
  run bc handleCreate sched app = Some app' ->
  (sendLoopDone app = true ->
   sendLoopDone app' = true /\ bcState app' = bcState app /\
   chainCalls (trace app') = chainCalls (trace app)) /\
  (eventLoopDone app = true ->
   eventLoopDone app' = true /\ vs app' = vs app /\
   storeCalls (trace app') = storeCalls (trace app)) /\
  (sendLoopDone app = true -> eventLoopDone app = true ->
   replies (trace app') = replies (trace app) /\ eventChans app' = eventChans app).
Proof.
  intros Hrun.
  destruct (run_after_return sched app app' Hrun) as (Hs & He & _).
  destruct (run_sides sched app app' Hrun) as (Hst & Hch).
  split; [|split].
  - intros Hd. destruct (Hs Hd) as [Hd' Hall]. destruct (Hch Hall). auto.
  - intros Hd. destruct (He Hd) as [Hd' Hall]. destruct (Hst Hall). auto.
  - intros Hd1 Hd2. destruct (Hs Hd1) as [_ Hall1]. destruct (He Hd2) as [_ Hall2].
    apply (run_idle sched app app' Hrun Hall1 Hall2).
Qed.

(** X11.  The loops return on quit only.  In every run in which the quit channel
    is open and stays open, neither loop returns; an iteration that makes a
    loop return is one of its quit case with the channel closed; and closing
    the channel does not stop a loop from taking a request that waits: the
    case of the request is as ready as the quit case. *)
Theorem loops_return_on_quit_only sched app app' :
  run bc handleCreate sched app = Some app' ->
  (quit app = false -> Forall (fun st => st <> CloseQuit) sched ->
   sendLoopDone app' = sendLoopDone app /\ eventLoopDone app' = eventLoopDone app) /\
  (forall st a a', sysStep bc handleCreate st a = Some a' ->
     (sendLoopDone a = false -> sendLoopDone a' = true ->
      st = SendLoop CaseSendLoopQuit /\ quit a = true) /\
     (eventLoopDone a = false -> eventLoopDone a' = true ->
      st = EventLoop CaseEventLoopQuit /\ quit a = true)) /\
  (forall c, status app' = Running -> sendLoopDone app' = false -> quit app' = true ->
     is_Some (nextRequest c app') ->
     is_Some (handleSentToBabylonStep bc c app') /\
     is_Some (handleSentToBabylonStep bc CaseSendLoopQuit app')).
Proof.
  intros Hrun. split; [|split].
  - intros Hq Hall. destruct (run_after_return sched app app' Hrun) as (_ & _ & H).
    destruct (H Hq Hall) as (_ & ? & ?). auto.
  - intros st a a' Hstep.
    destruct (sysStep_shape st a a' Hstep) as (X & _ & Hsh).
    destruct st as [r| |c|c].
    + destruct Hsh as (_ & _ & _ & _ & Hs & He). split; congruence.
    + destruct Hsh as (_ & _ & _ & _ & Hs & He). split; congruence.
    + destruct Hsh as (_ & _ & _ & He & _ & Hne & Hquit). split; [|congruence].
      intros _ Hd. destruct (decide (c = CaseSendLoopQuit)) as [->|Hc].
      * destruct (Hquit eq_refl) as (_ & _ & Hq & _). auto.
      * rewrite (Hne Hc) in Hd. discriminate.
    + destruct Hsh as (_ & _ & _ & Hs & _ & Hne & Hquit). split; [congruence|].
      intros _ Hd. destruct c; try (rewrite Hne in Hd; discriminate).
      destruct (Hquit eq_refl) as (_ & _ & Hq & _). auto.
  - intros c Hst Hd Hq Hnext. split.
    + apply handleSentToBabylonStep_ready; assumption.
    + unfold handleSentToBabylonStep. rewrite Hst, Hd, Hq. simpl. eauto.
Qed.

End Sides.

(** A vote submitted and sent to the chain, the event loop idle: the store
    is the initial one. *)
Lemma loops_keep_to_their_side_witness :
  let sched := [Submit (reqVote 101 1); SendLoop CaseAddFinalitySigRequest] in
  let app := default app1 (run pickyClient createValidator sched app1) in
  vs app = store1 /\ storeCalls (trace app) = [].
Proof.
  intros sched app.
  assert (Hrun : run pickyClient createValidator sched app1 = Some app)
    by (vm_compute; reflexivity).
  destruct (loops_keep_to_their_side pickyClient createValidator sched app1 app Hrun)
    as [H _].
  apply H. repeat constructor; discriminate.
Defined.

(** Both loops return on quit with a vote waiting; a registration submitted
    afterwards is never called on the chain, and nothing is replied. *)
Lemma returned_loops_stay_silent_witness :
  let sched := [Submit (reqVote 101 1); CloseQuit; SendLoop CaseSendLoopQuit;
                EventLoop CaseEventLoopQuit] in
  let app := default app1 (run pickyClient createValidator sched app1) in
  let app' := default app (run pickyClient createValidator [Submit reqRegister] app) in
  chainCalls (trace app') = [] /\ replies (trace app') = [] /\
  pendingSlots app' = [1%nat; 2%nat].
Proof.
  intros sched app app'.
  assert (Hrun : run pickyClient createValidator [Submit reqRegister] app = Some app')
    by (vm_compute; reflexivity).
  destruct (returned_loops_stay_silent pickyClient createValidator _ app app' Hrun)
    as (Hs & _ & Hb).
  destruct (Hs eq_refl) as (_ & _ & Hc).
  destruct (Hb eq_refl eq_refl) as [Hr _].
  split; [exact Hc|]. split; [exact Hr|reflexivity].
Defined.

(** With the quit channel open, a run of both loops over a vote leaves both
    running. *)
Lemma loops_return_on_quit_only_witness :
  let sched := [Submit (reqVote 101 1); SendLoop CaseAddFinalitySigRequest;
                EventLoop CaseFinalitySigAdded] in
  let app := default app1 (run pickyClient createValidator sched app1) in
  sendLoopDone app = false /\ eventLoopDone app = false.
Proof.
  intros sched app.
  assert (Hrun : run pickyClient createValidator sched app1 = Some app)
    by (vm_compute; reflexivity).
  destruct (loops_return_on_quit_only pickyClient createValidator sched app1 app Hrun)
    as [H _].
  apply H; [reflexivity|]. repeat constructor; discriminate.
Defined.

(** ** A store fault in the middle of a commitment *)

Section Interrupted.
  Context {C : Type}.
  Variable handleCreate :
    createValidatorRequest -> ValidatorStore -> (Bytes + error) * ValidatorStore.
  Implicit Types (app : App C).

Lemma runStoreOp_fault op s :
  faults s !! 0%nat = Some true ->
  (runStoreOp op s).1 = Some "storage error"%string /\
  validators (runStoreOp op s).2 = validators s /\
  randPairs (runStoreOp op s).2 = randPairs s.
Proof.
  intros H. destruct (runStoreOp_faults op s) as (f & -> & _).
  unfold durably. destruct (faults s) as [|[] fs]; simpl in *; try discriminate.
  auto.
Qed.

Lemma runStoreOp_fault_later op s n :
  writesOk (S n) s -> faults s !! S n = Some true ->
  faults (runStoreOp op s).2 !! n = Some true.
Proof.
  intros Hok H. destruct (runStoreOp_faults op s) as (f & -> & _).
  unfold writesOk, durably in *. destruct (faults s) as [|[] fs]; simpl in *; try discriminate.
  - inversion Hok; discriminate.
  - exact H.
Qed.

Lemma saveRandPair_randPairs pk h rp s key :
  key <> (pk, h) ->
  randPairs (runStoreOp (OpSaveRandPair pk h rp) s).2 !! key = randPairs s !! key.
Proof.
  intros Hne. unfold runStoreOp, SaveRandPair, durably.
  destruct (faults s) as [|[] fs]; simpl; try reflexivity;
    destruct (randPairs s !! (pk, h)); simpl; try reflexivity;
    apply lookup_insert_ne; congruence.
Qed.

Lemma saveRandPairs_fault ev k : forall privs i app pr pub,
  privs !! k = Some pr ->
  prc_pubRandList ev !! (i + k)%nat = Some pub ->
  writesOk k (vs app) ->
  faults (vs app) !! k = Some true ->
  let res := saveRandPairs ev i privs app in
  res.1 = None /\
  status res.2 = Fatal "err while saving committed random pair to DB" (EvPubRandCommitted ev) /\
  trace res.2 =
    trace app ++ randPairCalls ev i (take k (zip privs (drop i (prc_pubRandList ev)))) ++
      [Stored (OpSaveRandPair (prc_bbnPubKey ev)
                 (u64_add (prc_startingHeight ev) (to_uint64 (Z.of_nat (i + k))))
                 (mkSchnorrRandPair pr pub)) false;
       Logged FatalLevel "err while saving committed random pair to DB"] /\
  validators (vs res.2) = validators (vs app) /\
  (forall key,
     (forall j, (j < k)%nat ->
        key <> (prc_bbnPubKey ev,
                u64_add (prc_startingHeight ev) (to_uint64 (Z.of_nat (i + j))))) ->
     randPairs (vs res.2) !! key = randPairs (vs app) !! key).
Proof.
  induction k as [|k IH]; intros privs i app pr pub Hpr Hpub Hok Hf;
    destruct privs as [|p0 rest]; try discriminate; simpl in Hpr.
  - injection Hpr as ->. rewrite Nat.add_0_r in *. simpl. rewrite Hpub.
    unfold mbind, eff_bind. rewrite vsCall_eq.
    match goal with |- context [runStoreOp ?op (vs app)] =>
      destruct (runStoreOp_fault op (vs app) Hf) as (He & Hv & Hr);
      destruct (runStoreOp op (vs app)) as [err s'] end.
    simpl in He, Hv, Hr. subst err. simpl. rewrite ?take_0. simpl.
    rewrite <- ?app_assoc. simpl. repeat split; try assumption.
    intros key _. rewrite Hr. reflexivity.
  - assert (Hi : is_Some (prc_pubRandList ev !! i)).
    { apply lookup_lt_is_Some. apply lookup_lt_Some in Hpub. lia. }
    destruct Hi as [pub0 Hi]. simpl. rewrite Hi.
    unfold mbind, eff_bind. rewrite vsCall_eq.
    match goal with |- context [runStoreOp ?op (vs app)] =>
      destruct (runStoreOp_ok op (vs app) _ Hok) as [Hnone Hok'];
      pose proof (runStoreOp_fault_later op (vs app) k Hok Hf) as Hf';
      pose proof (saveRandPair_validators (prc_bbnPubKey ev)
                    (u64_add (prc_startingHeight ev) (to_uint64 (Z.of_nat i)))
                    (mkSchnorrRandPair p0 pub0) (vs app)) as Hv;
      pose proof (saveRandPair_randPairs (prc_bbnPubKey ev)
                    (u64_add (prc_startingHeight ev) (to_uint64 (Z.of_nat i)))
                    (mkSchnorrRandPair p0 pub0) (vs app)) as Hr;
      destruct (runStoreOp op (vs app)) as [err s'] end.
    simpl in Hnone, Hok', Hf', Hv, Hr. subst err. simpl.
    replace (i + S k)%nat with (S i + k)%nat in * by lia.
    match goal with |- context [saveRandPairs ev (S i) rest ?a] =>
      destruct (IH rest (S i) a pr pub Hpr Hpub Hok' Hf') as (H1 & H2 & H3 & H4 & H5) end.
    simpl in H3, H4, H5.
    split; [exact H1|]. split; [exact H2|]. split; [|split].
    + rewrite H3. rewrite (drop_S _ _ _ Hi). simpl. rewrite <- !app_assoc. simpl.
      unfold randPairCalls. rewrite Nat.add_0_r.
      do 2 f_equal. f_equal. apply imap_ext. intros j p _. simpl. do 5 f_equal. lia.
    + rewrite H4. exact Hv.
    + intros key Hkey. rewrite H5.
      * apply Hr. specialize (Hkey 0%nat). rewrite Nat.add_0_r in Hkey. apply Hkey. lia.
      * intros j Hj. specialize (Hkey (S j)).
        replace (i + S j)%nat with (S (i + j))%nat in Hkey by lia. apply Hkey. lia.
Qed.

Lemma onPubRandCommitted_fault ev app val k pr pub :
  GetValidator (prc_bbnPubKey ev) (vs app) = Some val ->
  prc_privRandList ev !! k = Some pr ->
  prc_pubRandList ev !! k = Some pub ->
  writesOk (S k) (vs app) ->
  faults (vs app) !! S k = Some true ->
  let val' := with_LastCommittedHeight (committedHeight ev) val in
  let res := onPubRandCommitted ev app in
  status res.2 =
    Fatal "err while saving committed random pair to DB" (EvPubRandCommitted ev) /\
  trace res.2 =
    trace app ++ Stored (OpSaveValidator val') true ::
    randPairCalls ev 0 (take k (zip (prc_privRandList ev) (prc_pubRandList ev))) ++
    [Stored (OpSaveRandPair (prc_bbnPubKey ev)
               (u64_add (prc_startingHeight ev) (to_uint64 (Z.of_nat k)))
               (mkSchnorrRandPair pr pub)) false;
     Logged FatalLevel "err while saving committed random pair to DB"] /\
  validators (vs res.2) = <[BabylonPk val := val']> (validators (vs app)) /\
  (forall key,
     (forall j, (j < k)%nat ->
        key <> (prc_bbnPubKey ev,
                u64_add (prc_startingHeight ev) (to_uint64 (Z.of_nat j)))) ->
     randPairs (vs res.2) !! key = randPairs (vs app) !! key).
Proof.
  intros Hget Hpr Hpub Hok Hf val' res. subst res.
  unfold onPubRandCommitted, mbind, eff_bind, vsGet. rewrite Hget, vsCall_eq. fold val'.
  destruct (saveValidator_ok val' (vs app) _ Hok) as (Hnone & Hvals & Hrps & Hok').
  pose proof (runStoreOp_fault_later (OpSaveValidator val') (vs app) k Hok Hf) as Hf'.
  destruct (runStoreOp (OpSaveValidator val') (vs app)) as [err s'].
  simpl in Hnone, Hvals, Hrps, Hok', Hf'. subst err. simpl.
  match goal with |- context [saveRandPairs ev 0 _ ?a] =>
    destruct (saveRandPairs_fault ev k (prc_privRandList ev) 0 a pr pub Hpr Hpub Hok' Hf')
      as (H1 & H2 & H3 & H4 & H5) end.
  simpl in H2, H3, H4, H5. rewrite drop_0 in H3.
  destruct (saveRandPairs ev 0 _ _) as [r a'] eqn:Hrun. simpl in *. subst r. simpl.
  split; [exact H2|]. split; [|split].
  - rewrite H3, <- app_assoc. reflexivity.
  - rewrite H4. exact Hvals.
  - intros key Hkey. rewrite (H5 key Hkey). rewrite Hrps. reflexivity.
Qed.

(** X12.  When the store fails on the pair of index [k] of a commitment (the
    validator in the store, the save of the validator and the pairs before
    [k] succeeding), the process exits fatally with the validator already
    saved: its [LastCommittedHeight] is the end of the whole range, the
    store calls made are the save of the validator, the [k] pairs before the
    fault and the failed one, and no reply is written.  When the heights do
    not wrap, the height of index [k] is covered by [LastCommittedHeight]
    and the store has for it the pair it had before, if any. *)
Theorem commit_interrupted_by_store_fault c app app' ev val k pr pub :
  eventLoopStep handleCreate c app = Some app' ->
  nextEvent c app = Some (EvPubRandCommitted ev) ->
  GetValidator (prc_bbnPubKey ev) (vs app) = Some val ->
  prc_privRandList ev !! k = Some pr ->
  prc_pubRandList ev !! k = Some pub ->
  writesOk (S k) (vs app) ->
  faults (vs app) !! S k = Some true ->
  let val' := with_LastCommittedHeight (committedHeight ev) val in
  let height := (prc_startingHeight ev + Z.of_nat k) mod 2 ^ 64 in
  status app' =
    Fatal "err while saving committed random pair to DB" (EvPubRandCommitted ev) /\
  emitted app app' =
    Stored (OpSaveValidator val') true ::
    randPairCalls ev 0 (take k (zip (prc_privRandList ev) (prc_pubRandList ev))) ++
    [Stored (OpSaveRandPair (prc_bbnPubKey ev) height (mkSchnorrRandPair pr pub)) false;
     Logged FatalLevel "err while saving committed random pair to DB"] /\
  replies (emitted app app') = [] /\
  validators (vs app') = <[BabylonPk val := val']> (validators (vs app)) /\
  (0 <= prc_startingHeight ev ->
   prc_startingHeight ev + Z.of_nat (length (prc_pubRandList ev)) <= 2 ^ 64 ->
   height <= LastCommittedHeight val' /\
   randPairs (vs app') !! (prc_bbnPubKey ev, height) =
     randPairs (vs app) !! (prc_bbnPubKey ev, height)).
Proof.
  intros Hstep Hnext Hget Hpr Hpub Hok Hf val' height.
  destruct (eventLoopStep_event _ _ _ _ _ Hstep Hnext) as (app0 & -> & Hvs & Htr & Hst).
  rewrite <- Hvs in Hget, Hok, Hf |- *.
  destruct (onPubRandCommitted_fault ev app0 val k pr pub Hget Hpr Hpub Hok Hf)
    as (H2 & H3 & H4 & H5).
  rewrite u64_add_to_uint64 in H3. fold height in H3. fold val' in H3, H4.
  change (onEvent (EvPubRandCommitted ev) app0) with (onPubRandCommitted ev app0).
  rewrite Htr in H3.
  split; [exact H2|]. rewrite (emitted_app _ _ _ H3).
  split; [reflexivity|]. split; [|split].
  - simpl. rewrite replies_app, replies_randPairCalls. reflexivity.
  - exact H4.
  - intros H0 Hmax. apply lookup_lt_Some in Hpub.
    assert (Hh : height = prc_startingHeight ev + Z.of_nat k).
    { unfold height. apply Z.mod_small. lia. }
    split.
    + simpl. rewrite committedHeight_eq, Z.mod_small by lia. lia.
    + apply H5. intros j Hj. rewrite u64_add_to_uint64, Hh, Z.mod_small by lia.
      intros Heq. injection Heq. lia.
Qed.

End Interrupted.

(** The five values of the spec's scenario on a store that fails on the
    third pair: the process exits with the validator saved, no pair at
    height 102 and no reply. *)
Lemma commit_interrupted_by_store_fault_witness :
  let app := deliver (EvPubRandCommitted evFive) (initApp (storeFailingAt 3) tt) in
  let app' := default app (eventLoopStep createValidator CasePubRandCommitted app) in
  status app' =
    Fatal "err while saving committed random pair to DB" (EvPubRandCommitted evFive) /\
  randPairs (vs app') !! (pk1, 102) = None /\
  replies (emitted app app') = [].
Proof.
  intros app app'.
  destruct (commit_interrupted_by_store_fault createValidator CasePubRandCommitted app app'
              evFive val1 2%nat ["2"%byte] ["c"%byte])
    as (Hst & _ & Hr & _ & Hcov); [reflexivity..| |reflexivity|].
  - repeat constructor.
  - destruct Hcov as [_ Hrp]; [simpl; lia..|].
    split; [exact Hst|]. split; [|exact Hr].
    etrans; [exact Hrp|reflexivity].
Defined.

(** ** The create-validator case *)

Section CreateCase.
  Context {C : Type}.
  Variable handleCreate :
    createValidatorRequest -> ValidatorStore -> (Bytes + error) * ValidatorStore.
  Implicit Types (app : App C).

(** X13.  When the event loop takes a create-validator request it calls the
    handler once, on the request and the store, keeps the store the handler
    leaves (whether it succeeded or not), and writes exactly one reply on
    the request's slot: the error, or the handler's result.  It sends no
    event, and the loop goes on: a further request waiting in the channel
    is ready to be taken, also after an error. *)
Theorem create_request_answered app app' req rest :
  eventLoopStep handleCreate CaseCreateValidatorRequest app = Some app' ->
  createValidatorRequestChan app = req :: rest ->
  let res := handleCreate req (vs app) in
  vs app' = res.2 /\
  emitted app app' =
    [Replied (cvr_slot req)
       match res.1 with
       | inl resp => createValidatorResponse resp
       | inr err => errResponse err
       end] /\
  createValidatorRequestChan app' = rest /\
  eventChans app' = eventChans app /\
  bcState app' = bcState app /\
  status app' = Running /\
  (rest <> [] -> is_Some (eventLoopStep handleCreate CaseCreateValidatorRequest app')).
Proof.
  intros Hstep Hq res. subst res. unfold eventLoopStep in *.
  destruct (status app) eqn:Hst; try discriminate.
  destruct (eventLoopDone app) eqn:Hd; try discriminate.
  rewrite Hq in Hstep. injection Hstep as <-.
  unfold onCreateValidatorRequest. simpl.
  destruct (handleCreate req (vs app)) as [[resp|err] s']; simpl;
    (repeat split; try assumption; try reflexivity;
     [apply emitted_app; reflexivity|
      rewrite Hst, Hd; destruct rest; [congruence|eauto]]).
Qed.

End CreateCase.

(** A create request for an identity that is taken, with a second request
    behind it: the first gets the error and the second is ready. *)
Lemma create_request_answered_witness :
  let app := default app1 (run pickyClient createValidator
                             [Submit reqCreateTaken; Submit reqCreateNew] app1) in
  let app' := default app (eventLoopStep createValidator CaseCreateValidatorRequest app) in
  emitted app app' = [Replied 7%nat (errResponse "duplicate identity")] /\
  is_Some (eventLoopStep createValidator CaseCreateValidatorRequest app').
Proof.
  intros app app'.
  destruct (create_request_answered createValidator app app'
              (mkCreateValidatorRequest pk1 7%nat) [mkCreateValidatorRequest ["N"%byte] 8%nat])
    as (_ & He & _ & _ & _ & _ & Hready); [reflexivity..|].
  split; [exact He|]. apply Hready. discriminate.
Defined.

(** ** The jury reactor over many ticks *)

Section JuryRuns.
  Context {E : Type}.
  Variable getPending : E -> (list Delegation + error) * E.
  Variable addJurySig : Delegation -> E -> (Bytes + error) * E.
  Implicit Types (r : Reactor E).

Lemma fetched_app t1 t2 : fetched (t1 ++ t2) = fetched t1 ++ fetched t2.
Proof. apply omap_app. Qed.

Lemma attempted_app t1 t2 : attempted (t1 ++ t2) = attempted t1 ++ attempted t2.
Proof. apply omap_app. Qed.

Lemma failedAttempts_app t1 t2 :
  failedAttempts (t1 ++ t2) = failedAttempts t1 ++ failedAttempts t2.
Proof. apply omap_app. Qed.

Lemma loggedFailures_app t1 t2 :
  loggedFailures (t1 ++ t2) = loggedFailures t1 ++ loggedFailures t2.
Proof. apply omap_app. Qed.

Lemma fetchedDelegations_app t1 t2 :
  fetchedDelegations (t1 ++ t2) = fetchedDelegations t1 ++ fetchedDelegations t2.
Proof. unfold fetchedDelegations. rewrite omap_app. apply concat_app. Qed.

Lemma onJurySigTick_trace r :
  let r' := onJurySigTick getPending addJurySig r in
  reactorDone r' = reactorDone r /\
  exists X, jtrace r' = jtrace r ++ X /\
    juryCalls getPending addJurySig X None (env r) (env r') /\
    length (fetched X) = 1%nat /\
    attempted X = fetchedDelegations X /\ loggedFailures X = failedAttempts X.
Proof.
  destruct (onJurySigTick_spec getPending addJurySig r) as (Hd & X & Ht & Hc & Hm).
  simpl. split; [exact Hd|]. eexists. split; [exact Ht|]. split; [exact Hc|].
  destruct (getPending (env r)).1 as [dels|err].
  - destruct Hm as (Hf & Hfd & Ha & Hl).
    change (fetched (Fetched (inl dels) :: X)) with (inl dels :: fetched X).
    change (fetchedDelegations (Fetched (inl dels) :: X)) with (dels ++ fetchedDelegations X).
    rewrite Hf, Hfd, app_nil_r. split; [reflexivity|]. split; [exact Ha|exact Hl].
  - subst X. repeat split.
Qed.

(** X14.  The jury reactor goes through any number of ticks, whatever
    fails in them: after [n] ticks it made [n] fetches, attempted every
    delegation of every successful fetch, in order, logged each failed
    attempt, and is still running.  What the ticks record is what
    [getPendingDelegationsForAll] and [AddJurySignature] returned, each
    called at the state the call before it left, and the rest of the app
    is left in the state after the last call.  The loop returns on quit
    only: the quit case is not ready while the channel is open, and once
    the channel is closed the case makes the loop return without doing
    anything, for good. *)
Theorem jury_loop_runs_until_quit quitClosed n r :
  reactorDone r = false ->
  exists r',
    jurySigSubmissionLoop getPending addJurySig quitClosed (replicate n CaseJurySigTick) r
      = Some r' /\
    reactorDone r' = false /\
    (exists X, jtrace r' = jtrace r ++ X /\
       juryCalls getPending addJurySig X None (env r) (env r') /\
       length (fetched X) = n /\
       attempted X = fetchedDelegations X /\ loggedFailures X = failedAttempts X) /\
    jurySigSubmissionLoop getPending addJurySig false [CaseJuryQuit] r' = None /\
    exists r'',
      jurySigSubmissionLoop getPending addJurySig true [CaseJuryQuit] r' = Some r'' /\
      jtrace r'' = jtrace r' /\ env r'' = env r' /\
      forall q c rest,
        jurySigSubmissionLoop getPending addJurySig q (c :: rest) r'' = None.
Proof.
  revert r. induction n as [|n IH]; intros r Hd.
  - exists r. simpl. split; [reflexivity|]. split; [exact Hd|]. split.
    { exists []. rewrite app_nil_r. simpl. repeat split; auto. }
    unfold jurySigSubmissionStep. rewrite Hd. split; [reflexivity|].
    eexists. split; [reflexivity|]. simpl. auto.
  - simpl. unfold jurySigSubmissionStep at 1. rewrite Hd.
    destruct (onJurySigTick_trace r) as (Hd1 & X1 & Ht1 & Hc1 & Hf1 & Ha1 & Hl1).
    simpl in Hd1, Ht1, Hc1. rewrite Hd in Hd1.
    destruct (IH _ Hd1) as (r' & Hloop & Hd' & (X & Ht & Hc & Hf & Ha & Hl) & Hq).
    exists r'. split; [exact Hloop|]. split; [exact Hd'|]. split; [|exact Hq].
    exists (X1 ++ X). rewrite Ht, Ht1, <- app_assoc.
    split; [reflexivity|].
    split; [exact (juryCalls_app getPending addJurySig X1 X None _ _ _ Hc1 Hc)|].
    rewrite fetched_app, attempted_app, fetchedDelegations_app, loggedFailures_app,
      failedAttempts_app, length_app, Hf1, Hf, Ha1, Ha, Hl1, Hl. auto.
Qed.

End JuryRuns.

(** Three ticks with two pending delegations, signing failing for the first:
    six attempts, three failures logged, nine calls that each moved the
    rest of the app on, and quit ends the loop. *)
Lemma jury_loop_runs_until_quit_witness :
  let r := mkReactor 0%nat [] false in
  exists r',
    jurySigSubmissionLoop pendingXY signButX false (replicate 3 CaseJurySigTick) r = Some r' /\
    attempted (jtrace r') = [delX; delY; delX; delY; delX; delY] /\
    loggedFailures (jtrace r') = [["x"%byte]; ["x"%byte]; ["x"%byte]] /\
    juryCalls pendingXY signButX (jtrace r') None 0%nat 9%nat /\
    is_Some (jurySigSubmissionLoop pendingXY signButX true [CaseJuryQuit] r').
Proof.
  intros r.
  destruct (jury_loop_runs_until_quit pendingXY signButX false 3 r eq_refl)
    as (r' & Hloop & _ & (X & Ht & Hc & _) & _ & r'' & Hq & _).
  exists r'. split; [exact Hloop|].
  change (jtrace r' = X) in Ht.
  assert (He : env r' = 9%nat) by (injection Hloop as <-; reflexivity).
  rewrite Ht, <- He. split; [rewrite <- Ht; injection Hloop as <-; reflexivity|].
  split; [rewrite <- Ht; injection Hloop as <-; reflexivity|].
  split; [exact Hc|]. rewrite Hq. eauto.
Defined.
